(** * Karaoke room queue: a shallow embedding of the queue engine

    The repository holds two realizations of the shared room queue:

    - the Socket.io server ([server/index.js], present twice with identical
      socket handlers), which keeps every room's queue in the process-wide
      object [rooms] and broadcasts the queue after each command;
    - the Firestore client ([client/src/components/Room.jsx]), which keeps
      one document per queue entry and orders them by the numeric field
      [order].

    It also holds the title-extraction proxy that calls an upstream AI
    provider with a capability-learning retry.

    Module [Js] embeds the array methods the handlers use, module [Server]
    the socket handlers, module [Ai] the retry loop, module [Double] the
    rounding of JavaScript numbers, module [Firestore] the document model
    of the client; the sample modules hold the data of the examples.  The facts about each module follow, and then the properties
    of the queue, of the retry and of the position keys.

    Modules [SocketClient] and [FirestoreUi] embed the drag handlers and
    the queue buttons of the clients, module [Correspondence] sets the two
    clients side by side, and module [Text] holds the string helpers of
    the prompt and of the lyrics search; their facts, and further
    invariants of the handlers and of the proxies, close the file. *)

From Stdlib Require Import ZArith QArith Qcanon Qround Qabs Qpower.
From Stdlib Require OrderedTypeEx.
From stdpp Require Import base gmap sets list strings sorting.

Close Scope Q_scope.
Close Scope Qc_scope.
Local Open Scope string_scope.
Local Open Scope list_scope.
Local Open Scope nat_scope.
Local Open Scope stdpp_scope.

(** ** JavaScript array methods used by the handlers *)
Module Js.

Section arrays.
Context {A : Type}.

(** [arr.push(x)]: the array with [x] after its last element. *)
Definition push (arr : list A) (x : A) : list A := arr ++ [x].

(** [arr.splice(start, deleteCount, ...items)] for a non-negative [start]:
    the pair of the updated array and of the array of removed elements.
    A [start] beyond the end is clamped to the length, as [take] and
    [drop] do. *)
Definition splice (start deleteCount : nat) (items arr : list A)
  : list A * list A :=
  (take start arr ++ items ++ drop (start + deleteCount) arr,
   take deleteCount (drop start arr)).

(** [arr.shift()]: the array without its first element. *)
Definition shift (arr : list A) : list A :=
  match arr with
  | [] => []
  | _ :: rest => rest
  end.

(** [arr.findIndex(p)]: the index of the first element satisfying [p],
    and [-1] when there is none; [findIndex_from k] scans a suffix whose
    first element has index [k]. *)
Fixpoint findIndex_from (p : A → bool) (k : nat) (arr : list A) : Z :=
  match arr with
  | [] => (-1)%Z
  | x :: rest => if p x then Z.of_nat k else findIndex_from p (S k) rest
  end.

Definition findIndex (p : A → bool) (arr : list A) : Z :=
  findIndex_from p 0 arr.

(** [arr.filter(p)]. *)
Definition filter (p : A → bool) (arr : list A) : list A :=
  List.filter p arr.
End arrays.

(** A string is truthy exactly when it is not empty. *)
Definition truthy (s : string) : bool := negb (String.eqb s "").

End Js.

(** ** The Socket.io server *)
Module Server.

(** What a client sends with [addSong]: a search result [{...video, isTop}]. *)
Record Song := {
  id : string;
  title : string;
  thumbnail : string;
  duration : string;
  author : string;
  isTop : bool;
}.

(** A queue entry: [{ ...song, uuid }]. *)
Record QueueItem := {
  song : Song;
  uuid : string;
}.

Global Instance Song_eq_dec : EqDecision Song.
Proof. solve_decision. Defined.
Global Instance QueueItem_eq_dec : EqDecision QueueItem.
Proof. solve_decision. Defined.

(** Socket.io events the server emits, and whom they go to:
    [socket.emit] reaches the one connection, [io.to(roomId).emit] every
    connection that joined the room.  [queueUpdated_inherited name] is the
    event [queueUpdated] that carries, in place of a queue, the value the
    object [rooms] inherits under [name]. *)
Inductive event :=
  | queueUpdated (queue : list QueueItem)
  | volumeChange (volume : Z)
  | queueUpdated_inherited (name : string).

Inductive target :=
  | to_socket (sid : nat)
  | to_room (roomId : string).

Definition emission : Type := target * event.

(** The properties that the object [rooms], made by [{}] or by
    [JSON.parse], inherits from [Object.prototype], each with the value of
    its [length]: the functions have their number of parameters, the
    prototype object under [__proto__] has no [length]. *)
Definition Object_prototype : list (string * option nat) :=
  [("constructor", Some 1); ("__defineGetter__", Some 2);
   ("__defineSetter__", Some 2); ("hasOwnProperty", Some 1);
   ("__lookupGetter__", Some 1); ("__lookupSetter__", Some 1);
   ("isPrototypeOf", Some 1); ("propertyIsEnumerable", Some 1);
   ("toString", Some 0); ("valueOf", Some 0); ("__proto__", None);
   ("toLocaleString", Some 0)].

(** What [rooms[roomId]] evaluates to when it is not [undefined]: the array
    of an own property, or an inherited value, which is truthy and is not
    an array. *)
Inductive js_value :=
  | js_array (queue : list QueueItem)
  | js_inherited (name : string).

(** [v.length > 0] for an inherited value. *)
Definition inherited_length_positive (name : string) : bool :=
  match List.find (λ p, String.eqb p.1 name) Object_prototype with
  | Some (_, Some n) => 0 <? n
  | _ => false
  end.

(** [obj[key]] on the object with the own properties [obj]; [None] is
    [undefined].  An own property hides an inherited one. *)
Definition get (obj : gmap string (list QueueItem)) (key : string)
  : option js_value :=
  match obj !! key with
  | Some queue => Some (js_array queue)
  | None =>
      if bool_decide (key ∈ Object_prototype.*1) then Some (js_inherited key)
      else None
  end.

(** The process state.  [rooms] holds the own properties of the object
    [rooms] (room id to queue).  [disk] is the content of [rooms.json];
    [writes] counts the calls of [fs.writeFileSync] and
    [writeFileSync_throws n] tells whether the call number [n] throws.
    [data_roomId] is [socket.data.roomId] of every connection (absent when
    undefined) and [joined] records the [socket.join] calls.  [threw] is
    set once a handler has thrown a [TypeError]; nothing in the program
    catches it. *)
Record server := {
  rooms : gmap string (list QueueItem);
  disk : gmap string (list QueueItem);
  data_roomId : gmap nat string;
  joined : gset (nat * string);
  writes : nat;
  writeFileSync_throws : nat → bool;
  threw : bool;
}.

Definition set_rooms (f : gmap string (list QueueItem) → gmap string (list QueueItem))
    (st : server) : server :=
  {| rooms := f (rooms st); disk := disk st;
     data_roomId := data_roomId st; joined := joined st;
     writes := writes st; writeFileSync_throws := writeFileSync_throws st;
     threw := threw st |}.

(** [saveRooms(rooms)]: the file receives the whole object, unless
    [writeFileSync] throws; then the [catch] logs the error, the file is
    taken to be as it was, and the caller goes on. *)
Definition saveRooms (st : server) : server :=
  {| rooms := rooms st;
     disk := if writeFileSync_throws st (writes st) then disk st else rooms st;
     data_roomId := data_roomId st; joined := joined st;
     writes := S (writes st); writeFileSync_throws := writeFileSync_throws st;
     threw := threw st |}.

(** A [TypeError] leaves the handler at once: the state is as it was at
    the throw, with [threw] set. *)
Definition throw (st : server) : server :=
  {| rooms := rooms st; disk := disk st;
     data_roomId := data_roomId st; joined := joined st;
     writes := writes st; writeFileSync_throws := writeFileSync_throws st;
     threw := true |}.

(** [socket.join(roomId); socket.data.roomId = roomId;] *)
Definition bind_socket (sid : nat) (roomId : string) (st : server) : server :=
  {| rooms := rooms st; disk := disk st;
     data_roomId := <[sid := roomId]> (data_roomId st);
     joined := {[ (sid, roomId) ]} ∪ joined st;
     writes := writes st; writeFileSync_throws := writeFileSync_throws st;
     threw := threw st |}.

(** The guard that opens every queue handler,
    [const roomId = socket.data.roomId;
     if (!roomId || !rooms[roomId]) return;
     const queue = rooms[roomId];]
    gives the room id and the value of [queue] when the handler goes on.
    An array is truthy even when empty, and so is an inherited value. *)
Definition guard (sid : nat) (st : server) : option (string * js_value) :=
  match data_roomId st !! sid with
  | None => None
  | Some roomId =>
      if Js.truthy roomId then
        match get (rooms st) roomId with
        | None => None
        | Some queue => Some (roomId, queue)
        end
      else None
  end.

(** The room id and the queue with which a handler goes on when [queue] is
    the array of a room. *)
Definition current_queue (sid : nat) (st : server)
  : option (string * list QueueItem) :=
  match guard sid st with
  | Some (roomId, js_array queue) => Some (roomId, queue)
  | _ => None
  end.

(** The callback [s => s.uuid === uuid]. *)
Definition has_uuid (u : string) (s : QueueItem) : bool :=
  String.eqb (uuid s) u.

(** [socket.on('joinRoom', roomId => ...)].  The room is created when
    [rooms[roomId]] is [undefined]; an inherited value is truthy, so that
    under such a name no room is created and the inherited value is what is
    emitted. *)
Definition joinRoom (sid : nat) (roomId : string) (st : server)
  : server * list emission :=
  let st1 := bind_socket sid roomId st in
  match get (rooms st1) roomId with
  | None =>
      (saveRooms (set_rooms (insert roomId []) st1),
       [(to_socket sid, queueUpdated [])])
  | Some (js_array queue) => (st1, [(to_socket sid, queueUpdated queue)])
  | Some (js_inherited name) =>
      (st1, [(to_socket sid, queueUpdated_inherited name)])
  end.

(** [socket.on('addSong', song => ...)]; [fresh] is the value of
    [Date.now() + Math.random().toString()] at the call.  An inherited
    value has neither [splice] nor [push]: the call throws. *)
Definition addSong (sid : nat) (s : Song) (fresh : string) (st : server)
  : server * list emission :=
  match guard sid st with
  | None => (st, [])
  | Some (roomId, js_array queue) =>
      let queueItem := {| song := s; uuid := fresh |} in
      let queue' :=
        if isTop s && (0 <? length queue)
        then (Js.splice 1 0 [queueItem] queue).1
        else Js.push queue queueItem in
      (saveRooms (set_rooms (insert roomId queue') st),
       [(to_room roomId, queueUpdated queue')])
  | Some (roomId, js_inherited name) => (throw st, [])
  end.

(** [socket.on('pinSong', uuid => ...)].  [const [song] = queue.splice(songIndex, 1)]
    binds the first removed element, then [queue.splice(1, 0, song)] puts it
    at index 1.  An inherited value has no [findIndex]: the call throws. *)
Definition pinSong (sid : nat) (u : string) (st : server)
  : server * list emission :=
  match guard sid st with
  | None => (st, [])
  | Some (roomId, js_array queue) =>
      let songIndex := Js.findIndex (has_uuid u) queue in
      if (1 <? songIndex)%Z then
        let '(queue1, removed) := Js.splice (Z.to_nat songIndex) 1 [] queue in
        let queue2 := (Js.splice 1 0 (take 1 removed) queue1).1 in
        (saveRooms (set_rooms (insert roomId queue2) st),
         [(to_room roomId, queueUpdated queue2)])
      else (st, [])
  | Some (roomId, js_inherited name) => (throw st, [])
  end.

(** The test of the reorder handler:
    [queue.length > 0 && newQueue.length > 0 && queue[0].uuid === newQueue[0].uuid]. *)
Definition reorder_guard (queue newQueue : list QueueItem) : bool :=
  (0 <? length queue) && (0 <? length newQueue) &&
  match queue !! 0, newQueue !! 0 with
  | Some a, Some b => String.eqb (uuid a) (uuid b)
  | _, _ => false
  end.

(** [socket.on('reorderQueue', newQueue => ...)].  On an inherited value
    with a positive [length], [queue[0]] is [undefined] and reading its
    [uuid] throws, once [newQueue] is seen not to be empty. *)
Definition reorderQueue (sid : nat) (newQueue : list QueueItem) (st : server)
  : server * list emission :=
  match guard sid st with
  | None => (st, [])
  | Some (roomId, js_array queue) =>
      if reorder_guard queue newQueue then
        (saveRooms (set_rooms (insert roomId newQueue) st),
         [(to_room roomId, queueUpdated newQueue)])
      else (st, [])
  | Some (roomId, js_inherited name) =>
      if inherited_length_positive name && (0 <? length newQueue)
      then (throw st, [])
      else (st, [])
  end.

(** [socket.on('volumeChange', volume => ...)]: only [roomId] is tested. *)
Definition volumeChanged (sid : nat) (volume : Z) (st : server)
  : server * list emission :=
  match data_roomId st !! sid with
  | Some roomId =>
      if Js.truthy roomId then (st, [(to_room roomId, volumeChange volume)])
      else (st, [])
  | None => (st, [])
  end.

(** [socket.on('removeSong', uuid => ...)].  An inherited value has no
    [filter]: the call throws. *)
Definition removeSong (sid : nat) (u : string) (st : server)
  : server * list emission :=
  match guard sid st with
  | None => (st, [])
  | Some (roomId, js_array queue) =>
      let queue' := Js.filter (λ s, negb (has_uuid u s)) queue in
      (saveRooms (set_rooms (insert roomId queue') st),
       [(to_room roomId, queueUpdated queue')])
  | Some (roomId, js_inherited name) => (throw st, [])
  end.

(** [socket.on('songEnded', () => ...)].  An inherited value has no
    [shift]: the call throws when its [length] is positive. *)
Definition songEnded (sid : nat) (st : server) : server * list emission :=
  match guard sid st with
  | None => (st, [])
  | Some (roomId, js_array queue) =>
      if 0 <? length queue then
        let queue' := Js.shift queue in
        (saveRooms (set_rooms (insert roomId queue') st),
         [(to_room roomId, queueUpdated queue')])
      else (st, [])
  | Some (roomId, js_inherited name) =>
      if inherited_length_positive name then (throw st, []) else (st, [])
  end.

(** [socket.on('skipSong', () => ...)] *)
Definition skipSong (sid : nat) (st : server) : server * list emission :=
  match guard sid st with
  | None => (st, [])
  | Some (roomId, js_array queue) =>
      if 0 <? length queue then
        let queue' := Js.shift queue in
        (saveRooms (set_rooms (insert roomId queue') st),
         [(to_room roomId, queueUpdated queue')])
      else (st, [])
  | Some (roomId, js_inherited name) =>
      if inherited_length_positive name then (throw st, []) else (st, [])
  end.

(** The messages a connection can send, and the event loop: one handler
    runs to completion before the next message is taken.  [run] applies the
    handlers to the messages in turn; once [threw] is set it tells what the
    handlers do, not what a process that has ended on the error serves. *)
Inductive message :=
  | JoinRoom (roomId : string)
  | AddSong (s : Song) (fresh : string)
  | PinSong (u : string)
  | ReorderQueue (newQueue : list QueueItem)
  | VolumeChange (volume : Z)
  | RemoveSong (u : string)
  | SongEnded
  | SkipSong.

Definition handle (sid : nat) (m : message) (st : server)
  : server * list emission :=
  match m with
  | JoinRoom roomId => joinRoom sid roomId st
  | AddSong s fresh => addSong sid s fresh st
  | PinSong u => pinSong sid u st
  | ReorderQueue newQueue => reorderQueue sid newQueue st
  | VolumeChange volume => volumeChanged sid volume st
  | RemoveSong u => removeSong sid u st
  | SongEnded => songEnded sid st
  | SkipSong => skipSong sid st
  end.

Fixpoint run (ms : list (nat * message)) (st : server)
  : server * list emission :=
  match ms with
  | [] => (st, [])
  | (sid, m) :: rest =>
      let '(st1, out1) := handle sid m st in
      let '(st2, out2) := run rest st1 in
      (st2, out1 ++ out2)
  end.

(** The queue operations other than advance. *)
Inductive tail_op :=
  | op_pin (u : string)
  | op_reorder (newQueue : list QueueItem)
  | op_remove (u : string).

Definition apply_tail_op (sid : nat) (op : tail_op) (st : server)
  : server * list emission :=
  match op with
  | op_pin u => pinSong sid u st
  | op_reorder newQueue => reorderQueue sid newQueue st
  | op_remove u => removeSong sid u st
  end.

End Server.

(** ** The title-extraction proxy and its upstream calls *)
Module Ai.

(** JSON values, as far as the proxy looks into them. *)
#[warnings="-register-all"]
Inductive json :=
  | JNull
  | JNum (n : Z)
  | JStr (s : string)
  | JArr (items : list json)
  | JObj (fields : list (string * json)).

(** [j?.[k]]: the member [k] of an object, nothing for any other value. *)
Definition member (k : string) (j : json) : option json :=
  match j with
  | JObj fields => snd <$> List.find (λ kv, String.eqb kv.1 k) fields
  | _ => None
  end.

(** The request body sent upstream: an object, keyed by parameter name. *)
Abbreviation payload := (gmap string json).

(** What [callAi] resolves to: [{ status, text }]. *)
Record response := {
  status : Z;
  text : string;
}.

(** The mutable world of one server process: the capability cache
    [AI_UNSUPPORTED_PARAMS] and the log of the bodies posted upstream. *)
Record world := {
  AI_UNSUPPORTED_PARAMS : gset string;
  posted : list payload;
}.

(** Handlers run in a state monad over [world]. *)
Definition M (A : Type) : Type := world → A * world.

Global Instance M_ret : MRet M := λ A x w, (x, w).
Global Instance M_bind : MBind M :=
  λ A B f m w, let '(a, w1) := m w in f a w1.

(** [AI_UNSUPPORTED_PARAMS.add(paramName)] *)
Definition remember (paramName : string) : M unit :=
  λ w, (tt, {| AI_UNSUPPORTED_PARAMS := {[ paramName ]} ∪ AI_UNSUPPORTED_PARAMS w;
               posted := posted w |}).

Section proxy.
(** [JSON.parse], with [None] where it throws. *)
Variable JSON_parse : string → option json.

(** The provider: its answer to the [n]-th request of the process (counted
    from 0) carrying the given body. *)
Variable upstream : nat → payload → response.

(** [callAi(payload)] / [callApiplus({ apiKey, payload })]: one POST. *)
Definition callAi (p : payload) : M response :=
  λ w, (upstream (length (posted w)) p,
        {| AI_UNSUPPORTED_PARAMS := AI_UNSUPPORTED_PARAMS w;
           posted := posted w ++ [p] |}).

(** [getUnknownParamName(text)]: [error.param] of the parsed body when it
    is a string, the empty string otherwise. *)
Definition getUnknownParamName (t : string) : string :=
  match JSON_parse t with
  | Some j =>
      match member "error" j ≫= member "param" with
      | Some (JStr param) => param
      | _ => ""
      end
  | None => ""
  end.

(** [stripParam(payload, paramName)] *)
Definition stripParam (p : payload) (paramName : string) : payload :=
  if Js.truthy paramName then delete paramName p else p.

Definition is_2xx (out : response) : bool :=
  (200 <=? status out)%Z && (status out <? 300)%Z.

(** The body of [for (let attempt = 0; attempt < 2; attempt++)] followed by
    the statements after the loop; [attempts] counts the iterations left. *)
Fixpoint retry_loop (attempts : nat) (p : payload) : M (response * payload) :=
  match attempts with
  | S attempts' =>
      out ← callAi p;
      if is_2xx out then mret (out, p)
      else if ((status out =? 400)%Z) &&
              Js.truthy (getUnknownParamName (text out)) then
        let unknown := getUnknownParamName (text out) in
        _ ← remember unknown;
        retry_loop attempts' (stripParam p unknown)
      else mret (out, p)
  | 0 =>
      out ← callAi p;
      mret (out, p)
  end.

(** [callAiOnceWithOptionalRetry(initialPayload)] of the Express server:
    the result [{ ...out, payloadUsed }]. *)
Definition callAiOnceWithOptionalRetry (initialPayload : payload)
  : M (response * payload) :=
  retry_loop 2 initialPayload.

(** The status the Express route answers with when the upstream result is
    not a success; [None] when it goes on to parse the text. *)
Definition surfaced_failure (out : response) : option Z :=
  if is_2xx out then None
  else if (status out =? 429)%Z then Some 429%Z
  else Some 502%Z.

(** The upstream part of [exports.handler] of the Netlify function. *)
Definition netlify_call (p : payload) : M (response * payload) :=
  out ← callAi p;
  if ((status out =? 400)%Z) && Js.truthy (getUnknownParamName (text out)) then
    let unknown := getUnknownParamName (text out) in
    let p' := stripParam p unknown in
    out' ← callAi p';
    mret (out', p')
  else mret (out, p).

(** [buildPayload({ withResponseFormat })] of the Express server: the
    parameters sent depend on the capability cache.  [model], [messages]
    and the configured [maxTokens] come from the request and the
    environment. *)
Definition buildPayload (model messages : json) (maxTokens : option Z)
    (withResponseFormat : bool) (unsupp : gset string) : payload :=
  let p0 : payload :=
    {[ "model" := model; "messages" := messages;
       "reasoning" := JObj [("effort", JStr "low")];
       "temperature" := JNum 0; "top_p" := JNum 1;
       "presence_penalty" := JNum 0; "frequency_penalty" := JNum 0 ]} in
  let p1 := match maxTokens with
            | Some n => if bool_decide ("max_tokens" ∈ unsupp) then p0
                        else <["max_tokens" := JNum n]> p0
            | None => p0
            end in
  let p2 := match maxTokens with
            | Some n => if bool_decide ("max_completion_tokens" ∈ unsupp) then p1
                        else <["max_completion_tokens" := JNum n]> p1
            | None => p1
            end in
  let p3 := if withResponseFormat && negb (bool_decide ("response_format" ∈ unsupp))
            then <["response_format" := JObj [("type", JStr "json_object")]]> p2
            else p2 in
  let p4 := if bool_decide ("reasoning" ∈ unsupp) then delete "reasoning" p3 else p3 in
  let p5 := if bool_decide ("max_tokens" ∈ unsupp) then delete "max_tokens" p4 else p4 in
  if bool_decide ("max_completion_tokens" ∈ unsupp)
  then delete "max_completion_tokens" p5 else p5.
End proxy.

End Ai.

(** ** JavaScript numbers *)
Module Double.

(** A finite JavaScript number is an IEEE 754 binary64 number, held here as
    the rational it is.  [round] gives the result of an arithmetic
    operation from its exact value: the nearest number with 53 significant
    bits and a unit in the last place of at least [2^-1074], a tie going to
    the even significand.  The sums met here add 1 or one half to a finite
    number, which never reaches the overflow threshold. *)

(** The nearest integer, a tie going to the even one. *)
Definition round_half_even (q : Q) : Z :=
  let f := Qfloor q in
  match Qcompare (q - inject_Z f)%Q (1 # 2)%Q with
  | Lt => f
  | Gt => (f + 1)%Z
  | Eq => if Z.even f then f else (f + 1)%Z
  end.

(** The integer [e] with [2^e <= a < 2^(e+1)], for [a > 0]. *)
Definition ilog2 (a : Q) : Z :=
  if Qle_bool 1%Q a then Z.log2 (Qfloor a)
  else
    let k := Z.log2 (Qfloor (/ a)%Q) in
    if Qeq_bool (/ a)%Q (inject_Z (2 ^ k)%Z) then (- k)%Z else (- k - 1)%Z.

Definition round (x : Q) : Q :=
  match Qcompare x 0%Q with
  | Eq => 0%Q
  | c =>
      let a := Qabs x in
      let ulp := Qpower 2%Q (Z.max (ilog2 a - 52) (-1074)) in
      let r := (inject_Z (round_half_even (a / ulp)) * ulp)%Q in
      match c with
      | Lt => (- r)%Q
      | _ => r
      end
  end.

End Double.

(** ** The Firestore client *)
Module Firestore.

(** A search result handed to [addToQueue]. *)
Record Video := {
  id : string;
  title : string;
  thumbnail : string;
  duration : string;
  author : string;
}.

(** The fields of a queue document.  [order] is a finite JavaScript
    number, held as the rational it is.  [None] stands for a null [order],
    which the [??] fallbacks of [addToQueue] provide for. *)
Record QueueDoc := {
  video : Video;
  createdAt : Z;
  order : option Qc;
}.

(** The sub-collection [rooms/{roomId}/queue]: document id to fields. *)
Abbreviation collection := (gmap string QueueDoc).

(** A document of a query snapshot: [d.id] and [d.data()]. *)
Abbreviation snapshot_doc := (string * QueueDoc)%type.

Definition with_order (o : option Qc) (d : QueueDoc) : QueueDoc :=
  {| video := video d; createdAt := createdAt d; order := o |}.

(** The number [n] as a field value. *)
Definition num (n : Z) : Qc := Q2Qc (inject_Z n).

(** Firestore's ascending order on the values of [order]: null sorts before
    every number. *)
Definition order_cmp (a b : option Qc) : comparison :=
  match a, b with
  | None, None => Eq
  | None, Some _ => Lt
  | Some _, None => Gt
  | Some x, Some y => Qccompare x y
  end.

(** [orderBy('order', 'asc')]: by [order], then by document id. *)
Definition doc_leb (a b : snapshot_doc) : bool :=
  match order_cmp (order a.2) (order b.2) with
  | Lt => true
  | Gt => false
  | Eq => String.leb a.1 b.1
  end.

Definition doc_le (a b : snapshot_doc) : Prop := doc_leb a b = true.

Global Instance doc_le_dec a b : Decision (doc_le a b).
Proof. unfold doc_le. apply _. Defined.

(** [(await getDocs(fsQuery(queueColRef, orderBy('order', 'asc')))).docs] *)
Definition query (col : collection) : list snapshot_doc :=
  merge_sort doc_le (map_to_list col).

(** A write batch holds [batch.update(ref, { order: idx })] calls, and
    [batch.commit()] applies all of them in one step.  Every reference comes
    from a snapshot of the same collection; [alter] leaves a collection
    without that document as it is. *)
Inductive write :=
  | update_order (ref : string) (idx : nat).

Definition apply_write (col : collection) (w : write) : collection :=
  match w with
  | update_order ref idx => alter (with_order (Some (num (Z.of_nat idx)))) ref col
  end.

Definition commit (batch : list write) (col : collection) : collection :=
  foldl apply_write col batch.

(** The batch that numbers the documents of a snapshot from [k] on. *)
Definition renumber_batch (k : nat) (docs : list snapshot_doc) : list write :=
  imap (λ idx d, update_order d.1 (k + idx)) docs.

(** [normalizeQueue()]: the batch numbers the snapshot from 0. *)
Definition normalizeQueue (col : collection) : collection :=
  let docs := query col in
  if length docs =? 0 then col
  else commit (renumber_batch 0 docs) col.

(** [a ?? b] on the field [order]. *)
Definition order_or (d : QueueDoc) (fallback : Qc) : Qc :=
  match order d with
  | Some o => o
  | None => fallback
  end.

(** [x + y] on JavaScript numbers: the exact sum, rounded. *)
Definition add (x y : Qc) : Qc := Q2Qc (Double.round (x + y)%Qc).

(** The [order] that [addToQueue] computes for the new document.  The
    number of documents is an array length, which is exact. *)
Definition new_order (isTop : bool) (items : list snapshot_doc) : Qc :=
  let lastOrder :=
    match last items with
    | None => num (-1)
    | Some d => order_or d.2 (num (Z.of_nat (length items) - 1))
    end in
  match isTop && (0 <? length items), items !! 0 with
  | true, Some d => add (order_or d.2 (num 0)) (Q2Qc (1 # 2))
  | _, _ => add lastOrder (num 1)
  end.

(** [addToQueue(video, isTop)]; [newId] is the id of [doc(queueColRef)] and
    [now] the server timestamp. *)
Definition addToQueue (v : Video) (isTop : bool) (newId : string) (now : Z)
    (col : collection) : collection :=
  let items := query col in
  let col1 := <[newId := {| video := v; createdAt := now;
                            order := Some (new_order isTop items) |}]> col in
  if isTop then normalizeQueue col1 else col1.

(** [deleteDoc(doc(queueColRef, uuid))] *)
Definition deleteDoc (ref : string) (col : collection) : collection :=
  delete ref col.

(** [advanceSong()]: the query with [limit(1)] holds the first document of
    the ordered collection, if any. *)
Definition advanceSong (col : collection) : collection :=
  let firstSnap := take 1 (query col) in
  let col1 := match firstSnap !! 0 with
              | Some d => deleteDoc d.1 col
              | None => col
              end in
  normalizeQueue col1.

(** The snapshot with its documents renumbered [k], [k+1], ... *)
Definition renumber_from (k : nat) (docs : list snapshot_doc)
  : list snapshot_doc :=
  imap (λ idx d, (d.1, with_order (Some (num (Z.of_nat (k + idx)))) d.2)) docs.

Definition renumber (docs : list snapshot_doc) : list snapshot_doc :=
  renumber_from 0 docs.

(** The shape of the keys the client writes: integers, strictly increasing
    along the query. *)
Definition int_key (d : snapshot_doc) : Prop :=
  ∃ z : Z, order d.2 = Some (num z).

Definition key_lt (a b : snapshot_doc) : Prop :=
  order_cmp (order a.2) (order b.2) = Lt.

Definition integer_keys (docs : list snapshot_doc) : Prop :=
  Forall int_key docs ∧ StronglySorted key_lt docs.

(** Integer keys that are natural numbers up to [b], on at most [b + 1]
    documents.  Below [2^52] the sums of [addToQueue] on such keys are
    exact. *)
Definition keys_upto (b : Z) (docs : list snapshot_doc) : Prop :=
  integer_keys docs ∧
  Forall (λ d, ∃ z : Z, order d.2 = Some (num z) ∧ (0 ≤ z ≤ b)%Z) docs ∧
  (Z.of_nat (length docs) ≤ b + 1)%Z.

End Firestore.

(** ** Sample data: a queue of the Firestore client *)
Module FirestoreSamples.
Import Firestore.

Definition a_video (name : string) : Video :=
  {| id := name; title := name; thumbnail := ""; duration := "3:00"; author := "" |}.

(** Three songs appended to an empty queue: keys 0, 1, 2. *)
Definition three_appended : collection :=
  addToQueue (a_video "C") false "doc3" 3
    (addToQueue (a_video "B") false "doc2" 2
       (addToQueue (a_video "A") false "doc1" 1 ∅)).

(** The same queue after the second song was deleted: keys 0, 2. *)
Definition gapped : collection := deleteDoc "doc2" three_appended.

(** Keys 0, 1/2 and 1: the queue a top insertion leaves when the
    renumbering that follows it does not go through. *)
Definition half_left : collection :=
  {[ "a" := {| video := a_video "A"; createdAt := 1; order := Some (num 0) |};
     "b" := {| video := a_video "B"; createdAt := 2; order := Some (Q2Qc (1 # 2)) |};
     "c" := {| video := a_video "C"; createdAt := 3; order := Some (num 1) |} ]}.

End FirestoreSamples.

(** ** Sample data: the entries and rooms of the examples *)
Module Samples.
Import Server.

Definition a_song (name : string) (top : bool) : Song :=
  {| id := name; title := name; thumbnail := ""; duration := "3:00";
     author := ""; isTop := top |}.

Definition entry (name : string) (top : bool) : QueueItem :=
  {| song := a_song name top; uuid := name |}.

Definition A : QueueItem := entry "A" false.
Definition B : QueueItem := entry "B" true.
Definition C : QueueItem := entry "C" false.
Definition D : QueueItem := entry "D" false.
Definition X : QueueItem := entry "X" false.

(** A process with the one room ["room1"] holding [queue], joined by the
    connections 1 and 2. *)
Definition room_state (queue : list QueueItem) : server :=
  {| rooms := {[ "room1" := queue ]};
     disk := {[ "room1" := queue ]};
     data_roomId := {[ 1 := "room1"; 2 := "room1" ]};
     joined := {[ (1, "room1"); (2, "room1") ]};
     writes := 0; writeFileSync_throws := λ _, false; threw := false |}.

(** A process that no connection has reached yet. *)
Definition fresh_state : server :=
  {| rooms := ∅; disk := ∅; data_roomId := ∅; joined := ∅;
     writes := 0; writeFileSync_throws := λ _, false; threw := false |}.

End Samples.

(** ** Sample data: a provider that rejects two parameters *)
Module AiSamples.
Import Ai.

(** The provider of the examples refuses [reasoning], then
    [response_format], each with status 400 and an error naming the
    parameter, and answers 200 once neither is sent.  Its error bodies are
    written ["param:NAME"] for the JSON text whose [error.param] is [NAME];
    [sample_parse] reads them as [JSON.parse] reads that text. *)
Definition sample_parse (t : string) : option json :=
  if String.prefix "param:" t
  then Some (JObj [("error", JObj [("param", JStr (String.substring 6 (String.length t - 6) t))])])
  else None.

Definition picky_provider (n : nat) (p : payload) : response :=
  if bool_decide (is_Some (p !! "reasoning"))
  then {| status := 400; text := "param:reasoning" |}
  else if bool_decide (is_Some (p !! "response_format"))
  then {| status := 400; text := "param:response_format" |}
  else {| status := 200; text := "ok" |}.

(** The body the Express route builds when nothing has been learnt yet. *)
Definition initial_payload : payload :=
  buildPayload (JStr "gpt-5-nano-2025-08-07") (JArr []) None true ∅.

Definition idle_world : world :=
  {| AI_UNSUPPORTED_PARAMS := ∅; posted := [] |}.

End AiSamples.


(** ** The shape of a handler's outcome, and the states the server keeps *)
Module ServerShape.
Import Server.

(** What a handler other than [joinRoom] can do: nothing, or commit a new
    queue for the sender's room (saved, then broadcast to the room), or pass
    a volume on to the sender's room, or throw where the sender is bound to
    a name that [rooms] only inherits. *)
Inductive effect (sid : nat) (st : server) : server * list emission → Prop :=
  | effect_none : effect sid st (st, [])
  | effect_commit roomId queue queue' :
      current_queue sid st = Some (roomId, queue) →
      effect sid st (saveRooms (set_rooms (insert roomId queue') st),
                     [(to_room roomId, queueUpdated queue')])
  | effect_volume roomId volume :
      data_roomId st !! sid = Some roomId → roomId ≠ "" →
      effect sid st (st, [(to_room roomId, volumeChange volume)])
  | effect_throw roomId :
      guard sid st = Some (roomId, js_inherited roomId) →
      effect sid st (throw st, []).

(** The room a message is about: the room named by a join, the room the
    connection is bound to for every other message. *)
Definition addressed_room (sid : nat) (m : message) (st : server) : option string :=
  match m with
  | JoinRoom roomId => Some roomId
  | _ => data_roomId st !! sid
  end.

(** For every connection that is bound, [rooms[roomId]] is defined. *)
Definition rooms_exist (st : server) : Prop :=
  ∀ sid roomId, data_roomId st !! sid = Some roomId →
                is_Some (get (rooms st) roomId).

(** From the call number [writes st] on, no [writeFileSync] throws. *)
Definition writes_succeed (st : server) : Prop :=
  ∀ n, writes st ≤ n → writeFileSync_throws st n = false.

(** No queue holds two entries with the same [uuid]. *)
Definition unique_ids (st : server) : Prop :=
  ∀ roomId queue, rooms st !! roomId = Some queue → NoDup (uuid <$> queue).

(** The messages with which a run keeps the ids unique: no reorder, and
    every [addSong] with a [uuid] that the sender's queue does not hold. *)
Definition keeps_ids (sid : nat) (m : message) (st : server) : Prop :=
  match m with
  | ReorderQueue _ => False
  | AddSong _ fresh =>
      ∀ roomId queue, current_queue sid st = Some (roomId, queue) →
                      fresh ∉ uuid <$> queue
  | _ => True
  end.

End ServerShape.

(** ** The drag handler of the Socket.io clients *)
Module SocketClient.
Import Server.

Section drag.
(** [arrayMove] of the drag-and-drop library. *)
Variable arrayMove : list QueueItem → Z → Z → list QueueItem.

(** [handleDragEnd(event)] of [App.jsx] and [Remote.jsx], on the client's
    copy [queue] of the room's queue, with [active.id] and [over.id]: the
    proposal it emits as [reorderQueue], if any. *)
Definition handleDragEnd (queue : list QueueItem) (active over : string)
  : option (list QueueItem) :=
  if negb (String.eqb active over) then
    let oldIndex := Js.findIndex (has_uuid active) queue in
    let newIndex := Js.findIndex (has_uuid over) queue in
    if (oldIndex =? 0)%Z || (newIndex =? 0)%Z then None
    else Some (arrayMove queue oldIndex newIndex)
  else None.
End drag.

End SocketClient.

(** ** Sample data: a drag-and-drop move *)
Module SocketSamples.
Import Server.

(** A move of the element at index [from] to index [to], for indices that
    are not negative: the element is taken out, then put in. *)
Definition sample_arrayMove (l : list QueueItem) (from to : Z) : list QueueItem :=
  let '(l1, removed) := Js.splice (Z.to_nat from) 1 [] l in
  (Js.splice (Z.to_nat to) 0 (take 1 removed) l1).1.

End SocketSamples.


(** ** The queue buttons and the drag handler of the Firestore client *)
Module FirestoreUi.
Import Firestore.

Definition write_ref (w : write) : string :=
  match w with
  | update_order ref _ => ref
  end.

(** [await batch.commit()] for a batch whose references need not exist:
    an update of a document that does not exist fails, and then the whole
    batch writes nothing. *)
Definition commit_existing (batch : list write) (col : collection) : collection :=
  if bool_decide (Forall (λ w, is_Some (col !! write_ref w)) batch)
  then commit batch col
  else col.

(** The items [{ id: d.id, ...d.data() }] of the "Top" button: the field
    [id] of the document data, the video id, overrides the document id. *)
Definition spread_items (docs : list snapshot_doc) : list snapshot_doc :=
  (λ d, (id (video d.2), d.2)) <$> docs.

(** The click handler of the "Top" button of the queue entry [clicked]
    ([song.uuid], a document id). *)
Definition pinToTop (clicked : string) (col : collection) : collection :=
  let docs := spread_items (query col) in
  if length docs <? 2 then col
  else
    match docs with
    | playing :: rest =>
        let idx := Js.findIndex (λ d, String.eqb d.1 clicked) rest in
        if (idx <? 0)%Z then col
        else
          let '(rest1, removed) := Js.splice (Z.to_nat idx) 1 [] rest in
          let normalized := playing :: take 1 removed ++ rest1 in
          commit_existing (renumber_batch 0 normalized) col
    | [] => col
    end.

Section drag.
(** [arrayMove] of the drag-and-drop library. *)
Variable arrayMove : list snapshot_doc → Z → Z → list snapshot_doc.

(** [handleDragEnd(event)] of [Room.jsx] on the client's copy [queue] of
    the last snapshot, with [active.id] and [over.id]. *)
Definition handleDragEnd (queue : list snapshot_doc) (active over : string)
    (col : collection) : collection :=
  if negb (String.eqb active over) then
    let oldIndex := Js.findIndex (λ item, String.eqb item.1 active) queue in
    let newIndex := Js.findIndex (λ item, String.eqb item.1 over) queue in
    if (oldIndex =? 0)%Z || (newIndex =? 0)%Z then col
    else commit_existing (renumber_batch 0 (arrayMove queue oldIndex newIndex)) col
  else col.
End drag.

(** What the client does to the queue collection, and a run of it.  The id
    of an added document is the one [doc(queueColRef)] draws. *)
Inductive client_op :=
  | op_add (v : Video) (isTop : bool) (newId : string) (now : Z)
  | op_delete (ref : string)
  | op_advance
  | op_normalize.

Definition apply_op (col : collection) (op : client_op) : collection :=
  match op with
  | op_add v isTop newId now => addToQueue v isTop newId now col
  | op_delete ref => deleteDoc ref col
  | op_advance => advanceSong col
  | op_normalize => normalizeQueue col
  end.

Definition run_ops (ops : list client_op) (col : collection) : collection :=
  foldl apply_op col ops.

(** Every added document gets an id that is not in use. *)
Fixpoint ids_fresh (ops : list client_op) (col : collection) : Prop :=
  match ops with
  | [] => True
  | op :: rest =>
      match op with
      | op_add _ _ newId _ => col !! newId = None
      | _ => True
      end ∧ ids_fresh rest (apply_op col op)
  end.

End FirestoreUi.

(** ** Sample data: a drag-and-drop move of documents *)
Module FirestoreUiSamples.
Import Firestore.

Definition sample_arrayMove (l : list snapshot_doc) (from to : Z) : list snapshot_doc :=
  let '(l1, removed) := Js.splice (Z.to_nat from) 1 [] l in
  (Js.splice (Z.to_nat to) 0 (take 1 removed) l1).1.

End FirestoreUiSamples.

(** ** The Socket.io client and the Firestore client side by side *)
Module Correspondence.
Import FirestoreUi.

(** [{ ...video, isTop }], what [addToQueue] of [App.jsx] sends. *)
Definition as_song (v : Firestore.Video) (isTop : bool) : Server.Song :=
  {| Server.id := Firestore.id v; Server.title := Firestore.title v;
     Server.thumbnail := Firestore.thumbnail v;
     Server.duration := Firestore.duration v;
     Server.author := Firestore.author v; Server.isTop := isTop |}.

(** The message the Socket.io client emits where the Firestore client
    writes: [addSong] for an add, [removeSong] for the delete button,
    [songEnded] for an advance; it has no renumbering. *)
Definition as_message (op : client_op) : option Server.message :=
  match op with
  | op_add v isTop newId _ => Some (Server.AddSong (as_song v isTop) newId)
  | op_delete ref => Some (Server.RemoveSong ref)
  | op_advance => Some Server.SongEnded
  | op_normalize => None
  end.

Definition as_messages (sid : nat) (ops : list client_op)
  : list (nat * Server.message) :=
  omap (λ op, (λ m, (sid, m)) <$> as_message op) ops.

(** The entries of a queue, each with its id and the id of its video. *)
Definition server_entries (queue : list Server.QueueItem) : list (string * string) :=
  (λ q, (Server.uuid q, Server.id (Server.song q))) <$> queue.

Definition firestore_entries (docs : list Firestore.snapshot_doc)
  : list (string * string) :=
  (λ d, (d.1, Firestore.id (Firestore.video d.2))) <$> docs.

End Correspondence.

(** ** The parameter names the capability cache is consulted for *)
Module AiShape.

(** The four parameter names [buildPayload] looks up in the cache. *)
Definition heeded : list string :=
  ["reasoning"; "max_tokens"; "max_completion_tokens"; "response_format"].

End AiShape.

(** ** Strings of the prompt and of the lyrics search *)
Module Text.

(** A JavaScript string: its UTF-16 code units. *)
Definition js_string : Type := list N.

(** The code units [String.prototype.trim] removes: white space and line
    terminators. *)
Definition is_white_space (c : N) : bool :=
  bool_decide (c ∈ [9; 10; 11; 12; 13; 32; 160; 5760; 8232; 8233; 8239; 8287;
                    12288; 65279]%N)
  || ((8192 <=? c)%N && (c <=? 8202)%N).

Fixpoint trimStart (s : js_string) : js_string :=
  match s with
  | c :: rest => if is_white_space c then trimStart rest else s
  | [] => []
  end.

Definition trimEnd (s : js_string) : js_string :=
  reverse (trimStart (reverse s)).

(** [s.trim()] *)
Definition trim (s : js_string) : js_string := trimEnd (trimStart s).

(** [clipText(s, maxLen)]; [s] is [None] when it is not a string. *)
Definition clipText (s : option js_string) (maxLen : nat) : js_string :=
  let t := default [] s in
  match t with
  | [] => []
  | _ =>
      let trimmed := trim t in
      if length trimmed <=? maxLen then trimmed else take maxLen trimmed
  end.

(** A record of the lyrics search, as far as [pickBestLrclibRecord] reads
    it; a field is [None] when it is not a string. *)
Record LrclibRecord := {
  record_id : Z;
  syncedLyrics : option js_string;
  plainLyrics : option js_string;
}.

(** [typeof x === 'string' && x.trim()], as a condition. *)
Definition usable (x : option js_string) : bool :=
  match x with
  | Some s => match trim s with [] => false | _ => true end
  | None => false
  end.

(** [pickBestLrclibRecord(list)] on an array. *)
Definition pickBestLrclibRecord (list : list LrclibRecord) : option LrclibRecord :=
  match list with
  | [] => None
  | _ =>
      match List.find (λ it, usable (syncedLyrics it)) list with
      | Some withSynced => Some withSynced
      | None => List.find (λ it, usable (plainLyrics it)) list
      end
  end.

End Text.

(** * Facts about the array methods *)
Module JsFacts.
Import Js.

Section arrays.
Context {A : Type}.
Implicit Types (p : A → bool) (arr pre post : list A).

Lemma findIndex_from_absent p k arr :
  Forall (λ y, p y = false) arr → findIndex_from p k arr = (-1)%Z.
Proof.
  intros Hall. revert k.
  induction Hall as [|y arr Hy _ IH]; intros k; simpl; [done|].
  by rewrite Hy, IH.
Qed.

Lemma findIndex_from_first p k pre x post :
  Forall (λ y, p y = false) pre → p x = true →
  findIndex_from p k (pre ++ x :: post) = Z.of_nat (k + length pre).
Proof.
  intros Hpre Hx. revert k.
  induction Hpre as [|y pre Hy _ IH]; intros k; simpl.
  - rewrite Hx. f_equal. lia.
  - rewrite Hy, IH. f_equal. lia.
Qed.

(** Either no element satisfies [p], or the array splits at the first one
    that does. *)
Lemma first_match_split p arr :
  Forall (λ y, p y = false) arr ∨
  ∃ pre x post, arr = pre ++ x :: post ∧
                Forall (λ y, p y = false) pre ∧ p x = true.
Proof.
  induction arr as [|y arr IH]; [by left|].
  destruct (p y) eqn:Hy.
  - right. by exists [], y, arr.
  - destruct IH as [Hall|(pre & x & post & -> & Hpre & Hx)].
    + left. by constructor.
    + right. exists (y :: pre), x, post. repeat split; [|done]. by constructor.
Qed.

Lemma findIndex_absent p arr :
  Forall (λ y, p y = false) arr → findIndex p arr = (-1)%Z.
Proof. apply findIndex_from_absent. Qed.

Lemma findIndex_first p pre x post :
  Forall (λ y, p y = false) pre → p x = true →
  findIndex p (pre ++ x :: post) = Z.of_nat (length pre).
Proof. intros. unfold findIndex. by rewrite findIndex_from_first. Qed.

(** Removing the element at index [length pre] and putting it back at
    index 1, for an element that sits at index 2 or later. *)
Lemma splice_move_to_second h pre x post :
  let '(arr1, removed) := splice (S (length pre)) 1 [] (h :: pre ++ x :: post) in
  (splice 1 0 (take 1 removed) arr1).1 = h :: x :: pre ++ post.
Proof.
  unfold splice. simpl.
  rewrite take_app_length, drop_app_length. simpl.
  rewrite drop_0. do 3 f_equal.
  rewrite (drop_app_ge pre) by lia.
  replace (length pre + 1 - length pre) with 1 by lia. done.
Qed.
End arrays.

Lemma truthy_nonempty s : truthy s = true ↔ s ≠ "".
Proof.
  unfold truthy. destruct (String.eqb_spec s ""); simpl; split; try done.
Qed.

End JsFacts.

(** * Facts about the socket handlers *)
Module ServerFacts.
Import Js JsFacts Server.

Implicit Types (sid : nat) (st : server) (roomId u : string)
  (queue newQueue rest pre post : list QueueItem) (h x : QueueItem).

Lemma rooms_committed roomId queue st :
  rooms (saveRooms (set_rooms (insert roomId queue) st)) = <[roomId := queue]> (rooms st).
Proof. done. Qed.

(** [rooms[roomId]] is an array exactly when [roomId] is an own property;
    otherwise it is inherited or undefined. *)
Lemma get_array obj key queue : get obj key = Some (js_array queue) ↔ obj !! key = Some queue.
Proof.
  unfold get. destruct (obj !! key) as [q|]; [split; by intros [= ->]|].
  by case_bool_decide.
Qed.

Lemma get_inherited obj key name :
  get obj key = Some (js_inherited name) ↔
  obj !! key = None ∧ key ∈ Object_prototype.*1 ∧ name = key.
Proof.
  unfold get. destruct (obj !! key) as [q|]; [split; [done|by intros [? _]]|].
  case_bool_decide as Hin; split.
  - by intros [= <-].
  - by intros (_ & _ & ->).
  - done.
  - by intros (_ & ? & _).
Qed.

Lemma get_undefined obj key :
  get obj key = None ↔ obj !! key = None ∧ key ∉ Object_prototype.*1.
Proof.
  unfold get. destruct (obj !! key) as [q|]; [split; [done|by intros [? _]]|].
  case_bool_decide as Hin; split; try done. by intros [_ ?].
Qed.

Lemma empty_not_inherited : "" ∉ Object_prototype.*1.
Proof. apply (bool_decide_unpack _). by vm_compute. Qed.

(** The guard lets a handler go on with an array exactly for an own room. *)
Lemma guard_array sid st roomId queue :
  guard sid st = Some (roomId, js_array queue) ↔
  data_roomId st !! sid = Some roomId ∧ roomId ≠ "" ∧ rooms st !! roomId = Some queue.
Proof.
  unfold guard. split.
  - destruct (data_roomId st !! sid) as [r|]; [|done].
    destruct (truthy r) eqn:Hr; [|done].
    destruct (get (rooms st) r) as [v|] eqn:Hv; [|done].
    intros [= -> ->]. apply truthy_nonempty in Hr. by apply get_array in Hv.
  - intros (-> & Hr & Hq). apply truthy_nonempty in Hr. rewrite Hr.
    by rewrite (proj2 (get_array _ _ _) Hq).
Qed.

Lemma guard_inherited sid st roomId name :
  guard sid st = Some (roomId, js_inherited name) ↔
  data_roomId st !! sid = Some roomId ∧ rooms st !! roomId = None ∧
  roomId ∈ Object_prototype.*1 ∧ name = roomId.
Proof.
  unfold guard. split.
  - destruct (data_roomId st !! sid) as [r|]; [|done].
    destruct (truthy r) eqn:Hr; [|done].
    destruct (get (rooms st) r) as [v|] eqn:Hv; [|done].
    intros [= -> ->]. by apply get_inherited in Hv as (? & ? & ?).
  - intros (-> & Hnone & Hin & ->).
    assert (truthy roomId = true) as ->.
    { apply truthy_nonempty. intros ->. by apply empty_not_inherited in Hin. }
    by rewrite (proj2 (get_inherited _ _ _) (conj Hnone (conj Hin eq_refl))).
Qed.

Lemma current_queue_guard sid st roomId queue :
  current_queue sid st = Some (roomId, queue) ↔
  guard sid st = Some (roomId, js_array queue).
Proof.
  unfold current_queue. destruct (guard sid st) as [[r [q|name]]|]; split; try done.
  - by intros [= -> ->].
  - by intros [= -> ->].
Qed.

Lemma guard_of_queue sid st roomId queue :
  current_queue sid st = Some (roomId, queue) →
  guard sid st = Some (roomId, js_array queue).
Proof. apply current_queue_guard. Qed.

Lemma current_queue_Some sid st roomId queue :
  current_queue sid st = Some (roomId, queue) ↔
  data_roomId st !! sid = Some roomId ∧ roomId ≠ "" ∧ rooms st !! roomId = Some queue.
Proof. by rewrite current_queue_guard, guard_array. Qed.

(** The three ways the guard ends. *)
Lemma guard_cases sid st :
  (guard sid st = None ∧ current_queue sid st = None) ∨
  (∃ roomId queue, guard sid st = Some (roomId, js_array queue) ∧
                   current_queue sid st = Some (roomId, queue)) ∨
  (∃ roomId, guard sid st = Some (roomId, js_inherited roomId) ∧
             current_queue sid st = None ∧
             data_roomId st !! sid = Some roomId ∧ rooms st !! roomId = None ∧
             roomId ∈ Object_prototype.*1).
Proof.
  unfold current_queue. destruct (guard sid st) as [[r [q|name]]|] eqn:Hg.
  - right; left. by exists r, q.
  - right; right. apply guard_inherited in Hg as (? & ? & ? & ->). by exists r.
  - by left.
Qed.

Lemma has_uuid_true u x : has_uuid u x = true ↔ uuid x = u.
Proof. unfold has_uuid. by rewrite String.eqb_eq. Qed.

Lemma has_uuid_false u x : has_uuid u x = false ↔ uuid x ≠ u.
Proof. unfold has_uuid. by rewrite String.eqb_neq. Qed.

Lemma Forall_has_uuid_false u queue :
  Forall (λ y, uuid y ≠ u) queue → Forall (λ y, has_uuid u y = false) queue.
Proof.
  intros Hall. eapply Forall_impl; [exact Hall|].
  intros y. by rewrite has_uuid_false.
Qed.

(** The pin handler does nothing unless the first entry carrying the id has
    an index greater than 1. *)
Lemma pinSong_noop sid st roomId queue u :
  current_queue sid st = Some (roomId, queue) →
  (findIndex (has_uuid u) queue ≤ 1)%Z →
  pinSong sid u st = (st, []).
Proof.
  intros Hq Hi. unfold pinSong. rewrite (guard_of_queue _ _ _ _ Hq).
  by destruct (Z.ltb_spec 1 (findIndex (has_uuid u) queue)); [lia|].
Qed.

Lemma pinSong_move sid st roomId h s pre x post u :
  current_queue sid st = Some (roomId, h :: s :: pre ++ x :: post) →
  Forall (λ y, uuid y ≠ u) (h :: s :: pre) → uuid x = u →
  pinSong sid u st =
    (saveRooms (set_rooms (insert roomId (h :: x :: s :: pre ++ post)) st),
     [(to_room roomId, queueUpdated (h :: x :: s :: pre ++ post))]).
Proof.
  intros Hq Hpre Hx. unfold pinSong. rewrite (guard_of_queue _ _ _ _ Hq).
  pose proof (findIndex_first (has_uuid u) (h :: s :: pre) x post
    (Forall_has_uuid_false _ _ Hpre) (proj2 (has_uuid_true u x) Hx)) as Hi.
  simpl app in Hi. rewrite Hi.
  destruct (Z.ltb_spec 1 (Z.of_nat (length (h :: s :: pre)))) as [_|Hlt];
    [|simpl in Hlt; lia].
  rewrite Nat2Z.id.
  pose proof (splice_move_to_second h (s :: pre) x post) as Hsp.
  simpl length in *. simpl app in Hsp.
  destruct (splice (S (S (length pre))) 1 [] (h :: s :: pre ++ x :: post))
    as [queue1 removed].
  by rewrite Hsp.
Qed.

(** How a queue stands with respect to an id: the four cases of the pin
    handler. *)
Lemma pin_cases u queue :
  Forall (λ y, uuid y ≠ u) queue ∨
  (∃ h rest, queue = h :: rest ∧ uuid h = u) ∨
  (∃ h s rest, queue = h :: s :: rest ∧ uuid h ≠ u ∧ uuid s = u) ∨
  (∃ h s pre x post, queue = h :: s :: pre ++ x :: post ∧
     Forall (λ y, uuid y ≠ u) (h :: s :: pre) ∧ uuid x = u).
Proof.
  destruct (first_match_split (has_uuid u) queue)
    as [Hall|(pre & x & post & -> & Hpre & Hx)].
  - left. eapply Forall_impl; [exact Hall|]. intros y. by rewrite has_uuid_false.
  - right. apply has_uuid_true in Hx.
    assert (Forall (λ y, uuid y ≠ u) pre) as Hpre'.
    { eapply Forall_impl; [exact Hpre|]. intros y. by rewrite has_uuid_false. }
    destruct pre as [|h [|s pre]].
    + left. by exists x, post.
    + right; left. exists h, x, post. by inv Hpre'.
    + right; right. by exists h, s, pre, x, post.
Qed.

Lemma pinSong_absent sid st roomId queue u :
  current_queue sid st = Some (roomId, queue) →
  Forall (λ y, uuid y ≠ u) queue → pinSong sid u st = (st, []).
Proof.
  intros Hq Hall. eapply pinSong_noop; [done|].
  rewrite findIndex_absent; [lia|]. by apply Forall_has_uuid_false.
Qed.

Lemma pinSong_head sid st roomId h rest u :
  current_queue sid st = Some (roomId, h :: rest) → uuid h = u →
  pinSong sid u st = (st, []).
Proof.
  intros Hq Hh. eapply pinSong_noop; [done|].
  change (h :: rest) with ([] ++ h :: rest).
  rewrite findIndex_first; [simpl; lia|done|].
  by apply has_uuid_true.
Qed.

Lemma pinSong_second sid st roomId h s rest u :
  current_queue sid st = Some (roomId, h :: s :: rest) → uuid s = u →
  pinSong sid u st = (st, []).
Proof.
  intros Hq Hs. destruct (decide (uuid h = u)) as [Hh|Hh].
  { by eapply pinSong_head. }
  eapply pinSong_noop; [done|].
  change (h :: s :: rest) with ([h] ++ s :: rest).
  rewrite findIndex_first; [simpl; lia| |].
  - constructor; [|done]. by apply has_uuid_false.
  - by apply has_uuid_true.
Qed.

Lemma pinSong_keeps_head sid st roomId h rest u :
  current_queue sid st = Some (roomId, h :: rest) →
  ∃ rest', rooms (pinSong sid u st).1 !! roomId = Some (h :: rest').
Proof.
  intros Hq. pose proof (proj1 (current_queue_Some _ _ _ _) Hq) as (_ & _ & Hr).
  destruct (pin_cases u (h :: rest))
    as [Ha|[(h0 & r0 & [= <- <-] & Hh)|[(h0 & s & r0 & [= <- ->] & _ & Hs)
       |(h0 & s & pre & x & post & [= <- ->] & Hpre & Hx)]]].
  - erewrite pinSong_absent by done. by exists rest.
  - erewrite pinSong_head by done. by exists rest.
  - erewrite pinSong_second by done. by eexists.
  - erewrite pinSong_move by done. simpl.
    rewrite lookup_insert_eq. by eexists.
Qed.

(** The reorder test holds exactly when both sequences start with entries
    of the same id. *)
Lemma reorder_guard_true queue newQueue :
  reorder_guard queue newQueue = true ↔
  ∃ h rest h' rest', queue = h :: rest ∧ newQueue = h' :: rest' ∧ uuid h' = uuid h.
Proof.
  unfold reorder_guard. split.
  - destruct queue as [|h rest], newQueue as [|h' rest']; simpl; try done.
    intros Heq%String.eqb_eq. by exists h, rest, h', rest'.
  - intros (h & rest & h' & rest' & -> & -> & Heq). simpl.
    by apply String.eqb_eq.
Qed.

Lemma reorderQueue_accepted sid st roomId queue newQueue :
  current_queue sid st = Some (roomId, queue) →
  reorder_guard queue newQueue = true →
  reorderQueue sid newQueue st =
    (saveRooms (set_rooms (insert roomId newQueue) st),
     [(to_room roomId, queueUpdated newQueue)]).
Proof. intros Hq Hg. unfold reorderQueue. by rewrite (guard_of_queue _ _ _ _ Hq), Hg. Qed.

Lemma reorderQueue_rejected sid st roomId queue newQueue :
  current_queue sid st = Some (roomId, queue) →
  reorder_guard queue newQueue = false →
  reorderQueue sid newQueue st = (st, []).
Proof. intros Hq Hg. unfold reorderQueue. by rewrite (guard_of_queue _ _ _ _ Hq), Hg. Qed.

Lemma removeSong_outcome sid st roomId queue u :
  current_queue sid st = Some (roomId, queue) →
  removeSong sid u st =
    (saveRooms (set_rooms (insert roomId (filter (λ s, negb (has_uuid u s)) queue)) st),
     [(to_room roomId, queueUpdated (filter (λ s, negb (has_uuid u s)) queue))]).
Proof. intros Hq. unfold removeSong. by rewrite (guard_of_queue _ _ _ _ Hq). Qed.

Lemma filter_drops_uuid u queue :
  Forall (λ y, uuid y ≠ u) (filter (λ s, negb (has_uuid u s)) queue).
Proof.
  unfold filter. apply Forall_forall. intros y Hy%list_elem_of_In.
  apply filter_In in Hy as [_ Hy]. apply has_uuid_false.
  by destruct (has_uuid u y).
Qed.

(** The two advance handlers have the same body. *)
Lemma skipSong_songEnded sid st : skipSong sid st = songEnded sid st.
Proof. done. Qed.

Lemma songEnded_empty sid st roomId :
  current_queue sid st = Some (roomId, []) → songEnded sid st = (st, []).
Proof. intros Hq. unfold songEnded. by rewrite (guard_of_queue _ _ _ _ Hq). Qed.

Lemma songEnded_pop sid st roomId h rest :
  current_queue sid st = Some (roomId, h :: rest) →
  songEnded sid st =
    (saveRooms (set_rooms (insert roomId rest) st), [(to_room roomId, queueUpdated rest)]).
Proof. intros Hq. unfold songEnded. by rewrite (guard_of_queue _ _ _ _ Hq). Qed.

Lemma songEnded_no_room sid st :
  guard sid st = None → songEnded sid st = (st, []).
Proof. intros Hq. unfold songEnded. by rewrite Hq. Qed.

(** On an inherited value [songEnded] throws when the value has a positive
    [length] and does nothing otherwise. *)
Lemma songEnded_inherited sid st roomId name :
  guard sid st = Some (roomId, js_inherited name) →
  songEnded sid st =
    if inherited_length_positive name then (throw st, []) else (st, []).
Proof. intros Hq. unfold songEnded. by rewrite Hq. Qed.

Lemma joinRoom_existing sid roomId st queue :
  rooms st !! roomId = Some queue →
  joinRoom sid roomId st =
    (bind_socket sid roomId st, [(to_socket sid, queueUpdated queue)]).
Proof.
  intros Hr. unfold joinRoom. cbn [bind_socket rooms].
  by rewrite (proj2 (get_array _ _ _) Hr).
Qed.

Lemma joinRoom_new sid roomId st :
  rooms st !! roomId = None → roomId ∉ Object_prototype.*1 →
  joinRoom sid roomId st =
    (saveRooms (set_rooms (insert roomId []) (bind_socket sid roomId st)),
     [(to_socket sid, queueUpdated [])]).
Proof.
  intros Hr Hout. unfold joinRoom. cbn [bind_socket rooms].
  by rewrite (proj2 (get_undefined _ _) (conj Hr Hout)).
Qed.

(** Under a name that [rooms] inherits and does not own, a join creates no
    room, writes no file and emits the inherited value. *)
Lemma joinRoom_inherited sid roomId st :
  rooms st !! roomId = None → roomId ∈ Object_prototype.*1 →
  joinRoom sid roomId st =
    (bind_socket sid roomId st, [(to_socket sid, queueUpdated_inherited roomId)]).
Proof.
  intros Hr Hin. unfold joinRoom. cbn [bind_socket rooms].
  by rewrite (proj2 (get_inherited _ _ _) (conj Hr (conj Hin eq_refl))).
Qed.

Lemma run_app ms1 ms2 st :
  run (ms1 ++ ms2) st =
    let '(st1, out1) := run ms1 st in
    let '(st2, out2) := run ms2 st1 in
    (st2, out1 ++ out2).
Proof.
  revert st. induction ms1 as [|[sid m] ms1 IH]; intros st; simpl.
  - by destruct (run ms2 st).
  - destruct (handle sid m st) as [st1 out1]. rewrite IH.
    destruct (run ms1 st1) as [st2 out2], (run ms2 st2) as [st3 out3].
    by rewrite app_assoc.
Qed.

End ServerFacts.

(** * Facts about the upstream calls *)
Module AiFacts.
Import Ai.

Section proxy.
Variable JSON_parse : string → option json.
Variable upstream : nat → payload → response.

Local Abbreviation callAi := (callAi upstream).
Local Abbreviation retry_loop := (retry_loop JSON_parse upstream).
Local Abbreviation getUnknownParamName := (getUnknownParamName JSON_parse).

(** Unfolds one bind of the state monad. *)
Local Ltac step :=
  unfold mbind, M_bind, mret, M_ret, Ai.callAi, remember;
  cbn [fst snd posted AI_UNSUPPORTED_PARAMS].

(** One iteration of the loop that ends in [continue]: the parameter is
    remembered and the next request goes without it. *)
Lemma retry_loop_continue attempts p w :
  let out := upstream (length (posted w)) p in
  status out = 400%Z → getUnknownParamName (text out) ≠ "" →
  retry_loop (S attempts) p w =
    retry_loop attempts (stripParam p (getUnknownParamName (text out)))
      {| AI_UNSUPPORTED_PARAMS :=
           {[ getUnknownParamName (text out) ]} ∪ AI_UNSUPPORTED_PARAMS w;
         posted := posted w ++ [p] |}.
Proof.
  intros out Hstatus Hparam. cbn [Ai.retry_loop]. step. fold out.
  unfold is_2xx. rewrite Hstatus.
  cbn [Z.leb Z.ltb Z.eqb Z.compare Pos.compare Pos.compare_cont andb Pos.eqb].
  apply JsFacts.truthy_nonempty in Hparam. by rewrite Hparam.
Qed.
(** With [attempts] iterations left the loop posts at least once and at
    most [attempts + 1] times: up to three times for the Express server. *)
Lemma retry_loop_posted attempts p w :
  length (posted w) < length (posted (retry_loop attempts p w).2) ≤
    length (posted w) + S attempts.
Proof.
  revert p w. induction attempts as [|attempts IH]; intros p w.
  - cbn [Ai.retry_loop]. step. rewrite length_app. simpl. lia.
  - cbn [Ai.retry_loop]. step.
    destruct (is_2xx _).
    { step. rewrite length_app. simpl. lia. }
    destruct (_ && _).
    + cbn [fst snd posted AI_UNSUPPORTED_PARAMS].
      match goal with |- context [Ai.retry_loop _ _ _ ?q ?w'] =>
        specialize (IH q w') end.
      cbn [posted] in IH. rewrite length_app in IH. simpl in IH. lia.
    + step. rewrite length_app. simpl. lia.
Qed.
(** The Netlify function posts once or twice. *)
Lemma netlify_call_posted p w :
  length (posted w) < length (posted (netlify_call JSON_parse upstream p w).2) ≤
    length (posted w) + 2.
Proof.
  unfold netlify_call. step.
  destruct (_ && _); step; rewrite !length_app; simpl; lia.
Qed.
(** When the provider names an unknown parameter in answer to the first
    request and again in answer to the second, the Express server posts a
    third request. *)
Lemma retry_loop_two_rejections p w :
  let out1 := upstream (length (posted w)) p in
  let p1 := stripParam p (getUnknownParamName (text out1)) in
  let out2 := upstream (S (length (posted w))) p1 in
  status out1 = 400%Z → getUnknownParamName (text out1) ≠ "" →
  status out2 = 400%Z → getUnknownParamName (text out2) ≠ "" →
  posted (callAiOnceWithOptionalRetry JSON_parse upstream p w).2 =
    posted w ++ [p; p1; stripParam p1 (getUnknownParamName (text out2))].
Proof.
  intros out1 p1 out2 Hs1 Hp1 Hs2 Hp2. unfold callAiOnceWithOptionalRetry.
  rewrite retry_loop_continue by done. fold out1 p1.
  rewrite retry_loop_continue; cbn [posted]; rewrite length_app, Nat.add_1_r;
    fold out2; [|done..].
  cbn [Ai.retry_loop]. step. by rewrite <-!app_assoc.
Qed.
End proxy.

End AiFacts.

(** * Facts about JavaScript numbers *)
Module DoubleFacts.
Import Double.

Lemma round_half_even_integer (q : Q) (m : Z) :
  (q == inject_Z m)%Q → round_half_even q = m.
Proof.
  intros Hq. unfold round_half_even.
  assert (Qfloor q = m) as -> by (rewrite (Qfloor_comp _ _ Hq); apply Qfloor_Z).
  assert (Qcompare (q - inject_Z m)%Q (1 # 2)%Q = Lt) as ->; [|done].
  apply (proj1 (Qlt_alt _ _)).
  assert (q - inject_Z m == 0)%Q as -> by (rewrite Hq; ring). done.
Qed.

Lemma Qabs_nonneg_eq (a : Q) : (0 <= a)%Q → Qabs a = a.
Proof.
  destruct a as [n d]. unfold Qle, Qabs. simpl. intros Hn.
  f_equal. apply Z.abs_eq. lia.
Qed.

(** A number of at least 1 whose integer part has [53 - s] bits and which
    is a multiple of [2^-s] is a JavaScript number. *)
Lemma round_exact (a : Q) (s m : Z) :
  (1 <= a)%Q → Z.log2 (Qfloor a) = (52 - s)%Z → (0 ≤ s ≤ 52)%Z →
  (a * inject_Z (2 ^ s) == inject_Z m)%Q →
  (round a == a)%Q.
Proof.
  intros Ha Hlog Hs Hm. unfold round.
  assert (0 < a)%Q as Hpos by (eapply Qlt_le_trans; [|exact Ha]; done).
  rewrite (proj1 (Qgt_alt _ _) Hpos).
  rewrite (Qabs_nonneg_eq a) by by apply Qlt_le_weak.
  assert (ilog2 a = (52 - s)%Z) as Hilog.
  { unfold ilog2. by rewrite (proj2 (Qle_bool_iff _ _) Ha). }
  rewrite Hilog.
  replace (Z.max (52 - s - 52) (-1074)) with (- s)%Z by lia.
  assert (Qpower 2 (- s) == / inject_Z (2 ^ s))%Q as Hpow.
  { rewrite Qpower_opp. apply Qinv_comp. symmetry.
    change (2%Q) with (inject_Z 2). apply Zpower_Qpower. lia. }
  assert (~ inject_Z (2 ^ s) == 0)%Q as Hnz.
  { change 0%Q with (inject_Z 0). rewrite inject_Z_injective.
    apply Z.pow_nonzero; lia. }
  assert (a / Qpower 2 (- s) == inject_Z m)%Q as Hscaled.
  { rewrite Hpow, <-Hm. field. done. }
  rewrite (round_half_even_integer _ _ Hscaled).
  rewrite Hpow, <-Hm. field. done.
Qed.

Lemma Qfloor_unique (a : Q) (z : Z) :
  (inject_Z z <= a)%Q → (a < inject_Z (z + 1))%Q → Qfloor a = z.
Proof.
  intros Hle Hlt.
  pose proof (Qfloor_le a) as Hf1. pose proof (Qlt_floor a) as Hf2.
  assert (Qfloor a < z + 1)%Z.
  { rewrite Zlt_Qlt. eapply Qle_lt_trans; [exact Hf1|exact Hlt]. }
  assert (z < Qfloor a + 1)%Z.
  { rewrite Zlt_Qlt. eapply Qle_lt_trans; [exact Hle|exact Hf2]. }
  lia.
Qed.

(** The integers from 1 to [2^53] are JavaScript numbers. *)
Lemma round_integer (a : Q) (z : Z) :
  (a == inject_Z z)%Q → (1 ≤ z < 2 ^ 53)%Z → (round a == a)%Q.
Proof.
  intros Ha Hz.
  assert (0 ≤ Z.log2 z < 53)%Z as Hlog.
  { split; [apply Z.log2_nonneg|]. apply Z.log2_lt_pow2; lia. }
  apply (round_exact a (52 - Z.log2 z) (z * 2 ^ (52 - Z.log2 z))).
  - rewrite Ha. change 1%Q with (inject_Z 1). rewrite <-Zle_Qle. lia.
  - rewrite (Qfloor_comp _ _ Ha), Qfloor_Z. lia.
  - lia.
  - by rewrite Ha, inject_Z_mult.
Qed.

(** So are the integers from 1 up to [2^52], each plus one half. *)
Lemma round_half_integer (a : Q) (z : Z) :
  (a == inject_Z z + (1 # 2))%Q → (1 ≤ z < 2 ^ 52)%Z → (round a == a)%Q.
Proof.
  intros Ha Hz.
  assert (0 ≤ Z.log2 z < 52)%Z as Hlog.
  { split; [apply Z.log2_nonneg|]. apply Z.log2_lt_pow2; lia. }
  assert (Qfloor a = z) as Hfloor.
  { apply Qfloor_unique; rewrite Ha.
    - rewrite <-(Qplus_0_r (inject_Z z)) at 1. by apply Qplus_le_r.
    - rewrite inject_Z_plus. by apply Qplus_lt_r. }
  apply (round_exact a (52 - Z.log2 z) ((2 * z + 1) * 2 ^ (51 - Z.log2 z))).
  - rewrite Ha. apply Qle_trans with (inject_Z z).
    + change 1%Q with (inject_Z 1). rewrite <-Zle_Qle. lia.
    + rewrite <-(Qplus_0_r (inject_Z z)) at 1. by apply Qplus_le_r.
  - rewrite Hfloor. lia.
  - lia.
  - replace (52 - Z.log2 z)%Z with (Z.succ (51 - Z.log2 z)) by lia.
    rewrite Z.pow_succ_r by lia.
    rewrite Ha, !inject_Z_mult, inject_Z_plus, inject_Z_mult.
    change (inject_Z 2) with (2 # 1)%Q. change (inject_Z 1) with 1%Q. field.
Qed.

End DoubleFacts.

(** * Facts about the Firestore client *)
Module FirestoreFacts.
Import Firestore FirestoreSamples.

Implicit Types (col : collection) (d : snapshot_doc) (docs : list snapshot_doc).

(** ** The order of a query *)

Lemma string_leb_iff a b :
  String.leb a b = true ↔ a = b ∨ OrderedTypeEx.String_as_OT.lt a b.
Proof.
  unfold String.leb.
  pose proof (OrderedTypeEx.String_as_OT.cmp_eq a b) as Heq.
  pose proof (OrderedTypeEx.String_as_OT.cmp_lt a b) as Hlt.
  unfold OrderedTypeEx.String_as_OT.cmp in *.
  destruct (String.compare a b); split; try done.
  - intros _. left. by apply Heq.
  - intros _. right. by apply Hlt.
  - intros [H|H]; [by apply Heq in H|by apply Hlt in H].
Qed.

Lemma string_leb_trans a b c :
  String.leb a b = true → String.leb b c = true → String.leb a c = true.
Proof.
  rewrite !string_leb_iff. intros [->|Hab] [->|Hbc]; auto.
  right. by eapply OrderedTypeEx.String_as_OT.lt_trans.
Qed.

Lemma order_cmp_Eq a b : order_cmp a b = Eq ↔ a = b.
Proof.
  destruct a as [x|], b as [y|]; simpl; try done.
  rewrite <-Qceq_alt. split; [by intros ->|by intros [= ->]].
Qed.

Lemma order_cmp_antisym a b : order_cmp b a = CompOpp (order_cmp a b).
Proof.
  destruct a as [x|], b as [y|]; simpl; try done.
  unfold Qccompare. by rewrite Qcompare_antisym.
Qed.

Lemma order_cmp_Lt_trans a b c :
  order_cmp a b = Lt → order_cmp b c = Lt → order_cmp a c = Lt.
Proof.
  destruct a as [x|], b as [y|], c as [z|]; simpl; try done.
  rewrite <-!Qclt_alt. apply Qclt_trans.
Qed.

Global Instance doc_le_total : Total doc_le.
Proof.
  intros a b. unfold doc_le, doc_leb.
  rewrite (order_cmp_antisym (order a.2) (order b.2)).
  destruct (order_cmp (order a.2) (order b.2)); simpl; auto.
  apply String.leb_total.
Qed.

Global Instance doc_le_trans : Transitive doc_le.
Proof.
  intros a b c. unfold doc_le, doc_leb.
  destruct (order_cmp (order a.2) (order b.2)) eqn:Hab; [| |done];
    destruct (order_cmp (order b.2) (order c.2)) eqn:Hbc; try done.
  - apply order_cmp_Eq in Hab, Hbc. rewrite Hab, Hbc.
    rewrite (proj2 (order_cmp_Eq _ _) eq_refl). apply string_leb_trans.
  - apply order_cmp_Eq in Hab. rewrite Hab, Hbc. done.
  - apply order_cmp_Eq in Hbc. rewrite <-Hbc, Hab. done.
  - by rewrite (order_cmp_Lt_trans _ _ _ Hab Hbc).
Qed.

(** Two documents that precede each other have the same key and id. *)
Lemma doc_le_antisym a b :
  doc_le a b → doc_le b a → order a.2 = order b.2 ∧ a.1 = b.1.
Proof.
  unfold doc_le, doc_leb. rewrite (order_cmp_antisym (order a.2) (order b.2)).
  destruct (order_cmp (order a.2) (order b.2)) eqn:Hab; simpl; try done.
  intros H1 H2. split; [by apply order_cmp_Eq|by apply String.leb_antisym].
Qed.

Lemma num_compare a b : Qccompare (num a) (num b) = (a ?= b)%Z.
Proof.
  unfold Qccompare, num. simpl. rewrite <-Qred_compare.
  unfold Qcompare. simpl. by rewrite !Z.mul_1_r.
Qed.

Lemma elem_of_query col i doc : (i, doc) ∈ query col ↔ col !! i = Some doc.
Proof.
  unfold query. by rewrite merge_sort_Permutation, elem_of_map_to_list.
Qed.

Lemma query_Permutation col : query col ≡ₚ map_to_list col.
Proof. apply merge_sort_Permutation. Qed.

Lemma query_Sorted col : Sorted doc_le (query col).
Proof. apply Sorted_merge_sort, _. Qed.

Lemma query_NoDup_ids col : NoDup (query col).*1.
Proof. rewrite query_Permutation. apply NoDup_fst_map_to_list. Qed.

(** A sorted list of the documents of a collection is its query result. *)
Lemma query_unique col docs :
  Sorted doc_le docs → docs ≡ₚ map_to_list col → query col = docs.
Proof.
  intros Hsorted Hperm.
  apply (Sorted_unique_strong doc_le); [|apply query_Sorted|done|].
  - intros [i1 d1] [i2 d2] H1 H2 Hle1 Hle2.
    destruct (doc_le_antisym _ _ Hle1 Hle2) as [_ Hid]. simpl in Hid. subst i2.
    apply elem_of_query in H1. rewrite Hperm in H2.
    apply elem_of_map_to_list in H2. congruence.
  - by rewrite query_Permutation, Hperm.
Qed.

Lemma query_empty : query ∅ = [].
Proof. unfold query. by rewrite map_to_list_empty. Qed.

Lemma query_nil col : query col = [] ↔ col = ∅.
Proof.
  split; [|intros ->; apply query_empty].
  intros Hq. apply map_to_list_empty_iff, Permutation_nil.
  by rewrite <-query_Permutation, Hq.
Qed.

(** ** The write batch of [normalizeQueue] *)

Lemma renumber_batch_cons k d docs :
  renumber_batch k (d :: docs) = update_order d.1 k :: renumber_batch (S k) docs.
Proof.
  unfold renumber_batch. simpl. rewrite Nat.add_0_r. f_equal.
  apply imap_ext. intros idx d' _. simpl. f_equal. lia.
Qed.

Lemma renumber_from_cons k d docs :
  renumber_from k (d :: docs) =
    (d.1, with_order (Some (num (Z.of_nat k))) d.2) :: renumber_from (S k) docs.
Proof.
  unfold renumber_from. simpl. rewrite Nat.add_0_r. f_equal.
  apply imap_ext. intros idx d' _. simpl. do 4 f_equal. lia.
Qed.

Lemma renumber_from_lookup k docs j :
  renumber_from k docs !! j =
    (λ d, (d.1, with_order (Some (num (Z.of_nat (k + j)))) d.2)) <$> docs !! j.
Proof. unfold renumber_from. by rewrite list_lookup_imap. Qed.

Lemma renumber_from_ids k docs : (renumber_from k docs).*1 = docs.*1.
Proof.
  revert k. induction docs as [|d docs IH]; intros k; [done|].
  rewrite renumber_from_cons. simpl. by rewrite IH.
Qed.

Lemma renumber_from_videos k docs :
  (λ d, video d.2) <$> renumber_from k docs = (λ d, video d.2) <$> docs.
Proof.
  revert k. induction docs as [|d docs IH]; intros k; [done|].
  rewrite renumber_from_cons. simpl. by rewrite IH.
Qed.

Lemma renumber_from_createdAt k docs :
  (λ d, createdAt d.2) <$> renumber_from k docs = (λ d, createdAt d.2) <$> docs.
Proof.
  revert k. induction docs as [|d docs IH]; intros k; [done|].
  rewrite renumber_from_cons. simpl. by rewrite IH.
Qed.

Lemma renumber_from_orders k docs :
  (λ d, order d.2) <$> renumber_from k docs =
    (λ n, Some (num (Z.of_nat n))) <$> seq k (length docs).
Proof.
  revert k. induction docs as [|d docs IH]; intros k; [done|].
  rewrite renumber_from_cons. simpl. by rewrite IH.
Qed.

Lemma renumber_from_length k docs : length (renumber_from k docs) = length docs.
Proof. unfold renumber_from. apply length_imap. Qed.

Lemma commit_cons w batch col : commit (w :: batch) col = commit batch (apply_write col w).
Proof. done. Qed.

(** A batch leaves the documents it does not name as they are. *)
Lemma commit_lookup_other k docs col i :
  i ∉ docs.*1 → commit (renumber_batch k docs) col !! i = col !! i.
Proof.
  revert k col. induction docs as [|[i0 d0] docs IH]; intros k col Hi; [done|].
  rewrite renumber_batch_cons, commit_cons. simpl in *.
  apply not_elem_of_cons in Hi as [Hne Hi].
  rewrite IH by done. by apply lookup_alter_ne.
Qed.

(** The document at index [j] of the snapshot receives the key [k + j]. *)
Lemma commit_lookup_nth k docs col j i doc :
  NoDup docs.*1 → docs !! j = Some (i, doc) →
  commit (renumber_batch k docs) col !! i =
    with_order (Some (num (Z.of_nat (k + j)))) <$> col !! i.
Proof.
  revert k col j. induction docs as [|[i0 d0] docs IH]; intros k col j Hnd Hj; [done|].
  rewrite renumber_batch_cons, commit_cons. simpl in *.
  apply NoDup_cons in Hnd as [Hi0 Hnd].
  destruct j as [|j]; simpl in Hj.
  - injection Hj as -> ->. rewrite commit_lookup_other by done.
    rewrite Nat.add_0_r. apply lookup_alter_eq.
  - assert (i ≠ i0) as Hne.
    { intros ->. apply Hi0. apply list_elem_of_fmap. exists (i0, doc).
      split; [done|]. by eapply list_elem_of_lookup_2. }
    rewrite (IH (S k) _ j) by done.
    rewrite lookup_alter_ne by done. do 4 f_equal. lia.
Qed.

(** Consecutive integer keys are in ascending order. *)
Lemma renumber_from_Sorted k docs : Sorted doc_le (renumber_from k docs).
Proof.
  revert k. induction docs as [|d docs IH]; intros k; [constructor|].
  rewrite renumber_from_cons. constructor; [apply IH|].
  destruct docs as [|d' docs]; [constructor|].
  rewrite renumber_from_cons. constructor.
  unfold doc_le, doc_leb. simpl. rewrite num_compare.
  by rewrite (proj2 (Z.compare_lt_iff _ _)) by lia.
Qed.

(** The documents of the collection after the batch are those of the
    snapshot with their new keys. *)
Lemma commit_renumber_Permutation col :
  map_to_list (commit (renumber_batch 0 (query col)) col) ≡ₚ renumber (query col).
Proof.
  pose proof (query_NoDup_ids col) as Hnd.
  apply NoDup_Permutation.
  - apply NoDup_map_to_list.
  - apply (NoDup_fmap_1 fst). unfold renumber.
    by rewrite renumber_from_ids.
  - intros [i doc']. rewrite elem_of_map_to_list. unfold renumber.
    rewrite list_elem_of_lookup. setoid_rewrite renumber_from_lookup.
    split.
    + intros Hdoc'. destruct (decide (i ∈ (query col).*1)) as [Hin|Hnin].
      * apply list_elem_of_fmap in Hin as ([i' doc] & -> & Hin).
        apply list_elem_of_lookup in Hin as [j Hj]. exists j. rewrite Hj. simpl.
        rewrite (commit_lookup_nth 0 _ _ j i' doc) in Hdoc' by done.
        apply list_elem_of_lookup_2, elem_of_query in Hj.
        rewrite Hj in Hdoc'. simpl in Hdoc'. congruence.
      * rewrite commit_lookup_other in Hdoc' by done.
        exfalso. apply Hnin. apply list_elem_of_fmap. exists (i, doc').
        split; [done|]. by apply elem_of_query.
    + intros [j Hj]. destruct (query col !! j) as [[i' doc]|] eqn:Hjq; [|done].
      simpl in Hj. injection Hj as <- <-.
      rewrite (commit_lookup_nth 0 _ _ j i' doc) by done.
      apply list_elem_of_lookup_2, elem_of_query in Hjq. by rewrite Hjq.
Qed.

(** [normalizeQueue] keeps the sequence and numbers it from 0. *)
Lemma query_normalizeQueue col :
  query (normalizeQueue col) = renumber (query col).
Proof.
  unfold normalizeQueue.
  destruct (length (query col) =? 0) eqn:Hlen.
  - apply Nat.eqb_eq, nil_length_inv in Hlen. by rewrite Hlen.
  - apply query_unique; [apply renumber_from_Sorted|].
    symmetry. apply commit_renumber_Permutation.
Qed.

(** ** Deleting and inserting one document *)

Lemma query_delete_head col i doc docs :
  query col = (i, doc) :: docs → query (deleteDoc i col) = docs.
Proof.
  intros Hq. pose proof (query_Sorted col) as Hs. rewrite Hq in Hs.
  apply query_unique; [by apply Sorted_inv in Hs as [? _]|].
  assert (col !! i = Some doc) as Hi by (apply elem_of_query; rewrite Hq; left).
  apply (Permutation_cons_inv (a := (i, doc))).
  unfold deleteDoc. by rewrite map_to_list_delete, <-query_Permutation, Hq.
Qed.

Lemma query_advanceSong col :
  query (advanceSong col) = renumber (Js.shift (query col)).
Proof.
  unfold advanceSong. rewrite query_normalizeQueue.
  destruct (query col) as [|[i doc] docs] eqn:Hq; simpl.
  - by rewrite Hq.
  - by rewrite (query_delete_head _ _ _ _ Hq).
Qed.

Lemma advanceSong_empty : advanceSong ∅ = ∅.
Proof. unfold advanceSong, normalizeQueue. by rewrite query_empty. Qed.


(** ** Sums of keys *)

Lemma Q2Qc_this (q : Qc) : Q2Qc (this q) = q.
Proof. apply Qc_is_canon. simpl. apply Qred_correct. Qed.

Lemma this_num z : (this (num z) == inject_Z z)%Q.
Proof. unfold num. simpl. apply Qred_correct. Qed.

Lemma this_plus (x y : Qc) : (this (x + y)%Qc == this x + this y)%Q.
Proof. simpl. apply Qred_correct. Qed.

Lemma num_add a b : num (a + b) = (num a + num b)%Qc.
Proof.
  apply Qc_is_canon. unfold num. simpl.
  by rewrite !Qred_correct, inject_Z_plus.
Qed.

(** Adding 1 to a natural number below [2^53] is exact. *)
Lemma add_one z : (0 ≤ z < 2 ^ 53)%Z → add (num z) (num 1) = num (z + 1).
Proof.
  intros Hz. unfold add.
  destruct (decide (z = 2 ^ 53 - 1)%Z) as [->|Hne]; [apply Qc_is_canon; by vm_compute|].
  rewrite num_add. rewrite <-(Q2Qc_this (num z + num 1)) at 2.
  apply Q2Qc_eq_iff. apply (DoubleFacts.round_integer _ (z + 1)); [|lia].
  by rewrite this_plus, !this_num, inject_Z_plus.
Qed.

(** Adding one half to a natural number below [2^52] is exact. *)
Lemma add_half z :
  (0 ≤ z < 2 ^ 52)%Z →
  add (num z) (Q2Qc (1 # 2)) = (num z + Q2Qc (1 # 2))%Qc.
Proof.
  intros Hz. unfold add.
  destruct (decide (z = 0)%Z) as [->|Hne]; [apply Qc_is_canon; by vm_compute|].
  rewrite <-(Q2Qc_this (num z + Q2Qc (1 # 2))) at 2.
  apply Q2Qc_eq_iff. apply (DoubleFacts.round_half_integer _ z); [|lia].
  rewrite this_plus, this_num. simpl. by rewrite Qred_correct.
Qed.

(** From [2^53] on adding 1 can give the number itself, and from [2^52] on
    so can adding one half. *)
Lemma add_one_collides : add (num (2 ^ 53)) (num 1) = num (2 ^ 53).
Proof. apply Qc_is_canon. by vm_compute. Qed.

Lemma add_half_collides : add (num (2 ^ 52)) (Q2Qc (1 # 2)) = num (2 ^ 52).
Proof. apply Qc_is_canon. by vm_compute. Qed.

(** ** The keys of [addToQueue] *)

Lemma Qc_lt_add_pos (x e : Qc) : (0 < e)%Qc → (x < x + e)%Qc.
Proof.
  intros He. rewrite <-(Qcplus_0_r x) at 1.
  rewrite (Qcplus_comm x 0), (Qcplus_comm x e).
  by apply Qcplus_lt_mono_r.
Qed.

Lemma query_StronglySorted col : StronglySorted doc_le (query col).
Proof. apply Sorted_StronglySorted; [apply _|apply query_Sorted]. Qed.

(** A new document goes between the documents that precede it and those
    that follow it. *)
Lemma query_insert_between col newId doc pre post :
  col !! newId = None → query col = pre ++ post →
  Forall (λ d, doc_le d (newId, doc)) pre →
  Forall (λ d, doc_le (newId, doc) d) post →
  query (<[newId := doc]> col) = pre ++ (newId, doc) :: post.
Proof.
  intros Hfresh Hq Hpre Hpost.
  pose proof (query_StronglySorted col) as Hs. rewrite Hq in Hs.
  apply StronglySorted_app in Hs as (Hcross & Hs1 & Hs2).
  apply query_unique.
  - apply StronglySorted_Sorted, StronglySorted_app_2; [|done|].
    + intros x1 x2 Hx1 Hx2. apply elem_of_cons in Hx2 as [->|Hx2].
      * by eapply Forall_forall in Hpre.
      * by apply Hcross.
    + by constructor.
  - rewrite map_to_list_insert by done.
    by rewrite <-Permutation_middle, <-query_Permutation, Hq.
Qed.

Lemma last_lookup_Some docs d : last docs = Some d → ∃ pre, docs = pre ++ [d].
Proof.
  intros Hl. destruct docs as [|d0 docs _] using rev_ind; [done|].
  rewrite last_snoc in Hl. injection Hl as ->. by eexists.
Qed.

(** The key of a top insertion: the head's key plus one half, as a sum of
    JavaScript numbers. *)
Lemma new_order_top h rest :
  new_order true (h :: rest) = add (order_or h.2 (num 0)) (Q2Qc (1 # 2)).
Proof. done. Qed.

Lemma new_order_append pre l :
  new_order false (pre ++ [l]) =
    add (order_or l.2 (num (Z.of_nat (length (pre ++ [l])) - 1))) (num 1).
Proof. unfold new_order. by rewrite last_snoc. Qed.

Lemma new_order_empty isTop : new_order isTop [] = num 0.
Proof. destruct isTop; apply Qc_is_canon; by vm_compute. Qed.

(** The last document of a query has the greatest key. *)
Lemma query_last_max col l :
  last (query col) = Some l → Forall (λ d, doc_le d l) (query col).
Proof.
  intros Hlast. apply last_lookup_Some in Hlast as [pre Hpre].
  pose proof (query_StronglySorted col) as Hs. rewrite Hpre in *.
  apply Forall_app. split.
  - apply Forall_forall. intros d Hd.
    eapply StronglySorted_app_1_elem_of; [done..|by left].
  - constructor; [|done]. unfold doc_le, doc_leb.
    rewrite (proj2 (order_cmp_Eq _ _) eq_refl).
    by destruct (String.leb_total l.1 l.1).
Qed.

(** A document whose key is strictly above the key of the last document
    comes after every document of the collection. *)
Lemma key_above_last col i doc :
  (∀ l, last (query col) = Some l → order_cmp (order l.2) (order doc) = Lt) →
  Forall (λ d, doc_le d (i, doc)) (query col).
Proof.
  intros Habove. destruct (last (query col)) as [l|] eqn:Hlast.
  - assert (doc_le l (i, doc)) as Hl.
    { unfold doc_le, doc_leb. cbn [fst snd]. by rewrite (Habove l eq_refl). }
    eapply Forall_impl; [exact (query_last_max _ _ Hlast)|].
    intros d Hd. etrans; [exact Hd|exact Hl].
  - apply last_None in Hlast. by rewrite Hlast.
Qed.

(** An append puts the new document last when its key comes out strictly
    above the key of the last document. *)
Lemma query_addToQueue_append col v newId now :
  col !! newId = None →
  (∀ l, last (query col) = Some l →
        order_cmp (order l.2) (Some (new_order false (query col))) = Lt) →
  query (addToQueue v false newId now col) =
    query col ++ [(newId, {| video := v; createdAt := now;
                             order := Some (new_order false (query col)) |})].
Proof.
  intros Hfresh Habove. unfold addToQueue.
  apply query_insert_between; [done|by rewrite app_nil_r| |done].
  by apply key_above_last.
Qed.

(** A top insertion puts the new document second when its key comes out
    above the head's key and strictly below those of the others. *)
Lemma query_addToQueue_top col v newId now h rest :
  col !! newId = None → query col = h :: rest →
  order_cmp (order h.2) (Some (new_order true (query col))) = Lt →
  Forall (λ d, order_cmp (Some (new_order true (query col))) (order d.2) = Lt) rest →
  query (addToQueue v true newId now col) =
    renumber (h :: (newId, {| video := v; createdAt := now;
                              order := Some (new_order true (query col)) |}) :: rest).
Proof.
  intros Hfresh Hq Hhead Hrest. unfold addToQueue. rewrite query_normalizeQueue. f_equal.
  apply (query_insert_between _ _ _ [h] rest); [done|done| |].
  - constructor; [|done]. unfold doc_le, doc_leb. cbn [fst snd order].
    by rewrite Hhead.
  - eapply Forall_impl; [exact Hrest|]. intros d Hd.
    unfold doc_le, doc_leb. cbn [fst snd order]. by rewrite Hd.
Qed.

Lemma query_addToQueue_first v isTop newId now :
  query (addToQueue v isTop newId now ∅) =
    [(newId, {| video := v; createdAt := now; order := Some (num 0) |})].
Proof.
  assert (query (<[newId := {| video := v; createdAt := now;
                               order := Some (new_order isTop (query ∅)) |}]> ∅)
          = [(newId, {| video := v; createdAt := now; order := Some (num 0) |})]) as Hq.
  { rewrite query_empty, new_order_empty.
    by apply (query_insert_between ∅ newId _ [] []); [|apply query_empty|..]. }
  unfold addToQueue. destruct isTop; [|done].
  rewrite query_normalizeQueue, Hq. done.
Qed.

Lemma doc_le_order_le d l k :
  doc_le d l → order d.2 = Some k → ∃ m, order l.2 = Some m ∧ (k ≤ m)%Qc.
Proof.
  unfold doc_le, doc_leb. intros Hle Hk. rewrite Hk in Hle.
  destruct (order l.2) as [m|]; simpl in Hle; [|done].
  exists m. split; [done|]. apply Qcle_alt. by destruct (Qccompare k m).
Qed.

(** Between consecutive integers the exact head key plus one half is the
    midpoint. *)
Lemma half_is_midpoint n :
  (num n + Q2Qc (1 # 2))%Qc = ((num n + num (n + 1)) / num 2)%Qc.
Proof.
  rewrite num_add.
  replace (Q2Qc (1 # 2)) with (1 / (1 + 1))%Qc by by apply Qc_is_canon.
  replace (num 2) with (1 + 1)%Qc by by apply Qc_is_canon.
  replace (num 1) with 1%Qc by by apply Qc_is_canon.
  field. by intros [=].
Qed.

(** ** Integer keys *)

Global Instance key_lt_trans : Transitive key_lt.
Proof. intros a b c. apply order_cmp_Lt_trans. Qed.

Lemma num_le a b : (a ≤ b)%Z → (num a ≤ num b)%Qc.
Proof.
  intros Hab. apply Qcle_alt. rewrite num_compare.
  by apply Z.compare_le_iff.
Qed.

Lemma num_lt a b : (a < b)%Z → order_cmp (Some (num a)) (Some (num b)) = Lt.
Proof. intros Hab. simpl. rewrite num_compare. by apply Z.compare_lt_iff. Qed.

Lemma num_lt_half a b : (a ≤ b)%Z →
  order_cmp (Some (num a)) (Some (num b + Q2Qc (1 # 2))%Qc) = Lt.
Proof.
  intros Hab. simpl. apply Qclt_alt.
  eapply Qcle_lt_trans; [by apply num_le|]. by apply Qc_lt_add_pos.
Qed.

Lemma num_half_lt a b : (a < b)%Z →
  order_cmp (Some (num a + Q2Qc (1 # 2))%Qc) (Some (num b)) = Lt.
Proof.
  intros Hab. simpl. apply Qclt_alt.
  apply Qclt_le_trans with (num a + num 1)%Qc.
  - by apply Qcplus_lt_mono_l.
  - rewrite <-num_add. apply num_le. lia.
Qed.

Lemma integer_keys_renumber k docs : integer_keys (renumber_from k docs).
Proof.
  split.
  - apply Forall_lookup. intros j d. rewrite renumber_from_lookup.
    destruct (docs !! j) as [d0|]; [|done]. intros [= <-]. by eexists.
  - apply Sorted_StronglySorted; [apply _|].
    revert k. induction docs as [|d docs IH]; intros k; [constructor|].
    rewrite renumber_from_cons. constructor; [apply IH|].
    destruct docs as [|d' docs]; [constructor|].
    rewrite renumber_from_cons. constructor.
    unfold key_lt. cbn [snd order with_order order_cmp].
    rewrite num_compare. apply Z.compare_lt_iff. lia.
Qed.

Lemma integer_keys_normalizeQueue col : integer_keys (query (normalizeQueue col)).
Proof. rewrite query_normalizeQueue. apply integer_keys_renumber. Qed.

Lemma integer_keys_advanceSong col : integer_keys (query (advanceSong col)).
Proof. rewrite query_advanceSong. apply integer_keys_renumber. Qed.

Lemma query_deleteDoc_split col ref doc :
  col !! ref = Some doc →
  ∃ pre post, query col = pre ++ (ref, doc) :: post ∧
              query (deleteDoc ref col) = pre ++ post.
Proof.
  intros Hdoc. pose proof (proj2 (elem_of_query col ref doc) Hdoc) as Hin.
  apply list_elem_of_split in Hin as (pre & post & Hq).
  exists pre, post. split; [done|].
  pose proof (query_StronglySorted col) as Hs. rewrite Hq in Hs.
  apply StronglySorted_app in Hs as (Hcross & Hs1 & Hs2).
  apply StronglySorted_cons in Hs2 as [_ Hs2].
  apply query_unique.
  - apply StronglySorted_Sorted, StronglySorted_app_2; [|done..].
    intros x1 x2 Hx1 Hx2. apply Hcross; [done|by right].
  - apply (Permutation_cons_inv (a := (ref, doc))).
    unfold deleteDoc.
    by rewrite map_to_list_delete, Permutation_middle, <-query_Permutation, Hq.
Qed.

Lemma integer_keys_deleteDoc col ref :
  integer_keys (query col) → integer_keys (query (deleteDoc ref col)).
Proof.
  intros [Hint Hsorted]. destruct (col !! ref) as [doc|] eqn:Hdoc.
  - destruct (query_deleteDoc_split _ _ _ Hdoc) as (pre & post & Hq & ->).
    rewrite Hq in Hint, Hsorted.
    apply Forall_app in Hint as [Hpre Hpost].
    apply Forall_cons in Hpost as [_ Hpost].
    apply StronglySorted_app in Hsorted as (Hcross & Hs1 & Hs2).
    apply StronglySorted_cons in Hs2 as [_ Hs2].
    split; [by apply Forall_app|].
    apply StronglySorted_app_2; [|done..].
    intros x1 x2 Hx1 Hx2. apply Hcross; [done|by right].
  - unfold deleteDoc. by rewrite delete_id.
Qed.

(** ** Natural keys below the limits of exact sums *)

Lemma keys_upto_mono b b' docs : (b ≤ b')%Z → keys_upto b docs → keys_upto b' docs.
Proof.
  intros Hb (Hkeys & Hall & Hlen). split; [done|]. split; [|lia].
  eapply Forall_impl; [exact Hall|]. intros d (z & Hz & Hbound).
  exists z. split; [done|lia].
Qed.

Lemma keys_upto_nil b : (0 ≤ b)%Z → keys_upto b [].
Proof. intros Hb. split; [split; constructor|]. split; [constructor|simpl; lia]. Qed.

Lemma keys_upto_renumber b docs :
  (Z.of_nat (length docs) ≤ b + 1)%Z → keys_upto b (renumber docs).
Proof.
  intros Hlen. split; [apply integer_keys_renumber|]. unfold renumber. split.
  - apply Forall_lookup. intros j d. rewrite renumber_from_lookup.
    destruct (docs !! j) as [d0|] eqn:Hj; [|done]. intros [= <-].
    apply lookup_lt_Some in Hj. eexists. split; [done|]. lia.
  - by rewrite renumber_from_length.
Qed.

(** The key an append computes on natural keys up to [b < 2^53]: the last
    key plus 1, exactly. *)
Lemma new_order_append_exact b col l :
  keys_upto b (query col) → (b < 2 ^ 53)%Z → last (query col) = Some l →
  ∃ z, order l.2 = Some (num z) ∧ (0 ≤ z ≤ b)%Z ∧
       new_order false (query col) = num (z + 1).
Proof.
  intros (_ & Hall & _) Hb Hlast.
  destruct (last_lookup_Some _ _ Hlast) as [pre Hpre]. rewrite Hpre in Hall |- *.
  apply Forall_app in Hall as [_ Hl]. apply Forall_cons in Hl as [(z & Hz & Hbound) _].
  exists z. split; [done|]. split; [done|].
  rewrite new_order_append. unfold order_or. rewrite Hz. apply add_one. lia.
Qed.

(** The key a top insertion computes on natural keys up to [b < 2^52]: the
    head's key plus one half, exactly. *)
Lemma new_order_top_exact b col h rest :
  keys_upto b (query col) → (b < 2 ^ 52)%Z → query col = h :: rest →
  ∃ z, order h.2 = Some (num z) ∧ (0 ≤ z ≤ b)%Z ∧
       new_order true (query col) = (num z + Q2Qc (1 # 2))%Qc.
Proof.
  intros (_ & Hall & _) Hb Hq. rewrite Hq in Hall |- *.
  apply Forall_cons in Hall as [(z & Hz & Hbound) _].
  exists z. split; [done|]. split; [done|].
  rewrite new_order_top. unfold order_or. rewrite Hz. apply add_half. lia.
Qed.

Lemma query_addToQueue_append_upto b col v newId now :
  col !! newId = None → keys_upto b (query col) → (b < 2 ^ 53)%Z →
  query (addToQueue v false newId now col) =
    query col ++ [(newId, {| video := v; createdAt := now;
                             order := Some (new_order false (query col)) |})].
Proof.
  intros Hfresh Hkeys Hb. apply query_addToQueue_append; [done|].
  intros l Hlast.
  destruct (new_order_append_exact _ _ _ Hkeys Hb Hlast) as (z & Hz & _ & ->).
  rewrite Hz. apply num_lt. lia.
Qed.

(** On natural keys below [2^52] a top insertion lands right after the
    head. *)
Lemma query_addToQueue_top_upto b col v newId now h rest :
  col !! newId = None → query col = h :: rest →
  keys_upto b (query col) → (b < 2 ^ 52)%Z →
  query (addToQueue v true newId now col) =
    renumber (h :: (newId, {| video := v; createdAt := now;
                              order := Some (new_order true (query col)) |}) :: rest).
Proof.
  intros Hfresh Hq Hkeys Hb.
  destruct (new_order_top_exact _ _ _ _ Hkeys Hb Hq) as (z & Hz & Hbound & Hnew).
  apply query_addToQueue_top; [done..| |]; rewrite Hnew.
  - rewrite Hz. by apply num_lt_half.
  - destruct Hkeys as ([Hint Hsorted] & _). rewrite Hq in Hint, Hsorted.
    apply Forall_cons in Hint as [_ Hint].
    apply StronglySorted_cons in Hsorted as [Hlt _].
    apply Forall_forall. intros d Hd.
    destruct (proj1 (Forall_forall _ _) Hint d Hd) as [zd Hzd].
    pose proof (proj1 (Forall_forall _ _) Hlt d Hd) as Hhd.
    unfold key_lt in Hhd. rewrite Hz, Hzd in Hhd. simpl in Hhd.
    rewrite num_compare in Hhd. apply (proj1 (Z.compare_lt_iff _ _)) in Hhd.
    rewrite Hzd. by apply num_half_lt.
Qed.

Lemma keys_upto_normalizeQueue b col :
  keys_upto b (query col) → keys_upto b (query (normalizeQueue col)).
Proof.
  intros (_ & _ & Hlen). rewrite query_normalizeQueue. by apply keys_upto_renumber.
Qed.

Lemma keys_upto_advanceSong b col :
  keys_upto b (query col) → keys_upto b (query (advanceSong col)).
Proof.
  intros (_ & _ & Hlen). rewrite query_advanceSong. apply keys_upto_renumber.
  destruct (query col); simpl in *; lia.
Qed.

Lemma keys_upto_deleteDoc b col ref :
  keys_upto b (query col) → keys_upto b (query (deleteDoc ref col)).
Proof.
  intros (Hkeys & Hall & Hlen). split; [by apply integer_keys_deleteDoc|].
  destruct (col !! ref) as [doc|] eqn:Hdoc.
  - destruct (query_deleteDoc_split _ _ _ Hdoc) as (pre & post & Hq & ->).
    rewrite Hq in Hall, Hlen. rewrite length_app in *. simpl in Hlen.
    apply Forall_app in Hall as [Hpre Hpost].
    apply Forall_cons in Hpost as [_ Hpost].
    split; [by apply Forall_app|lia].
  - unfold deleteDoc. by rewrite delete_id.
Qed.

(** On natural keys below [2^53] the append key lies strictly above every
    key of the queue. *)
Lemma append_key_strictly_above b col :
  keys_upto b (query col) → (b < 2 ^ 53)%Z →
  Forall (λ d, ∀ k, order d.2 = Some k → (k < new_order false (query col))%Qc)
    (query col).
Proof.
  intros Hkeys Hb. pose proof Hkeys as (_ & Hall & _).
  destruct (last (query col)) as [l|] eqn:Hlast.
  - destruct (new_order_append_exact b _ _ Hkeys Hb Hlast) as (zl & Hzl & _ & ->).
    apply Forall_forall. intros d Hd k Hk.
    destruct (proj1 (Forall_forall _ _) Hall d Hd) as (zd & Hzd & _).
    pose proof (proj1 (Forall_forall _ _) (query_last_max _ _ Hlast) d Hd) as Hle.
    destruct (doc_le_order_le _ _ _ Hle Hzd) as (m & Hm & Hzm).
    rewrite Hzl in Hm. injection Hm as <-. rewrite Hzd in Hk. injection Hk as <-.
    pose proof (proj1 (Qcle_alt _ _) Hzm) as Hcmp. rewrite num_compare in Hcmp.
    change (zd ≤ zl)%Z in Hcmp.
    apply Qclt_alt. rewrite num_compare. apply Z.compare_lt_iff. lia.
  - apply last_None in Hlast. by rewrite Hlast.
Qed.

(** An add moves the bound by one. *)
Lemma keys_upto_addToQueue b col v isTop newId now :
  col !! newId = None → keys_upto b (query col) → (0 ≤ b < 2 ^ 52)%Z →
  keys_upto (b + 1) (query (addToQueue v isTop newId now col)).
Proof.
  intros Hfresh Hkeys Hb. pose proof Hkeys as (Hint & Hall & Hlen).
  destruct isTop.
  { destruct (query col) as [|h rest] eqn:Hq.
    - apply query_nil in Hq. subst col. rewrite query_addToQueue_first.
      change [(newId, {| video := v; createdAt := now; order := Some (num 0) |})]
        with (renumber [(newId, {| video := v; createdAt := now; order := None |})]).
      apply keys_upto_renumber. simpl. lia.
    - rewrite (query_addToQueue_top_upto b col v newId now h rest);
        [|done|done|by rewrite Hq|lia].
      apply keys_upto_renumber. simpl in *. lia. }
  rewrite (query_addToQueue_append_upto b) by (done || lia).
  assert (∃ z, new_order false (query col) = num z ∧ (0 ≤ z ≤ b + 1)%Z ∧
               Forall (λ d, key_lt d (newId, {| video := v; createdAt := now;
                                  order := Some (num z) |})) (query col))
    as (z & -> & Hz & Habove).
  { destruct (last (query col)) as [l|] eqn:Hlast.
    - destruct (new_order_append_exact b _ _ Hkeys ltac:(lia) Hlast)
        as (zl & Hzl & Hbound & ->).
      exists (zl + 1)%Z. split; [done|]. split; [lia|].
      apply Forall_forall. intros d Hd.
      destruct (proj1 (Forall_forall _ _) Hall d Hd) as (zd & Hzd & _).
      pose proof (proj1 (Forall_forall _ _) (query_last_max _ _ Hlast) d Hd) as Hle.
      destruct (doc_le_order_le _ _ _ Hle Hzd) as (m & Hm & Hzm).
      rewrite Hzl in Hm. injection Hm as <-.
      pose proof (proj1 (Qcle_alt _ _) Hzm) as Hcmp. rewrite num_compare in Hcmp.
      change (zd ≤ zl)%Z in Hcmp.
      unfold key_lt. cbn [snd order]. rewrite Hzd. apply num_lt. lia.
    - apply last_None in Hlast. rewrite Hlast, new_order_empty.
      exists 0%Z. split; [done|]. split; [lia|constructor]. }
  split; [split|split].
  - apply Forall_app. split; [by destruct Hint|]. constructor; [by eexists|done].
  - apply StronglySorted_app_2; [|by destruct Hint|by repeat constructor].
    intros d x Hd Hx%list_elem_of_singleton. subst x.
    by apply (proj1 (Forall_forall _ _) Habove).
  - apply Forall_app. split.
    + eapply Forall_impl; [exact Hall|]. intros d (zd & Hzd & Hbd).
      exists zd. split; [done|lia].
    + constructor; [|done]. by exists z.
  - rewrite length_app. simpl. lia.
Qed.

(** The sample queues, with their keys. *)
Lemma query_three_appended :
  query three_appended =
    [("doc1", {| video := a_video "A"; createdAt := 1; order := Some (num 0) |});
     ("doc2", {| video := a_video "B"; createdAt := 2; order := Some (num 1) |});
     ("doc3", {| video := a_video "C"; createdAt := 3; order := Some (num 2) |})].
Proof.
  vm_compute. repeat first [reflexivity | apply Qc_is_canon; by vm_compute | f_equal].
Qed.

Lemma query_gapped :
  query gapped =
    [("doc1", {| video := a_video "A"; createdAt := 1; order := Some (num 0) |});
     ("doc3", {| video := a_video "C"; createdAt := 3; order := Some (num 2) |})].
Proof.
  vm_compute. repeat first [reflexivity | apply Qc_is_canon; by vm_compute | f_equal].
Qed.

Lemma keys_upto_three_appended : keys_upto 3 (query three_appended).
Proof.
  unfold three_appended.
  apply (keys_upto_addToQueue 2); [by vm_compute| |lia].
  apply (keys_upto_addToQueue 1); [by vm_compute| |lia].
  apply (keys_upto_addToQueue 0); [by vm_compute| |lia].
  rewrite query_empty. by apply keys_upto_nil.
Qed.

Lemma keys_upto_gapped : keys_upto 3 (query gapped).
Proof. apply keys_upto_deleteDoc, keys_upto_three_appended. Qed.

End FirestoreFacts.
(** * The queue claims on the Socket.io server *)
Module QueueClaims.
Import Js JsFacts Server ServerFacts Samples.

Implicit Types (sid : nat) (st : server) (roomId u : string)
  (queue newQueue rest pre post : list QueueItem) (h x : QueueItem).

(** C1, as the code has it.  In a room whose queue is [h :: rest], a pin
    leaves the head entry [h] where it is, an accepted or rejected reorder
    leaves an entry with the id of [h] at the head, and a removal by an id
    other than the head's leaves [h] at the head.  A removal by the head's
    own id is not refused: it filters the head out, together with every
    other entry of that id. *)
Theorem head_kept_by_tail_ops sid st roomId h rest op :
  current_queue sid st = Some (roomId, h :: rest) →
  (op ≠ op_remove (uuid h) →
     ∃ h' rest', rooms (apply_tail_op sid op st).1 !! roomId = Some (h' :: rest') ∧
                 uuid h' = uuid h ∧
                 ((∀ newQueue, op ≠ op_reorder newQueue) → h' = h)) ∧
  (op = op_remove (uuid h) →
     ∃ queue', rooms (apply_tail_op sid op st).1 !! roomId = Some queue' ∧
               queue' = filter (λ s, negb (has_uuid (uuid h) s)) rest ∧
               Forall (λ y, uuid y ≠ uuid h) queue').
Proof.
  intros Hq. pose proof (proj1 (current_queue_Some _ _ _ _) Hq) as (_ & _ & Hr).
  split.
  - intros Hop. destruct op as [u|newQueue|u]; simpl.
    + destruct (pinSong_keeps_head sid st roomId h rest u Hq) as [rest' Hrest'].
      by exists h, rest'.
    + destruct (reorder_guard (h :: rest) newQueue) eqn:Hg.
      * rewrite (reorderQueue_accepted _ _ _ _ _ Hq Hg). simpl.
        apply reorder_guard_true in Hg
          as (h0 & rest0 & h' & rest' & [= <- <-] & -> & Hh).
        exists h', rest'. rewrite lookup_insert_eq.
        split; [done|]. split; [done|].
        intros Hno. by destruct (Hno (h' :: rest')).
      * rewrite (reorderQueue_rejected _ _ _ _ _ Hq Hg). simpl.
        exists h, rest. split; [done|]. split; [done|].
        intros Hno. by destruct (Hno newQueue).
    + rewrite (removeSong_outcome _ _ _ _ _ Hq). simpl.
      rewrite lookup_insert_eq.
      assert (has_uuid u h = false) as ->.
      { apply has_uuid_false. intros Heq. apply Hop. by rewrite Heq. }
      simpl. by eexists _, _.
  - intros ->. simpl. rewrite (removeSong_outcome _ _ _ _ _ Hq). simpl.
    rewrite lookup_insert_eq.
    assert (has_uuid (uuid h) h = true) as -> by by apply has_uuid_true.
    simpl. eexists; repeat split. apply filter_drops_uuid.
Qed.

(** In the room [A; B; C] a pin of [C] leaves [A] at the head. *)
Lemma head_kept_by_tail_ops_witness :
  current_queue 1 (room_state [A; B; C]) = Some ("room1", [A; B; C]) ∧
  (∃ h' rest',
     rooms (apply_tail_op 1 (op_pin "C") (room_state [A; B; C])).1 !! "room1"
       = Some (h' :: rest') ∧ uuid h' = uuid A ∧
     ((∀ newQueue, op_pin "C" ≠ op_reorder newQueue) → h' = A)).
Proof.
  split; [reflexivity|].
  apply (head_kept_by_tail_ops 1 (room_state [A; B; C]) "room1" A [B; C] (op_pin "C"));
    [reflexivity|discriminate].
Defined.

(** C1 as stated fails: [removeSong] with the head's id removes the head.
    In the room [A; B], removing the id of [A] leaves [B]. *)
Lemma removeSong_removes_head :
  current_queue 1 (room_state [A; B]) = Some ("room1", [A; B]) ∧
  rooms (apply_tail_op 1 (op_remove (uuid A)) (room_state [A; B])).1 !! "room1"
    = Some [B] ∧
  A ∉ [B].
Proof.
  split; [reflexivity|]. split; [reflexivity|].
  intros Hin. apply list_elem_of_singleton in Hin. discriminate Hin.
Qed.

(** C2, as the code has it.  A proposal [newQueue] is installed exactly
    when the connection is in a room whose queue is not empty, the proposal
    is not empty, and both start with entries of the same id.  The new
    queue is then handed to [saveRooms], which calls [writeFileSync] once
    and leaves the new rooms in the file unless that call throws, and it is
    broadcast to the room.  Otherwise no queue and no file changes and
    nothing is emitted: the store's sequence is not sent back to the
    proposer.  The handler then returns at once, except for a connection
    bound to a name that [rooms] only inherits, where it has no queue: it
    throws when the inherited value has a positive [length] and the
    proposal is not empty. *)
Theorem reorderQueue_accepts_iff_head_matches sid st newQueue :
  (∀ roomId h rest h' rest',
     current_queue sid st = Some (roomId, h :: rest) →
     newQueue = h' :: rest' → uuid h' = uuid h →
     reorderQueue sid newQueue st =
       (saveRooms (set_rooms (insert roomId newQueue) st),
        [(to_room roomId, queueUpdated newQueue)]) ∧
     rooms (reorderQueue sid newQueue st).1 = <[roomId := newQueue]> (rooms st) ∧
     writes (reorderQueue sid newQueue st).1 = S (writes st) ∧
     disk (reorderQueue sid newQueue st).1 =
       (if writeFileSync_throws st (writes st) then disk st
        else <[roomId := newQueue]> (rooms st)) ∧
     threw (reorderQueue sid newQueue st).1 = threw st ∧
     (reorderQueue sid newQueue st).2 = [(to_room roomId, queueUpdated newQueue)]) ∧
  ((¬ ∃ roomId h rest h' rest',
        current_queue sid st = Some (roomId, h :: rest) ∧
        newQueue = h' :: rest' ∧ uuid h' = uuid h) →
     rooms (reorderQueue sid newQueue st).1 = rooms st ∧
     disk (reorderQueue sid newQueue st).1 = disk st ∧
     writes (reorderQueue sid newQueue st).1 = writes st ∧
     (reorderQueue sid newQueue st).2 = [] ∧
     match guard sid st with
     | Some (roomId, js_inherited name) =>
         reorderQueue sid newQueue st =
           (if inherited_length_positive name && (0 <? length newQueue)
            then throw st else st, [])
     | _ => reorderQueue sid newQueue st = (st, [])
     end).
Proof.
  split.
  - intros roomId h rest h' rest' Hq -> Hh.
    rewrite (reorderQueue_accepted _ _ _ _ _ Hq); [done|].
    apply reorder_guard_true. by exists h, rest, h', rest'.
  - intros Hrej.
    destruct (guard_cases sid st)
      as [[Hg Hq]|[(roomId & queue & Hg & Hq)|(roomId & Hg & Hq & _)]].
    + rewrite Hg. unfold reorderQueue. by rewrite Hg.
    + rewrite Hg.
      assert (reorderQueue sid newQueue st = (st, [])) as ->; [|done].
      apply (reorderQueue_rejected _ _ _ _ _ Hq).
      destruct (reorder_guard queue newQueue) eqn:Hguard; [|done].
      apply reorder_guard_true in Hguard as (h & rest & h' & rest' & -> & -> & Hh).
      destruct Hrej. by exists roomId, h, rest, h', rest'.
    + rewrite Hg. unfold reorderQueue. rewrite Hg.
      by destruct (inherited_length_positive roomId && (0 <? length newQueue)).
Qed.

(** The accepted and the rejected proposal of the stale-reorder example;
    the accepted one reaches the file. *)
Lemma reorderQueue_accepts_iff_head_matches_witness :
  (current_queue 1 (room_state [A; B; C]) = Some ("room1", [A; B; C]) ∧
   rooms (reorderQueue 1 [A; C; B] (room_state [A; B; C])).1
     = <["room1" := [A; C; B]]> (rooms (room_state [A; B; C])) ∧
   disk (reorderQueue 1 [A; C; B] (room_state [A; B; C])).1
     = <["room1" := [A; C; B]]> (rooms (room_state [A; B; C])) ∧
   (reorderQueue 1 [A; C; B] (room_state [A; B; C])).2
     = [(to_room "room1", queueUpdated [A; C; B])]) ∧
  (current_queue 1 (room_state [B; C]) = Some ("room1", [B; C]) ∧
   reorderQueue 1 [A; C; B] (room_state [B; C]) = (room_state [B; C], [])).
Proof.
  split; (split; [reflexivity|]).
  - destruct (proj1 (reorderQueue_accepts_iff_head_matches 1 (room_state [A; B; C])
                       [A; C; B]) "room1" A [B; C] A [C; B])
      as (_ & Hrooms & _ & Hdisk & _ & Hout); [reflexivity..|].
    split; [exact Hrooms|]. split; [exact Hdisk|exact Hout].
  - destruct (proj2 (reorderQueue_accepts_iff_head_matches 1 (room_state [B; C])
                       [A; C; B])) as (_ & _ & _ & _ & Hsame).
    + intros (roomId & h & rest & h' & rest' & Hq & Hnew & Hh).
      injection Hq as _ <- _. injection Hnew as <- _. discriminate Hh.
    + exact Hsame.
Defined.

(** C2 as stated fails on the rejection path.  After an advance has turned
    [A; B; C] into [B; C], the stale proposal [A; C; B] is rejected, and the
    handler emits nothing: no [queueUpdated [B; C]] goes to the proposer. *)
Lemma stale_reorder_is_not_redelivered :
  current_queue 1 (songEnded 2 (room_state [A; B; C])).1 = Some ("room1", [B; C]) ∧
  reorder_guard [B; C] [A; C; B] = false ∧
  (reorderQueue 1 [A; C; B] (songEnded 2 (room_state [A; B; C])).1).2 = [] ∧
  ¬ ∃ tgt, (tgt, queueUpdated [B; C])
             ∈ (reorderQueue 1 [A; C; B] (songEnded 2 (room_state [A; B; C])).1).2.
Proof.
  split; [reflexivity|]. split; [reflexivity|]. split; [reflexivity|].
  intros [tgt Hin]. by apply not_elem_of_nil in Hin.
Qed.

(** C5, as the code has it.  [pinSong] with an id moves the first entry with
    that id to index 1 when it sits at index 2 or later, keeping the order
    of all other entries, and saves and broadcasts the result.  When the id
    is that of the head or of the second entry, and also when no entry has
    the id, the handler changes nothing and emits nothing; no error is
    raised for an absent id.  The queue changes in the first case only. *)
Theorem pinSong_moves_from_third_on sid st roomId queue u :
  current_queue sid st = Some (roomId, queue) →
  (∀ h s pre x post,
     queue = h :: s :: pre ++ x :: post →
     Forall (λ y, uuid y ≠ u) (h :: s :: pre) → uuid x = u →
     rooms (pinSong sid u st).1 = <[roomId := h :: x :: s :: pre ++ post]> (rooms st) ∧
     (pinSong sid u st).2 = [(to_room roomId, queueUpdated (h :: x :: s :: pre ++ post))] ∧
     h :: x :: s :: pre ++ post ≠ queue) ∧
  (∀ h rest, queue = h :: rest → uuid h = u → pinSong sid u st = (st, [])) ∧
  (∀ h s rest, queue = h :: s :: rest → uuid s = u → pinSong sid u st = (st, [])) ∧
  (Forall (λ y, uuid y ≠ u) queue → pinSong sid u st = (st, [])) ∧
  (rooms (pinSong sid u st).1 !! roomId ≠ Some queue →
     ∃ h s pre x post, queue = h :: s :: pre ++ x :: post ∧
       Forall (λ y, uuid y ≠ u) (h :: s :: pre) ∧ uuid x = u).
Proof.
  intros Hq. pose proof (proj1 (current_queue_Some _ _ _ _) Hq) as (_ & _ & Hr).
  repeat split.
  - subst queue. by erewrite pinSong_move.
  - subst queue. by erewrite pinSong_move.
  - subst queue. intros [= Hxs _]. subst x.
    match goal with Hall : Forall _ (_ :: s :: _) |- _ => inv Hall as [|?? _ Hall'] end.
    by inv Hall'.
  - intros h rest -> Hh. by eapply pinSong_head.
  - intros h s rest -> Hs. by eapply pinSong_second.
  - intros Hall. by eapply pinSong_absent.
  - intros Hchanged.
    destruct (pin_cases u queue)
      as [Ha|[(h & rest & -> & Hh)|[(h & s & rest & -> & _ & Hs)|Hmove]]];
      [exfalso; apply Hchanged..|done].
    + by erewrite pinSong_absent.
    + by erewrite pinSong_head.
    + by erewrite pinSong_second.
Qed.

(** In the room [A; B; C; D] a pin of [D] gives [A; D; B; C]; a pin of [A]
    or of [B] gives nothing. *)
Lemma pinSong_moves_from_third_on_witness :
  current_queue 1 (room_state [A; B; C; D]) = Some ("room1", [A; B; C; D]) ∧
  (pinSong 1 "D" (room_state [A; B; C; D])).2
    = [(to_room "room1", queueUpdated [A; D; B; C])] ∧
  pinSong 1 "A" (room_state [A; B; C; D]) = (room_state [A; B; C; D], []) ∧
  pinSong 1 "B" (room_state [A; B; C; D]) = (room_state [A; B; C; D], []).
Proof.
  split; [reflexivity|].
  destruct (pinSong_moves_from_third_on 1 (room_state [A; B; C; D]) "room1"
              [A; B; C; D] "D" eq_refl) as (Hmove & _).
  destruct (pinSong_moves_from_third_on 1 (room_state [A; B; C; D]) "room1"
              [A; B; C; D] "A" eq_refl) as (_ & Hhead & _).
  destruct (pinSong_moves_from_third_on 1 (room_state [A; B; C; D]) "room1"
              [A; B; C; D] "B" eq_refl) as (_ & _ & Hsecond & _).
  split; [|split].
  - apply (Hmove A B [C] D []); [reflexivity| |reflexivity].
    repeat constructor; discriminate.
  - apply (Hhead A [B; C; D]); reflexivity.
  - apply (Hsecond A B [C; D]); reflexivity.
Defined.

(** C5 as stated fails for an absent id: the handler does not fail.  In the
    room [A; B; C] a pin of the unknown id ["Z"] returns the same state and
    the same (empty) list of emissions as the pin of the head: nothing tells
    the two apart, and no error reaches the caller. *)
Lemma pinSong_absent_id_is_silent :
  current_queue 1 (room_state [A; B; C]) = Some ("room1", [A; B; C]) ∧
  Forall (λ y, uuid y ≠ "Z") [A; B; C] ∧
  pinSong 1 "Z" (room_state [A; B; C]) = (room_state [A; B; C], []) ∧
  pinSong 1 "Z" (room_state [A; B; C]) = pinSong 1 (uuid A) (room_state [A; B; C]).
Proof.
  split; [reflexivity|]. split; [|split; reflexivity].
  repeat constructor; discriminate.
Qed.

(** C8 fails for the room ids that the object [rooms] inherits from
    [Object.prototype].  For every other id, and for every id that is an
    own property of [rooms], [joinRoom] does what the claim says: it
    creates the room empty when it does not exist and leaves an existing
    room as it is, binds the connection to the room, and emits to that
    connection, and to it alone, the queue of the room as it stands, before
    the emissions of all later messages of a run.  For an id such as
    ["constructor"] that [rooms] inherits and does not own, the test
    [!rooms[roomId]] finds the inherited value: no room is created, no file
    is written, the connection is bound all the same and is sent the
    inherited value in place of a queue; its next [addSong] finds no array
    and throws. *)
Theorem joinRoom_misses_inherited_names :
  (∀ sid roomId st,
     roomId ∉ Object_prototype.*1 ∨ is_Some (rooms st !! roomId) →
     let snapshot := default [] (rooms st !! roomId) in
     (joinRoom sid roomId st).2 = [(to_socket sid, queueUpdated snapshot)] ∧
     rooms (joinRoom sid roomId st).1 =
       match rooms st !! roomId with
       | Some _ => rooms st
       | None => <[roomId := []]> (rooms st)
       end ∧
     rooms (joinRoom sid roomId st).1 !! roomId = Some snapshot ∧
     data_roomId (joinRoom sid roomId st).1 !! sid = Some roomId ∧
     (sid, roomId) ∈ joined (joinRoom sid roomId st).1 ∧
     rooms (joinRoom sid roomId (joinRoom sid roomId st).1).1
       = rooms (joinRoom sid roomId st).1 ∧
     ∀ before after st0,
       (run before st0).1 = st →
       (run (before ++ (sid, JoinRoom roomId) :: after) st0).2 =
         (run before st0).2 ++ (to_socket sid, queueUpdated snapshot)
           :: (run after (joinRoom sid roomId st).1).2) ∧
  (∀ sid roomId st s fresh,
     roomId ∈ Object_prototype.*1 → rooms st !! roomId = None →
     (joinRoom sid roomId st).2 = [(to_socket sid, queueUpdated_inherited roomId)] ∧
     rooms (joinRoom sid roomId st).1 = rooms st ∧
     disk (joinRoom sid roomId st).1 = disk st ∧
     writes (joinRoom sid roomId st).1 = writes st ∧
     data_roomId (joinRoom sid roomId st).1 !! sid = Some roomId ∧
     addSong sid s fresh (joinRoom sid roomId st).1
       = (throw (joinRoom sid roomId st).1, [])) ∧
  ((joinRoom 1 "constructor" fresh_state).2
     = [(to_socket 1, queueUpdated_inherited "constructor")] ∧
   rooms (joinRoom 1 "constructor" fresh_state).1 !! "constructor" = None ∧
   threw (addSong 1 (song A) "A" (joinRoom 1 "constructor" fresh_state).1).1 = true).
Proof.
  split; [|split].
  - intros sid roomId st Hid snapshot.
    assert (∃ st', joinRoom sid roomId st = (st', [(to_socket sid, queueUpdated snapshot)]) ∧
              rooms st' = match rooms st !! roomId with
                          | Some _ => rooms st
                          | None => <[roomId := []]> (rooms st)
                          end ∧
              rooms st' !! roomId = Some snapshot ∧
              data_roomId st' !! sid = Some roomId ∧ (sid, roomId) ∈ joined st')
      as (st' & Hjoin & Hrooms & Hsnap & Hdata & Hjoined).
    { unfold snapshot. destruct (rooms st !! roomId) as [queue|] eqn:Hr.
      - rewrite (joinRoom_existing _ _ _ _ Hr). eexists. split; [done|]. simpl.
        rewrite lookup_insert_eq. repeat split; [done|].
        apply elem_of_union. left. by apply elem_of_singleton.
      - destruct Hid as [Hout|[? [=]]].
        rewrite (joinRoom_new _ _ _ Hr Hout). eexists. split; [done|]. simpl.
        rewrite !lookup_insert_eq. repeat split.
        apply elem_of_union. left. by apply elem_of_singleton. }
    rewrite Hjoin. cbn [fst snd]. repeat split; try done.
    + by rewrite (joinRoom_existing _ _ _ _ Hsnap).
    + intros before after st0 Hst. rewrite run_app.
      destruct (run before st0) as [st1 out1]. simpl in Hst. subst st1.
      cbn [run handle]. rewrite Hjoin. by destruct (run after st').
  - intros sid roomId st s fresh Hin Hr.
    rewrite (joinRoom_inherited _ _ _ Hr Hin). cbn [fst snd].
    repeat split; try done.
    + simpl. by rewrite lookup_insert_eq.
    + unfold addSong.
      assert (guard sid (bind_socket sid roomId st)
              = Some (roomId, js_inherited roomId)) as ->; [|done].
      apply guard_inherited. simpl. by rewrite lookup_insert_eq.
  - by vm_compute.
Qed.

(** Joining the room [A; B] yields [queueUpdated [A; B]] before the
    broadcast of a later addition; joining a room that does not exist yet
    yields the empty queue. *)
Lemma joinRoom_misses_inherited_names_witness :
  (run ([] ++ (3, JoinRoom "room1") :: [(1, AddSong (song C) "C")]) (room_state [A; B])).2
    = [(to_socket 3, queueUpdated [A; B]); (to_room "room1", queueUpdated [A; B; C])] ∧
  (joinRoom 1 "room1" fresh_state).2 = [(to_socket 1, queueUpdated [])] ∧
  rooms (joinRoom 1 "room1" fresh_state).1 !! "room1" = Some [].
Proof.
  assert ("room1" ∉ Object_prototype.*1) as Hout.
  { apply (bool_decide_unpack _). by vm_compute. }
  destruct (proj1 joinRoom_misses_inherited_names 3 "room1" (room_state [A; B])
              (or_introl Hout))
    as (_ & _ & _ & _ & _ & _ & Hrun).
  destruct (proj1 joinRoom_misses_inherited_names 1 "room1" fresh_state
              (or_introl Hout))
    as (Hout1 & _ & Hroom & _).
  split; [|split].
  - rewrite (Hrun [] [(1, AddSong (song C) "C")] (room_state [A; B]) eq_refl).
    reflexivity.
  - exact Hout1.
  - exact Hroom.
Defined.

(** C10.  An accepted proposal is installed as it was sent: whenever the
    proposal starts with an entry carrying the head's id, the room's queue
    becomes the proposal.  Nothing compares the rest with the old queue:
    in the room [A; B; C] the proposal [A; C; C; X] is accepted, so the
    queue then holds [X], which was never queued, holds [C] twice, and has
    lost [B]. *)
Theorem reorderQueue_installs_verbatim :
  (∀ sid st roomId h rest h' rest',
     current_queue sid st = Some (roomId, h :: rest) → uuid h' = uuid h →
     rooms (reorderQueue sid (h' :: rest') st).1 !! roomId = Some (h' :: rest') ∧
     (reorderQueue sid (h' :: rest') st).2
       = [(to_room roomId, queueUpdated (h' :: rest'))]) ∧
  (current_queue 1 (room_state [A; B; C]) = Some ("room1", [A; B; C]) ∧
   rooms (reorderQueue 1 [A; C; C; X] (room_state [A; B; C])).1 !! "room1"
     = Some [A; C; C; X] ∧
   X ∈ [A; C; C; X] ∧ (X ∉ [A; B; C]) ∧
   B ∈ [A; B; C] ∧ (B ∉ [A; C; C; X]) ∧
   (¬ NoDup [A; C; C; X]) ∧ NoDup [A; B; C] ∧
   (¬ ([A; C; C; X] ≡ₚ [A; B; C]))).
Proof.
  split.
  - intros sid st roomId h rest h' rest' Hq Hh.
    rewrite (reorderQueue_accepted _ _ _ _ _ Hq).
    + simpl. by rewrite lookup_insert_eq.
    + apply reorder_guard_true. by exists h, rest, h', rest'.
  - split; [reflexivity|]. split; [reflexivity|].
    repeat split.
    + set_solver.
    + intros Hin. set_unfold in Hin. destruct Hin as [Hx|[Hx|[Hx|[]]]]; discriminate Hx.
    + set_solver.
    + intros Hin. set_unfold in Hin.
      destruct Hin as [Hx|[Hx|[Hx|[Hx|[]]]]]; discriminate Hx.
    + intros Hnd. inv Hnd as [|?? _ Hnd']. inv Hnd' as [|?? Hnin _].
      apply Hnin. by left.
    + repeat constructor; set_unfold; intros Hin.
      * destruct Hin as [Hx|[Hx|[]]]; discriminate Hx.
      * destruct Hin as [Hx|[]]; discriminate Hx.
      * done.
    + intros Hperm. apply Permutation_length in Hperm. discriminate Hperm.
Qed.

(** In the room [A; B; C] the proposal [A; X] becomes the queue. *)
Lemma reorderQueue_installs_verbatim_witness :
  current_queue 1 (room_state [A; B; C]) = Some ("room1", [A; B; C]) ∧
  rooms (reorderQueue 1 [A; X] (room_state [A; B; C])).1 !! "room1" = Some [A; X].
Proof.
  split; [reflexivity|].
  apply (proj1 reorderQueue_installs_verbatim 1 (room_state [A; B; C]) "room1"
           A [B; C] A [X]); reflexivity.
Defined.

End QueueClaims.

(** * The retry claim on the title-extraction proxy *)
Module RetryClaims.
Import Ai AiFacts AiSamples.

(** C9 at a provider that refuses two parameters in turn.  The Express
    server posts three requests for the one title-extraction request: the
    full body, the body without [reasoning], and the body without
    [reasoning] and [response_format], which succeeds.  That is two retries,
    where the comment in the code and the claim allow one retry and two
    requests.  Both names end up in the capability cache.  The Netlify
    function stops after the second request on the same provider, and its
    failure is then reported. *)
Theorem callAiOnceWithOptionalRetry_posts_three_times :
  let result :=
    callAiOnceWithOptionalRetry sample_parse picky_provider initial_payload idle_world in
  length (posted result.2) = 3 ∧
  (dom <$> posted result.2) =
    [dom initial_payload;
     dom initial_payload ∖ {["reasoning"]};
     dom initial_payload ∖ {["reasoning"; "response_format"]}] ∧
  status result.1.1 = 200%Z ∧
  AI_UNSUPPORTED_PARAMS result.2 = {["reasoning"; "response_format"]} ∧
  surfaced_failure result.1.1 = None ∧
  length (posted (netlify_call sample_parse picky_provider initial_payload idle_world).2) = 2 ∧
  surfaced_failure
    (netlify_call sample_parse picky_provider initial_payload idle_world).1.1 = Some 502%Z.
Proof.
  cbv zeta. split; [by vm_compute|]. split.
  { apply (bool_decide_unpack _). by vm_compute. }
  split; [by vm_compute|]. split.
  { apply (bool_decide_unpack _). by vm_compute. }
  split; [by vm_compute|]. split; by vm_compute.
Qed.

End RetryClaims.

(** * The claims on the position keys and on advance *)
Module OrderingClaims.
Import Js JsFacts Server ServerFacts Samples.
Import Firestore FirestoreFacts FirestoreSamples.

(** C3.  On the server [skipSong] and [songEnded] are the same function.
    On a room queue the call never throws: with the queue [h :: rest] it
    leaves [rest], saved and broadcast, and with an empty queue, as for a
    connection that is in no room, it changes nothing and emits nothing;
    every room keeps its queue or loses exactly its head.  (A connection
    bound to a name that [rooms] only inherits has no room queue: there the
    call changes no queue either, and throws when the inherited value has a
    positive [length].)  On the Firestore client [advanceSong] deletes the
    first document of the ordered collection, if any, and renumbers the
    others in their order; on an empty collection it writes nothing. *)
Theorem advance_removes_at_most_the_head :
  (∀ sid st,
     skipSong sid st = songEnded sid st ∧
     match guard sid st with
     | Some (roomId, js_array (h :: rest)) =>
         songEnded sid st =
           (saveRooms (set_rooms (insert roomId rest) st),
            [(to_room roomId, queueUpdated rest)]) ∧
         rooms (songEnded sid st).1 = <[roomId := rest]> (rooms st) ∧
         (songEnded sid st).2 = [(to_room roomId, queueUpdated rest)]
     | Some (roomId, js_array []) => songEnded sid st = (st, [])
     | None => songEnded sid st = (st, [])
     | Some (roomId, js_inherited name) =>
         songEnded sid st =
           (if inherited_length_positive name then throw st else st, [])
     end ∧
     (∀ roomId queue, current_queue sid st = Some (roomId, queue) →
        threw (songEnded sid st).1 = threw st) ∧
     ∀ roomId,
       rooms (songEnded sid st).1 !! roomId = rooms st !! roomId ∨
       ∃ h rest, rooms st !! roomId = Some (h :: rest) ∧
                 rooms (songEnded sid st).1 !! roomId = Some rest) ∧
  (∀ col,
     query (advanceSong col) = renumber (shift (query col)) ∧
     length (query (advanceSong col)) = length (query col) - 1) ∧
  advanceSong ∅ = ∅.
Proof.
  split; [|split; [|apply advanceSong_empty]].
  - intros sid st. split; [apply skipSong_songEnded|].
    destruct (guard_cases sid st)
      as [[Hg Hq]|[(roomId & [|h rest] & Hg & Hq)|(roomId & Hg & Hq & _)]];
      rewrite Hg.
    + rewrite (songEnded_no_room _ _ Hg). split; [done|]. split; [|by left].
      intros r q Hq'. by rewrite Hq in Hq'.
    + rewrite (songEnded_empty _ _ _ Hq). split; [done|]. split; [done|]. by left.
    + rewrite (songEnded_pop _ _ _ _ _ Hq). cbn [fst snd].
      rewrite rooms_committed. split; [by split|]. split; [done|].
      apply current_queue_Some in Hq as (_ & _ & Hr).
      intros r. destruct (decide (r = roomId)) as [->|Hne].
      * right. exists h, rest. by rewrite lookup_insert_eq.
      * left. by rewrite lookup_insert_ne.
    + rewrite (songEnded_inherited _ _ _ _ Hg).
      split; [by destruct (inherited_length_positive roomId)|]. split.
      * intros r q Hq'. by rewrite Hq in Hq'.
      * left. by destruct (inherited_length_positive roomId).
  - intros col. rewrite query_advanceSong. split; [done|].
    unfold renumber. rewrite renumber_from_length.
    destruct (query col); simpl; lia.
Qed.

(** C4, as the code has it.  On the server, for every queue, [addSong]
    with [isTop] set, in a room whose queue is not empty, puts the new entry
    at index 1, right after the head; otherwise (no [isTop], or an empty
    queue) it appends the entry; the new queue is saved and broadcast to the
    room.  On the Firestore client the same holds on the keys the client
    writes: when the keys are increasing natural numbers up to a bound below
    [2^52], [addToQueue] without [isTop] makes the new document the last of
    the query and with [isTop] the second, after the head; on an empty queue
    the new document is the only one.  It does not hold for every queue of
    the client. *)
Theorem add_after_head_or_at_end :
  (∀ sid st roomId queue s fresh,
     current_queue sid st = Some (roomId, queue) →
     let item := {| song := s; uuid := fresh |} in
     ∃ queue',
       rooms (addSong sid s fresh st).1 = <[roomId := queue']> (rooms st) ∧
       (addSong sid s fresh st).2 = [(to_room roomId, queueUpdated queue')] ∧
       (isTop s = true → ∀ h rest, queue = h :: rest →
          queue' = h :: item :: rest ∧
          queue' !! 0 = Some h ∧ queue' !! 1 = Some item) ∧
       (isTop s = false ∨ queue = [] → queue' = queue ++ [item])) ∧
  (∀ col v newId now b,
     col !! newId = None → keys_upto b (query col) → (b < 2 ^ 52)%Z →
     let doc := λ top, (newId, {| video := v; createdAt := now;
                                  order := Some (new_order top (query col)) |}) in
     query (addToQueue v false newId now col) = query col ++ [doc false] ∧
     (∀ h rest, query col = h :: rest →
        query (addToQueue v true newId now col) = renumber (h :: doc true :: rest)) ∧
     (query col = [] →
        query (addToQueue v true newId now col) = renumber [doc true])).
Proof.
  split.
  - intros sid st roomId queue s fresh Hq item. unfold addSong.
    rewrite (guard_of_queue _ _ _ _ Hq). fold item.
    eexists. split; [reflexivity|]. split; [reflexivity|]. split.
    + by intros -> h rest ->.
    + intros [->| ->]; [done|]. simpl. by rewrite andb_false_r.
  - intros col v newId now b Hfresh Hkeys Hb doc.
    split; [apply (query_addToQueue_append_upto b); (done || lia)|]. split.
    + intros h rest Hq. by apply (query_addToQueue_top_upto b).
    + intros Hq. apply query_nil in Hq. subst col.
      rewrite query_addToQueue_first. unfold doc.
      by rewrite query_empty, new_order_empty.
Qed.

(** The two examples of C4 on the server, [A] becoming [A; B] and
    [A; C; D] becoming [A; B; C; D], and a top insertion into the client's
    queue of three appended songs. *)
Lemma add_after_head_or_at_end_witness :
  (current_queue 1 (room_state [A]) = Some ("room1", [A]) ∧
   rooms (addSong 1 (song B) "B" (room_state [A])).1 !! "room1" = Some [A; B]) ∧
  (current_queue 1 (room_state [A; C; D]) = Some ("room1", [A; C; D]) ∧
   rooms (addSong 1 (song B) "B" (room_state [A; C; D])).1 !! "room1"
     = Some [A; B; C; D]) ∧
  (three_appended !! "doc4" = None ∧
   (query three_appended).*1 = ["doc1"; "doc2"; "doc3"] ∧
   (query (addToQueue (a_video "D") true "doc4" 4 three_appended)).*1
     = ["doc1"; "doc4"; "doc2"; "doc3"]).
Proof.
  destruct add_after_head_or_at_end as [Hserver Hclient].
  split; [|split]; (split; [reflexivity|]).
  - destruct (Hserver 1 (room_state [A]) "room1" [A] (song B) "B")
      as (queue' & Hrooms & _ & Htop & _); [reflexivity|].
    rewrite Hrooms, lookup_insert_eq. f_equal.
    by destruct (Htop eq_refl A [] eq_refl) as [-> _].
  - destruct (Hserver 1 (room_state [A; C; D]) "room1" [A; C; D] (song B) "B")
      as (queue' & Hrooms & _ & Htop & _); [reflexivity|].
    rewrite Hrooms, lookup_insert_eq. f_equal.
    by destruct (Htop eq_refl A [C; D] eq_refl) as [-> _].
  - split; [by rewrite query_three_appended|].
    destruct (Hclient three_appended (a_video "D") "doc4" 4%Z 3%Z eq_refl
                keys_upto_three_appended ltac:(done)) as (_ & Htop & _).
    rewrite (Htop _ _ query_three_appended). reflexivity.
Defined.

(** C4 as stated fails on the Firestore client.  With the keys 0, 1/2 and 1
    a top insertion computes the key 0 + 1/2 again; the new document ties
    with the second one, the document ids decide, and the new document
    comes third, not second. *)
Lemma top_insertion_lands_third :
  (λ d, (d.1, order d.2)) <$> query half_left
    = [("a", Some (num 0)); ("b", Some (Q2Qc (1 # 2))); ("c", Some (num 1))] ∧
  half_left !! "z" = None ∧
  new_order true (query half_left) = Q2Qc (1 # 2) ∧
  (query (addToQueue (a_video "Z") true "z" 4 half_left)).*1 = ["a"; "b"; "z"; "c"] ∧
  (query (addToQueue (a_video "Z") true "z" 4 half_left)).*1 !! 1 ≠ Some "z".
Proof.
  split; [by vm_compute|]. split; [by vm_compute|].
  split; [apply Qc_is_canon; by vm_compute|].
  assert ((query (addToQueue (a_video "Z") true "z" 4 half_left)).*1
          = ["a"; "b"; "z"; "c"]) as -> by by vm_compute.
  split; [done|]. discriminate.
Qed.

(** C6.  [normalizeQueue] commits one batch.  Afterwards the query returns
    the same documents in the same order, with the same fields apart from
    [order], and the keys are 0, 1, ..., n-1; the first document has key 0. *)
Theorem normalizeQueue_renumbers_in_order col :
  let before := query col in
  let after := query (normalizeQueue col) in
  normalizeQueue col = commit (renumber_batch 0 before) col ∧
  after.*1 = before.*1 ∧
  (λ d, video d.2) <$> after = (λ d, video d.2) <$> before ∧
  (λ d, createdAt d.2) <$> after = (λ d, createdAt d.2) <$> before ∧
  (λ d, order d.2) <$> after =
    (λ n, Some (num (Z.of_nat n))) <$> seq 0 (length before) ∧
  head after = (λ d, (d.1, with_order (Some (num 0)) d.2)) <$> head before.
Proof.
  intros before after. unfold after. rewrite query_normalizeQueue. fold before.
  split.
  { unfold normalizeQueue. fold before.
    destruct (length before =? 0) eqn:Hlen; [|done].
    apply Nat.eqb_eq, nil_length_inv in Hlen. by rewrite Hlen. }
  unfold renumber.
  split; [apply renumber_from_ids|].
  split; [apply renumber_from_videos|].
  split; [apply renumber_from_createdAt|].
  split; [apply renumber_from_orders|].
  by destruct before.
Qed.

(** C7, as the code has it.  The keys are JavaScript numbers and the sums
    are rounded.  On a non-empty queue with head [h], a top insertion gives
    the new document the key of the head plus one half (the key 0 standing
    in for a null key); the key of the second entry plays no part.  When the
    head's key is a natural number below [2^52] the sum is exact, and it is
    the midpoint of the head's and the second entry's keys when these are
    consecutive integers.  An ordinary append gives the key of the last
    document plus 1; on increasing natural keys up to a bound below [2^53]
    the sum is exact and lies strictly above every key of the queue, so that
    the new document is the last of the next query.  From [2^53] on adding
    1, and from [2^52] on adding one half, can round onto the key it
    started from. *)
Theorem addToQueue_position_keys col h rest :
  query col = h :: rest →
  new_order true (query col) = add (order_or h.2 (num 0)) (Q2Qc (1 # 2)) ∧
  (∀ n, order h.2 = Some (num n) → (0 ≤ n < 2 ^ 52)%Z →
     new_order true (query col) = (num n + Q2Qc (1 # 2))%Qc ∧
     ∀ s rest', rest = s :: rest' → order s.2 = Some (num (n + 1)) →
       new_order true (query col) = ((num n + num (n + 1)) / num 2)%Qc) ∧
  (∃ l, last (query col) = Some l ∧
        Forall (λ d, doc_le d l) (query col) ∧
        new_order false (query col) =
          add (order_or l.2 (num (Z.of_nat (length (query col)) - 1))) (num 1)) ∧
  (∀ b, keys_upto b (query col) → (b < 2 ^ 53)%Z →
     (∃ l z, last (query col) = Some l ∧ order l.2 = Some (num z) ∧
             new_order false (query col) = (num z + num 1)%Qc) ∧
     Forall (λ d, ∀ k, order d.2 = Some k → (k < new_order false (query col))%Qc)
       (query col) ∧
     (∀ v newId now, col !! newId = None →
        query (addToQueue v false newId now col) =
          query col ++ [(newId, {| video := v; createdAt := now;
                                   order := Some (new_order false (query col)) |})])) ∧
  (add (num (2 ^ 53)) (num 1) = num (2 ^ 53) ∧
   add (num (2 ^ 52)) (Q2Qc (1 # 2)) = num (2 ^ 52)).
Proof.
  intros Hq. split; [by rewrite Hq|]. split; [|split; [|split]].
  - intros n Hh Hn.
    assert (new_order true (query col) = (num n + Q2Qc (1 # 2))%Qc) as Hexact.
    { rewrite Hq, new_order_top. unfold order_or. rewrite Hh. by apply add_half. }
    split; [done|]. intros s rest' -> Hs. rewrite Hexact. apply half_is_midpoint.
  - destruct (last (query col)) as [l|] eqn:Hlast.
    + exists l. split; [done|]. split; [by apply query_last_max|].
      destruct (last_lookup_Some _ _ Hlast) as [pre Hpre].
      rewrite Hpre. apply new_order_append.
    + apply last_None in Hlast. by rewrite Hq in Hlast.
  - intros b Hkeys Hb. split; [|split].
    + destruct (last (query col)) as [l|] eqn:Hlast.
      * destruct (new_order_append_exact b _ _ Hkeys Hb Hlast) as (z & Hz & _ & Hnew).
        exists l, z. split; [done|]. split; [done|]. by rewrite <-num_add.
      * apply last_None in Hlast. by rewrite Hq in Hlast.
    + by apply (append_key_strictly_above b).
    + intros v newId now Hfresh. by apply (query_addToQueue_append_upto b).
  - split; [apply add_one_collides|apply add_half_collides].
Qed.

(** With the keys 0 and 2 a top insertion takes the key 1/2 and an append
    the key 3. *)
Lemma addToQueue_position_keys_witness :
  query gapped =
    [("doc1", {| video := a_video "A"; createdAt := 1; order := Some (num 0) |});
     ("doc3", {| video := a_video "C"; createdAt := 3; order := Some (num 2) |})] ∧
  new_order true (query gapped) = Q2Qc (1 # 2) ∧
  new_order false (query gapped) = num 3.
Proof.
  split; [apply query_gapped|].
  destruct (addToQueue_position_keys gapped _ _ query_gapped)
    as (_ & Htop & _ & Happend & _).
  split.
  - destruct (Htop 0%Z) as [-> _]; [done|done|].
    apply Qc_is_canon. by vm_compute.
  - destruct (Happend 3%Z keys_upto_gapped) as ((l & z & Hlast & Hz & ->) & _); [done|].
    rewrite query_gapped in Hlast. injection Hlast as <-.
    cbn [snd order] in Hz. assert (num 2 = num z) as Hn by congruence.
    assert (z = 2%Z) as ->.
    { apply Z.compare_eq. rewrite <-num_compare, <-Hn, num_compare. done. }
    apply Qc_is_canon. by vm_compute.
Defined.

(** C7 as stated fails.  With the keys 0 and 2 (three appends, then the
    second entry deleted) a top insertion takes the key 1/2, not the
    midpoint 1 of the keys around the insertion point; with the keys 0, 1, 2
    it takes 1/2 as well.  The key of the second entry differs and the new
    key does not, so it is no midpoint with the second entry's key and no
    fixed distance below it. *)
Lemma top_key_ignores_second_key :
  (λ d, order d.2) <$> query gapped = [Some (num 0); Some (num 2)] ∧
  (λ d, order d.2) <$> query three_appended = [Some (num 0); Some (num 1); Some (num 2)] ∧
  new_order true (query gapped) = Q2Qc (1 # 2) ∧
  new_order true (query three_appended) = Q2Qc (1 # 2) ∧
  new_order true (query gapped) ≠ ((num 0 + num 2) / num 2)%Qc ∧
  ¬ ∃ ε : Qc, new_order true (query gapped) = (num 2 - ε)%Qc ∧
              new_order true (query three_appended) = (num 1 - ε)%Qc.
Proof.
  assert (new_order true (query gapped) = Q2Qc (1 # 2)) as Hg
    by (apply Qc_is_canon; by vm_compute).
  assert (new_order true (query three_appended) = Q2Qc (1 # 2)) as Ht
    by (apply Qc_is_canon; by vm_compute).
  split; [by rewrite query_gapped|]. split; [by rewrite query_three_appended|].
  split; [done|]. split; [done|]. split.
  - rewrite Hg. intros H. apply (f_equal this) in H. vm_compute in H. discriminate.
  - intros (ε & H2 & H1).
    assert (new_order true (query gapped) = new_order true (query three_appended))
      as Heq by by rewrite Hg, Ht.
    rewrite H2, H1 in Heq.
    apply (f_equal (λ x, x + ε)%Qc) in Heq. ring_simplify in Heq.
    apply (f_equal this) in Heq. vm_compute in Heq. discriminate.
Qed.

End OrderingClaims.

(** * Further facts about the socket handlers *)
Module ServerInvariants.
Import Js JsFacts Server ServerFacts ServerShape Samples.


Implicit Types (sid : nat) (st : server) (roomId u : string) (m : message)
  (queue newQueue rest pre post : list QueueItem) (h x : QueueItem).

Lemma message_is_join m : (∃ r, m = JoinRoom r) ∨ (∀ r, m ≠ JoinRoom r).
Proof. destruct m; try (by right); left; by eexists. Qed.

Lemma message_is_volume m : (∃ v, m = VolumeChange v) ∨ (∀ v, m ≠ VolumeChange v).
Proof. destruct m; try (by right); left; by eexists. Qed.

(** A queue handler returns at once, commits a queue, or throws. *)
Lemma queue_handler_effect sid m st :
  (∀ roomId, m ≠ JoinRoom roomId) → (∀ volume, m ≠ VolumeChange volume) →
  handle sid m st = (st, []) ∨
  (∃ roomId queue queue',
     current_queue sid st = Some (roomId, queue) ∧
     handle sid m st = (saveRooms (set_rooms (insert roomId queue') st),
                        [(to_room roomId, queueUpdated queue')])) ∨
  (∃ roomId, guard sid st = Some (roomId, js_inherited roomId) ∧
             handle sid m st = (throw st, [])).
Proof.
  intros Hm Hv.
  destruct (guard_cases sid st)
    as [[Hg Hq]|[(r & q & Hg & Hq)|(r & Hg & Hq & _)]];
    (destruct m as [r'|s fresh|u|newQueue|volume|u| |]; simpl;
     [by destruct (Hm r')| | | |by destruct (Hv volume)| | |]).
  - unfold addSong. rewrite Hg. by left.
  - unfold pinSong. rewrite Hg. by left.
  - unfold reorderQueue. rewrite Hg. by left.
  - unfold removeSong. rewrite Hg. by left.
  - unfold songEnded. rewrite Hg. by left.
  - unfold skipSong. rewrite Hg. by left.
  - unfold addSong. rewrite Hg. right; left. by eexists _, _, _.
  - unfold pinSong. rewrite Hg.
    destruct (1 <? findIndex (has_uuid u) q)%Z; [|by left].
    destruct (splice _ _ _ _) as [q1 removed]. right; left. by eexists _, _, _.
  - unfold reorderQueue. rewrite Hg.
    destruct (reorder_guard q newQueue); [|by left].
    right; left. by eexists _, _, _.
  - unfold removeSong. rewrite Hg. right; left. by eexists _, _, _.
  - unfold songEnded. rewrite Hg.
    destruct (0 <? length q); [|by left]. right; left. by eexists _, _, _.
  - unfold skipSong. rewrite Hg.
    destruct (0 <? length q); [|by left]. right; left. by eexists _, _, _.
  - unfold addSong. rewrite Hg. right; right. by exists r.
  - unfold pinSong. rewrite Hg. right; right. by exists r.
  - unfold reorderQueue. rewrite Hg.
    destruct (_ && _); [right; right; by exists r|by left].
  - unfold removeSong. rewrite Hg. right; right. by exists r.
  - unfold songEnded. rewrite Hg.
    destruct (inherited_length_positive r); [right; right; by exists r|by left].
  - unfold skipSong. rewrite Hg.
    destruct (inherited_length_positive r); [right; right; by exists r|by left].
Qed.

(** Every handler but [joinRoom] has one of the four effects. *)
Lemma handle_effect sid m st :
  (∀ roomId, m ≠ JoinRoom roomId) → effect sid st (handle sid m st).
Proof.
  intros Hm. destruct (message_is_volume m) as [[v ->]|Hv].
  - simpl. unfold volumeChanged. destruct (data_roomId st !! sid) as [r0|] eqn:Hr;
      [|constructor].
    destruct (truthy r0) eqn:Ht; [|constructor].
    apply effect_volume; [done|by apply truthy_nonempty].
  - destruct (queue_handler_effect sid m st Hm)
      as [->|[(r & q & q' & Hq & ->)|(r & Hg & ->)]].
    + done.
    + constructor.
    + by eapply effect_commit.
    + by eapply effect_throw.
Qed.

Lemma handle_join_or_effect sid m st :
  (∃ roomId, m = JoinRoom roomId) ∨
  ((∀ roomId, m ≠ JoinRoom roomId) ∧
   addressed_room sid m st = data_roomId st !! sid ∧ effect sid st (handle sid m st)).
Proof.
  destruct m; try (right; split; [done|split; [done|by apply handle_effect]]).
  left. by eexists.
Qed.

Lemma current_queue_committed sid st roomId queue queue' :
  current_queue sid st = Some (roomId, queue) →
  current_queue sid (saveRooms (set_rooms (insert roomId queue') st))
    = Some (roomId, queue').
Proof.
  rewrite !current_queue_Some. intros (Hd & Hne & _). simpl.
  by rewrite lookup_insert_eq.
Qed.

(** The three outcomes of a join: the room exists, it is created, or its
    id is a name that [rooms] inherits. *)
Lemma joinRoom_cases sid roomId st :
  (∃ queue, rooms st !! roomId = Some queue ∧
     joinRoom sid roomId st =
       (bind_socket sid roomId st, [(to_socket sid, queueUpdated queue)])) ∨
  (rooms st !! roomId = None ∧ (roomId ∉ Object_prototype.*1) ∧
     joinRoom sid roomId st =
       (saveRooms (set_rooms (insert roomId []) (bind_socket sid roomId st)),
        [(to_socket sid, queueUpdated [])])) ∨
  (rooms st !! roomId = None ∧ roomId ∈ Object_prototype.*1 ∧
     joinRoom sid roomId st =
       (bind_socket sid roomId st,
        [(to_socket sid, queueUpdated_inherited roomId)])).
Proof.
  destruct (rooms st !! roomId) as [queue|] eqn:Hr.
  - left. exists queue. split; [done|]. by apply joinRoom_existing.
  - destruct (decide (roomId ∈ Object_prototype.*1)) as [Hin|Hout].
    + right; right. split; [done|]. split; [done|]. by apply joinRoom_inherited.
    + right; left. split; [done|]. split; [done|]. by apply joinRoom_new.
Qed.

Lemma joinRoom_outcome sid roomId st :
  ∃ st' ev, joinRoom sid roomId st = (st', [(to_socket sid, ev)]) ∧
         (rooms st' = rooms st ∨
          (rooms st !! roomId = None ∧ rooms st' = <[roomId := []]> (rooms st))) ∧
         data_roomId st' = <[sid := roomId]> (data_roomId st) ∧
         joined st' = {[ (sid, roomId) ]} ∪ joined st.
Proof.
  destruct (joinRoom_cases sid roomId st)
    as [(queue & Hr & ->)|[(Hr & Hout & ->)|(Hr & Hin & ->)]];
    eexists _, _; (split; [done|]); (split; [|done]).
  - by left.
  - right. by split.
  - by left.
Qed.

(** A property of the state that every handler keeps holds along a run. *)
Lemma run_invariant (P : server → Prop) ms st :
  (∀ sid m st, P st → P (handle sid m st).1) → P st → P (run ms st).1.
Proof.
  intros Hstep. revert st. induction ms as [|[sid m] ms IH]; intros st HP; [done|].
  simpl. specialize (Hstep sid m st HP).
  destruct (handle sid m st) as [st1 out1]. specialize (IH st1 Hstep).
  by destruct (run ms st1).
Qed.

Lemma writes_succeed_handle sid m st :
  disk st = rooms st ∧ writes_succeed st →
  disk (handle sid m st).1 = rooms (handle sid m st).1 ∧
  writes_succeed (handle sid m st).1.
Proof.
  intros [Hd Hok].
  assert (∀ st0, disk st0 = rooms st0 → writes_succeed st0 → ∀ f,
            disk (saveRooms (set_rooms f st0)) = rooms (saveRooms (set_rooms f st0)) ∧
            writes_succeed (saveRooms (set_rooms f st0))) as Hsave.
  { intros st0 Hd0 Hok0 f. split.
    - simpl. by rewrite (Hok0 (writes st0)).
    - intros n Hn. simpl in *. apply Hok0. lia. }
  destruct (handle_join_or_effect sid m st)
    as [[r ->]|(_ & _ & [|r q q' Hq|r v Hr|r Hg])]; [|done|by apply Hsave|done|done].
  cbn [handle].
  destruct (joinRoom_cases sid r st)
    as [(queue & Hr & ->)|[(Hr & Hout & ->)|(Hr & Hin & ->)]]; [done| |done].
  by apply Hsave.
Qed.

(** X1.  save on every commit.  When the file holds the rooms at the start
    and no call of [writeFileSync] throws from then on, the file holds the
    rooms after every run: each handler that changes a queue writes the
    file before it broadcasts.  (A call that throws leaves the file stale:
    [saveRooms] catches the error and the handler goes on.) *)
Theorem disk_follows_rooms ms st :
  disk st = rooms st → writes_succeed st →
  disk (run ms st).1 = rooms (run ms st).1.
Proof.
  intros Hd Hok.
  apply (run_invariant (λ st, disk st = rooms st ∧ writes_succeed st) ms st);
    [|done].
  clear. intros sid m st. apply writes_succeed_handle.
Qed.

Lemma disk_follows_rooms_witness :
  disk (run [(1, AddSong (song D) "D"); (2, SkipSong)] (room_state [A; B])).1
    = {[ "room1" := [B; D] ]}.
Proof.
  rewrite (disk_follows_rooms _ (room_state [A; B]) eq_refl); [reflexivity|].
  by intros n _.
Defined.

(** X2.  a handler changes at most the queue of the room it is addressed to,
    and never removes a room. *)
Theorem handler_changes_one_room sid m st roomId :
  (addressed_room sid m st ≠ Some roomId →
     rooms (handle sid m st).1 !! roomId = rooms st !! roomId) ∧
  (is_Some (rooms st !! roomId) → is_Some (rooms (handle sid m st).1 !! roomId)).
Proof.
  destruct (handle_join_or_effect sid m st)
    as [[r ->]|(_ & -> & [|r q q' Hq|r v Hr|r Hg])]; [|done| |done|done].
  - cbn [handle addressed_room].
    destruct (joinRoom_outcome sid r st)
      as (st' & ev & -> & [Hrooms|[Hr Hrooms]] & _); cbn [fst];
      rewrite Hrooms; [done|]. split.
    + intros Hne. apply lookup_insert_ne. congruence.
    + intros Hsome. rewrite lookup_insert_ne; [done|]. intros <-.
      rewrite Hr in Hsome. by destruct Hsome.
  - apply current_queue_Some in Hq as (Hd & _ & Hq). rewrite Hd. simpl. split.
    + intros Hne. apply lookup_insert_ne. congruence.
    + intros Hsome. destruct (decide (r = roomId)) as [->|Hne].
      * by rewrite lookup_insert_eq.
      * by rewrite lookup_insert_ne.
Qed.

Lemma handler_changes_one_room_witness :
  rooms (handle 1 (RemoveSong "A") (joinRoom 3 "room2" (room_state [A; B])).1).1 !! "room2"
    = Some [].
Proof.
  rewrite (proj1 (handler_changes_one_room 1 (RemoveSong "A")
                    (joinRoom 3 "room2" (room_state [A; B])).1 "room2")).
  - reflexivity.
  - discriminate.
Defined.

(** X3.  every event a handler emits is about the room the message is
    addressed to.  A [queueUpdated] carries the queue that this room holds
    once the handler has run; a join sends it to the joining connection,
    every other handler to the room.  The one exception is a join under a
    name that [rooms] inherits and does not own: its event carries the
    inherited value, and no queue is stored under the name. *)
Theorem queueUpdated_carries_stored_queue sid m st tgt ev :
  (tgt, ev) ∈ (handle sid m st).2 →
  ∃ roomId, addressed_room sid m st = Some roomId ∧
    match ev with
    | queueUpdated queue =>
        rooms (handle sid m st).1 !! roomId = Some queue ∧
        tgt = match m with
              | JoinRoom _ => to_socket sid
              | _ => to_room roomId
              end
    | queueUpdated_inherited name =>
        m = JoinRoom roomId ∧ name = roomId ∧ roomId ∈ Object_prototype.*1 ∧
        rooms (handle sid m st).1 !! roomId = None ∧ tgt = to_socket sid
    | volumeChange volume => m = VolumeChange volume ∧ tgt = to_room roomId
    end.
Proof.
  destruct (message_is_join m) as [[r ->]|Hm'].
  { cbn [handle addressed_room]. intros Hin. exists r. split; [done|]. revert Hin.
    destruct (joinRoom_cases sid r st)
      as [(queue & Hr & ->)|[(Hr & Hout & ->)|(Hr & Hin & ->)]]; cbn [fst snd];
      intros [= -> ->]%list_elem_of_singleton; simpl.
    - done.
    - by rewrite lookup_insert_eq.
    - done. }
  destruct (message_is_volume m) as [[v ->]|Hv'].
  { cbn [handle addressed_room]. unfold volumeChanged.
    destruct (data_roomId st !! sid) as [r|]; [|by intros ?%not_elem_of_nil].
    destruct (truthy r); [|by intros ?%not_elem_of_nil].
    intros [= -> ->]%list_elem_of_singleton. by exists r. }
  assert (addressed_room sid m st = data_roomId st !! sid) as Ha
    by by destruct (handle_join_or_effect sid m st) as [[r ->]|(_ & ? & _)];
          [destruct (Hm' r)|].
  destruct (queue_handler_effect sid m st Hm' Hv')
    as [->|[(r & q & q' & Hq & ->)|(r & Hg & ->)]].
  - by intros ?%not_elem_of_nil.
  - cbn [fst snd]. intros [= -> ->]%list_elem_of_singleton.
    exists r. rewrite Ha. apply current_queue_Some in Hq as (-> & _ & _). simpl.
    rewrite lookup_insert_eq. split; [done|]. split; [done|].
    destruct m as [r'| | | | | | |]; try done. by destruct (Hm' r').
  - by intros ?%not_elem_of_nil.
Qed.

Lemma queueUpdated_carries_stored_queue_witness :
  ∃ roomId, addressed_room 1 (PinSong "C") (room_state [A; B; C]) = Some roomId ∧
            rooms (handle 1 (PinSong "C") (room_state [A; B; C])).1 !! roomId
              = Some [A; C; B] ∧
            to_room "room1" = to_room roomId.
Proof.
  apply (queueUpdated_carries_stored_queue 1 (PinSong "C") (room_state [A; B; C])
           (to_room "room1") (queueUpdated [A; C; B])).
  apply list_elem_of_singleton. reflexivity.
Defined.

(** X4.  a connection that has joined no room, or the room with the empty id,
    is ignored: every message but a join leaves the state as it is and
    emits nothing. *)
Theorem unbound_connection_is_ignored sid m st :
  data_roomId st !! sid = None ∨ data_roomId st !! sid = Some "" →
  (∀ roomId, m ≠ JoinRoom roomId) →
  handle sid m st = (st, []).
Proof.
  intros Hd Hm.
  destruct (handle_effect sid m st Hm) as [|r q q' Hq|r v Hr Hne|r Hg]; [done|..].
  - apply current_queue_Some in Hq as (Hr & Hne & _).
    destruct Hd as [Hd|Hd]; rewrite Hd in Hr; [done|]. by injection Hr as <-.
  - destruct Hd as [Hd|Hd]; rewrite Hd in Hr; [done|]. by injection Hr as <-.
  - apply guard_inherited in Hg as (Hr & _ & Hin & _).
    destruct Hd as [Hd|Hd]; rewrite Hd in Hr; [done|]. injection Hr as <-.
    by apply empty_not_inherited in Hin.
Qed.

Lemma unbound_connection_is_ignored_witness :
  handle 1 (AddSong (song A) "A") (joinRoom 1 "" fresh_state).1
    = ((joinRoom 1 "" fresh_state).1, []) ∧
  handle 7 SkipSong (room_state [A; B]) = (room_state [A; B], []).
Proof.
  split.
  - apply unbound_connection_is_ignored; [right; reflexivity|discriminate].
  - apply unbound_connection_is_ignored; [left; reflexivity|discriminate].
Defined.

Lemma get_insert_is_Some (obj : gmap string (list QueueItem)) key key' queue :
  is_Some (get obj key') → is_Some (get (<[key := queue]> obj) key').
Proof.
  unfold get. destruct (decide (key = key')) as [->|Hne].
  - by rewrite lookup_insert_eq.
  - by rewrite lookup_insert_ne.
Qed.

Lemma rooms_exist_handle sid m st : rooms_exist st → rooms_exist (handle sid m st).1.
Proof.
  intros Hex sid' r'.
  destruct (handle_join_or_effect sid m st)
    as [[r ->]|(_ & _ & [|r q q' Hq|r v Hr|r Hg])];
    [|by apply Hex| |by apply Hex|by apply Hex].
  - cbn [handle].
    assert (∀ st', data_roomId st' = <[sid := r]> (data_roomId st) →
              is_Some (get (rooms st') r) →
              (∀ key, is_Some (get (rooms st) key) → is_Some (get (rooms st') key)) →
              data_roomId st' !! sid' = Some r' → is_Some (get (rooms st') r'))
      as Hstep.
    { intros st' Hdata Hr Hkeep Hd. rewrite Hdata in Hd.
      destruct (decide (sid' = sid)) as [->|Hne].
      - rewrite lookup_insert_eq in Hd. by injection Hd as <-.
      - rewrite lookup_insert_ne in Hd by done. by apply Hkeep, (Hex sid'). }
    destruct (joinRoom_cases sid r st)
      as [(queue & Hr & ->)|[(Hr & Hout & ->)|(Hr & Hin & ->)]]; cbn [fst];
      apply Hstep; try done.
    + simpl. by rewrite (proj2 (get_array _ _ _) Hr).
    + simpl. unfold get. by rewrite lookup_insert_eq.
    + intros key. apply get_insert_is_Some.
    + simpl. by rewrite (proj2 (get_inherited _ _ _) (conj Hr (conj Hin eq_refl))).
  - simpl. intros Hd. by apply get_insert_is_Some, (Hex sid').
Qed.

(** X5.  rooms are created on join and never removed, so a connection that
    is bound is never turned away by the guard of the queue handlers: after
    any run from a state where [rooms[roomId]] is defined for every bound
    connection, the guard lets a connection bound to a non-empty id go on.
    It goes on with the queue of its room, unless the id is a name that
    [rooms] inherits and does not own: under such a name no room was
    created, and the handler goes on with the inherited value. *)
Theorem bound_room_has_queue ms st sid roomId :
  rooms_exist st →
  data_roomId (run ms st).1 !! sid = Some roomId → roomId ≠ "" →
  (∃ queue, current_queue sid (run ms st).1 = Some (roomId, queue) ∧
            guard sid (run ms st).1 = Some (roomId, js_array queue)) ∨
  (roomId ∈ Object_prototype.*1 ∧ rooms (run ms st).1 !! roomId = None ∧
   current_queue sid (run ms st).1 = None ∧
   guard sid (run ms st).1 = Some (roomId, js_inherited roomId)).
Proof.
  intros Hex Hd Hne.
  assert (rooms_exist (run ms st).1) as Hex'.
  { apply run_invariant; [|done]. intros. by apply rooms_exist_handle. }
  destruct (Hex' sid roomId Hd) as [[queue|name] Hv].
  - left. exists queue. apply get_array in Hv.
    split; [by apply current_queue_Some|by apply guard_array].
  - right. apply get_inherited in Hv as (Hnone & Hin & ->).
    assert (guard sid (run ms st).1 = Some (roomId, js_inherited roomId)) as Hg
      by by apply guard_inherited.
    split; [done|]. split; [done|]. split; [|done].
    unfold current_queue. by rewrite Hg.
Qed.

Lemma bound_room_has_queue_witness :
  (∃ queue,
     current_queue 5 (run [(5, JoinRoom "room9"); (1, SkipSong)] (room_state [A])).1
       = Some ("room9", queue) ∧
     guard 5 (run [(5, JoinRoom "room9"); (1, SkipSong)] (room_state [A])).1
       = Some ("room9", js_array queue)) ∨
  ("room9" ∈ Object_prototype.*1 ∧
   rooms (run [(5, JoinRoom "room9"); (1, SkipSong)] (room_state [A])).1 !! "room9"
     = None ∧
   current_queue 5 (run [(5, JoinRoom "room9"); (1, SkipSong)] (room_state [A])).1
     = None ∧
   guard 5 (run [(5, JoinRoom "room9"); (1, SkipSong)] (room_state [A])).1
     = Some ("room9", js_inherited "room9")).
Proof.
  apply (bound_room_has_queue [(5, JoinRoom "room9"); (1, SkipSong)] (room_state [A]) 5).
  - intros sid r Hd. unfold room_state in Hd. simpl in Hd.
    destruct (decide (sid = 1)) as [->|H1].
    + rewrite lookup_insert_eq in Hd. injection Hd as <-. by eexists.
    + rewrite lookup_insert_ne in Hd by done.
      destruct (decide (sid = 2)) as [->|H2].
      * rewrite lookup_singleton_eq in Hd. injection Hd as <-. by eexists.
      * by rewrite lookup_singleton_ne in Hd.
  - reflexivity.
  - discriminate.
Defined.


(** * How the queue operations behave and compose *)

(** The queue a pin leaves: the queue itself, or the named entry moved to
    index 1. *)
Lemma pinSong_queue sid st roomId queue u :
  current_queue sid st = Some (roomId, queue) →
  (pinSong sid u st = (st, []) ∧
   (Forall (λ y, uuid y ≠ u) queue ∨
    (∃ h rest, queue = h :: rest ∧ uuid h = u) ∨
    (∃ h s rest, queue = h :: s :: rest ∧ uuid h ≠ u ∧ uuid s = u))) ∨
  (∃ h s pre x post,
     queue = h :: s :: pre ++ x :: post ∧
     Forall (λ y, uuid y ≠ u) (h :: s :: pre) ∧ uuid x = u ∧
     pinSong sid u st =
       (saveRooms (set_rooms (insert roomId (h :: x :: s :: pre ++ post)) st),
        [(to_room roomId, queueUpdated (h :: x :: s :: pre ++ post))])).
Proof.
  intros Hq. destruct (pin_cases u queue)
    as [Ha|[(h & rest & -> & Hh)|[(h & s & rest & -> & Hh & Hs)
       |(h & s & pre & x & post & -> & Hpre & Hx)]]].
  - left. split; [by eapply pinSong_absent|by left].
  - left. split; [by eapply pinSong_head|]. right; left. by eauto.
  - left. split; [by eapply pinSong_second|]. right; right. by eauto 10.
  - right. exists h, s, pre, x, post. split; [done|]. split; [done|]. split; [done|].
    by eapply pinSong_move.
Qed.

Lemma move_to_second_Permutation h s pre x post :
  h :: x :: s :: pre ++ post ≡ₚ h :: s :: pre ++ x :: post.
Proof.
  apply perm_skip. change (s :: pre ++ x :: post) with ((s :: pre) ++ x :: post).
  by rewrite <-Permutation_middle.
Qed.

(** X6.  a pin only rearranges: the queue of the room afterwards is a
    permutation of the queue before, whatever the id. *)
Theorem pinSong_permutes sid st roomId queue u :
  current_queue sid st = Some (roomId, queue) →
  ∃ queue', rooms (pinSong sid u st).1 !! roomId = Some queue' ∧ queue' ≡ₚ queue.
Proof.
  intros Hq. pose proof (proj1 (current_queue_Some _ _ _ _) Hq) as (_ & _ & Hr).
  destruct (pinSong_queue sid st roomId queue u Hq)
    as [[-> _]|(h & s & pre & x & post & -> & _ & _ & ->)].
  - by exists queue.
  - eexists. split; [apply lookup_insert_eq|]. apply move_to_second_Permutation.
Qed.

Lemma pinSong_permutes_witness :
  ∃ queue', rooms (pinSong 1 "D" (room_state [A; B; C; D])).1 !! "room1" = Some queue' ∧
            queue' ≡ₚ [A; B; C; D].
Proof. by apply (pinSong_permutes 1 (room_state [A; B; C; D]) "room1"). Defined.

(** X7.  pinning the same id again changes nothing and emits nothing. *)
Theorem pinSong_twice sid st u :
  pinSong sid u (pinSong sid u st).1 = ((pinSong sid u st).1, []).
Proof.
  destruct (guard_cases sid st)
    as [[Hg Hq]|[(roomId & queue & Hg & Hq)|(roomId & Hg & Hq & Hd & Hr & Hin)]].
  - assert (pinSong sid u st = (st, [])) as Hno by (unfold pinSong; by rewrite Hg).
    by rewrite !Hno.
  - destruct (pinSong_queue sid st roomId queue u Hq)
      as [[Hno _]|(h & s & pre & x & post & -> & Hpre & Hx & Hmove)].
    + by rewrite !Hno.
    + rewrite Hmove. cbn [fst].
      eapply pinSong_second; [by eapply current_queue_committed|done].
  - assert (pinSong sid u st = (throw st, [])) as Hthrow
      by (unfold pinSong; by rewrite Hg).
    rewrite Hthrow. cbn [fst]. unfold pinSong.
    assert (guard sid (throw st) = Some (roomId, js_inherited roomId)) as ->; [|done].
    by apply guard_inherited.
Qed.

(** X8.  after a pin by one connection, an advance by any connection of the
    room makes the pinned entry the head: an entry that is not the head
    plays next once pinned. *)
Theorem pinned_entry_plays_next sid sid' st roomId h pre x post u :
  current_queue sid st = Some (roomId, h :: pre ++ x :: post) →
  current_queue sid' st = Some (roomId, h :: pre ++ x :: post) →
  Forall (λ y, uuid y ≠ u) (h :: pre) → uuid x = u →
  rooms (songEnded sid' (pinSong sid u st).1).1 !! roomId = Some (x :: pre ++ post).
Proof.
  intros Hq Hq' Hpre Hx.
  assert (∃ st', (pinSong sid u st).1 = st' ∧
                 current_queue sid' st' = Some (roomId, h :: x :: pre ++ post))
    as (st' & -> & Hq'').
  { destruct pre as [|s pre].
    - eexists. split; [done|]. erewrite pinSong_second; by eauto.
    - erewrite pinSong_move; [|done..]. eexists. split; [done|].
      by eapply current_queue_committed. }
  rewrite (songEnded_pop _ _ _ _ _ Hq''). simpl. apply lookup_insert_eq.
Qed.

Lemma pinned_entry_plays_next_witness :
  rooms (songEnded 2 (pinSong 1 "C" (room_state [A; B; C; D])).1).1 !! "room1"
    = Some [C; B; D].
Proof.
  apply (pinned_entry_plays_next 1 2 (room_state [A; B; C; D]) "room1" A [B] C [D] "C").
  - reflexivity.
  - reflexivity.
  - repeat constructor; discriminate.
  - reflexivity.
Defined.

(** X9.  a song added with [isTop] to a queue that is playing is the head
    after the next advance, whichever connection of the room advances. *)
Theorem top_entry_plays_next sid sid' st roomId h rest s fresh :
  current_queue sid st = Some (roomId, h :: rest) →
  current_queue sid' st = Some (roomId, h :: rest) → isTop s = true →
  rooms (songEnded sid' (addSong sid s fresh st).1).1 !! roomId
    = Some ({| song := s; uuid := fresh |} :: rest).
Proof.
  intros Hq Hq' Htop. unfold addSong. rewrite (guard_of_queue _ _ _ _ Hq), Htop. cbn [fst].
  erewrite songEnded_pop; [simpl; apply lookup_insert_eq|].
  by eapply current_queue_committed.
Qed.

Lemma top_entry_plays_next_witness :
  rooms (songEnded 1 (addSong 2 (song B) "B" (room_state [A; C; D])).1).1 !! "room1"
    = Some [B; C; D].
Proof.
  by apply (top_entry_plays_next 2 1 (room_state [A; C; D]) "room1" A [C; D] (song B) "B").
Defined.


(** X10.  adding a song and removing it again by its fresh [uuid] gives back
    the rooms as they were, with or without [isTop]. *)
Theorem addSong_removeSong sid sid' st roomId queue s fresh :
  current_queue sid st = Some (roomId, queue) →
  current_queue sid' st = Some (roomId, queue) →
  Forall (λ y, uuid y ≠ fresh) queue →
  rooms (removeSong sid' fresh (addSong sid s fresh st).1).1 = rooms st.
Proof.
  intros Hq Hq' Hfresh.
  pose proof (proj1 (current_queue_Some _ _ _ _) Hq) as (_ & _ & Hr).
  assert (∀ q, filter (λ y, negb (has_uuid fresh y)) q = q ↔ Forall (λ y, uuid y ≠ fresh) q)
    as Hkeep.
  { intros q. unfold filter. induction q as [|y q IH]; simpl; [done|].
    rewrite Forall_cons, <-IH, <-has_uuid_false.
    destruct (has_uuid fresh y) eqn:Hy; simpl.
    - split; [|by intros [? _]]. intros Heq.
      pose proof (filter_length_le (λ y, negb (has_uuid fresh y)) q) as Hle.
      unfold filter in Hle. rewrite Heq in Hle. simpl in Hle. lia.
    - split; [by intros [= ->]|by intros [_ ->]]. }
  assert (has_uuid fresh {| song := s; uuid := fresh |} = true) as Hitem
    by by apply has_uuid_true.
  unfold addSong. rewrite (guard_of_queue _ _ _ _ Hq). cbn [fst].
  set (queue' := if isTop s && (0 <? length queue) then _ else _).
  erewrite removeSong_outcome; [|by eapply current_queue_committed].
  cbn [fst]. rewrite !rooms_committed, insert_insert_eq.
  assert (filter (λ y, negb (has_uuid fresh y)) queue' = queue) as ->.
  { unfold queue'. destruct (isTop s); simpl.
    - destruct queue as [|h rest]; simpl; [by rewrite Hitem|].
      apply Forall_cons in Hfresh as [Hh Hrest]. apply has_uuid_false in Hh.
      unfold splice, filter. simpl. rewrite Hh, Hitem. simpl. f_equal.
      rewrite drop_0. by apply Hkeep.
    - unfold push, filter. rewrite List.filter_app. simpl. rewrite Hitem. simpl.
      rewrite app_nil_r. by apply Hkeep. }
  by apply insert_id.
Qed.

Lemma addSong_removeSong_witness :
  rooms (removeSong 2 "B" (addSong 1 (song B) "B" (room_state [A; C])).1).1
    = rooms (room_state [A; C]).
Proof.
  apply (addSong_removeSong 1 2 (room_state [A; C]) "room1" [A; C] (song B) "B").
  - reflexivity.
  - reflexivity.
  - repeat constructor; discriminate.
Defined.



Lemma filter_sublist u queue :
  filter (λ s, negb (has_uuid u s)) queue `sublist_of` queue.
Proof.
  unfold filter. induction queue as [|y queue IH]; simpl; [done|].
  destruct (negb (has_uuid u y)); by constructor.
Qed.

Lemma filter_absent u queue :
  Forall (λ y, uuid y ≠ u) queue → filter (λ s, negb (has_uuid u s)) queue = queue.
Proof.
  unfold filter. induction 1 as [|y queue Hy _ IH]; simpl; [done|].
  apply has_uuid_false in Hy. by rewrite Hy, IH.
Qed.



(** X12.  removing an id that no entry carries leaves every queue as it
    is, but it is not silent: [writeFileSync] is called once, so that the
    file holds the rooms afterwards unless that call throws, and the
    unchanged queue is broadcast to the room. *)
Theorem removeSong_absent_still_broadcasts sid st roomId queue u :
  current_queue sid st = Some (roomId, queue) →
  Forall (λ y, uuid y ≠ u) queue →
  rooms (removeSong sid u st).1 = rooms st ∧
  writes (removeSong sid u st).1 = S (writes st) ∧
  disk (removeSong sid u st).1 =
    (if writeFileSync_throws st (writes st) then disk st else rooms st) ∧
  (removeSong sid u st).2 = [(to_room roomId, queueUpdated queue)].
Proof.
  intros Hq Habs. pose proof (proj1 (current_queue_Some _ _ _ _) Hq) as (_ & _ & Hr).
  rewrite (removeSong_outcome _ _ _ _ _ Hq), filter_absent by done. simpl.
  by rewrite insert_id.
Qed.

Lemma removeSong_absent_still_broadcasts_witness :
  rooms (removeSong 1 "Z" (room_state [A; B])).1 = rooms (room_state [A; B]) ∧
  writes (removeSong 1 "Z" (room_state [A; B])).1 = 1 ∧
  disk (removeSong 1 "Z" (room_state [A; B])).1 = rooms (room_state [A; B]) ∧
  (removeSong 1 "Z" (room_state [A; B])).2 = [(to_room "room1", queueUpdated [A; B])].
Proof.
  apply (removeSong_absent_still_broadcasts 1 (room_state [A; B]) "room1" [A; B] "Z").
  - reflexivity.
  - repeat constructor; discriminate.
Defined.

(** What each committing handler leaves in the sender's room. *)
Lemma handle_queue sid m st roomId queue :
  current_queue sid st = Some (roomId, queue) →
  (∀ r, m ≠ JoinRoom r) →
  ∃ queue', rooms (handle sid m st).1 = <[roomId := queue']> (rooms st) ∧
    match m with
    | AddSong s fresh =>
        queue' = (if isTop s && (0 <? length queue)
                  then take 1 queue ++ {| song := s; uuid := fresh |} :: drop 1 queue
                  else queue ++ [{| song := s; uuid := fresh |}])
    | PinSong u => queue' ≡ₚ queue
    | ReorderQueue newQueue =>
        queue' = if reorder_guard queue newQueue then newQueue else queue
    | RemoveSong u => queue' = filter (λ s, negb (has_uuid u s)) queue
    | SongEnded | SkipSong => queue' = shift queue
    | _ => queue' = queue
    end.
Proof.
  intros Hq Hm. pose proof (proj1 (current_queue_Some _ _ _ _) Hq) as (_ & _ & Hr).
  destruct m as [r|s fresh|u|newQueue|volume|u| |]; cbn [handle].
  - by destruct (Hm r).
  - unfold addSong. rewrite (guard_of_queue _ _ _ _ Hq). cbn [fst]. rewrite rooms_committed. eexists.
    split; [done|]. by destruct (isTop s && (0 <? length queue)).
  - destruct (pinSong_queue sid st roomId queue u Hq)
      as [[Hno _]|(h & s & pre & x & post & -> & _ & _ & Hmove)].
    + exists queue. rewrite Hno. cbn [fst]. by rewrite insert_id.
    + exists (h :: x :: s :: pre ++ post). rewrite Hmove. cbn [fst].
      split; [done|]. apply move_to_second_Permutation.
  - unfold reorderQueue. rewrite (guard_of_queue _ _ _ _ Hq). destruct (reorder_guard queue newQueue).
    + by eexists.
    + exists queue. by rewrite insert_id.
  - exists queue. split; [|done]. rewrite insert_id by done.
    unfold volumeChanged. by destruct (data_roomId st !! sid) as [r|]; [destruct (truthy r)|].
  - rewrite (removeSong_outcome _ _ _ _ _ Hq). by eexists.
  - destruct queue as [|h rest].
    + rewrite (songEnded_empty _ _ _ Hq). exists []. by rewrite insert_id.
    + rewrite (songEnded_pop _ _ _ _ _ Hq). by eexists.
  - rewrite skipSong_songEnded. destruct queue as [|h rest].
    + rewrite (songEnded_empty _ _ _ Hq). exists []. by rewrite insert_id.
    + rewrite (songEnded_pop _ _ _ _ _ Hq). by eexists.
Qed.


(** X13.  the ids of the entries stay unique.  When no queue holds two entries
    with the same [uuid], this still holds after every message but a
    reorder, provided the [uuid] given to an added song is not in the
    sender's queue. *)
Theorem unique_ids_kept sid m st :
  unique_ids st → keeps_ids sid m st → unique_ids (handle sid m st).1.
Proof.
  intros Huniq Hkeeps.
  destruct (handle_join_or_effect sid m st) as [[r ->]|(Hm & _ & Heff)].
  { cbn [handle].
    destruct (joinRoom_outcome sid r st)
      as (st' & ev & -> & [Hrooms|[Hr Hrooms]] & _);
      cbn [fst]; intros r' q; rewrite Hrooms; [by apply Huniq|].
    destruct (decide (r = r')) as [->|Hne].
    - rewrite lookup_insert_eq. intros [= <-]. constructor.
    - rewrite lookup_insert_ne by done. by apply Huniq. }
  destruct (current_queue sid st) as [[roomId queue]|] eqn:Hq.
  - destruct (handle_queue sid m st roomId queue Hq Hm) as (queue' & Hrooms & Hqueue').
    pose proof (proj1 (current_queue_Some _ _ _ _) Hq) as (_ & _ & Hr).
    pose proof (Huniq roomId queue Hr) as Hnd.
    intros r' q. rewrite Hrooms. destruct (decide (roomId = r')) as [->|Hne].
    2:{ rewrite lookup_insert_ne by done. by apply Huniq. }
    rewrite lookup_insert_eq. intros [= <-].
    destruct m as [r|s fresh|u|newQueue|volume|u| |]; simpl in Hkeeps.
    + by subst queue'.
    + specialize (Hkeeps _ _ Hq). subst queue'.
      assert (NoDup (uuid <$> {| song := s; uuid := fresh |} :: queue)) as Hnd'
        by by constructor.
      destruct (isTop s && (0 <? length queue)).
      * rewrite fmap_app, fmap_cons, <-Permutation_middle, <-fmap_app, take_drop.
        by apply Hnd'.
      * rewrite fmap_app. simpl. rewrite <-Permutation_cons_append. by apply Hnd'.
    + by rewrite Hqueue'.
    + done.
    + by subst queue'.
    + subst queue'. pose proof (fmap_sublist uuid _ _ (filter_sublist u queue)) as Hsub.
      exact (sublist_NoDup _ _ Hnd Hsub).
    + subst queue'. destruct queue; [done|]. by apply NoDup_cons in Hnd as [_ ?].
    + subst queue'. destruct queue; [done|]. by apply NoDup_cons in Hnd as [_ ?].
  - destruct Heff as [|r q q' Hq'|r v Hr|r Hg]; [done| |done|done]. congruence.
Qed.

Lemma unique_ids_kept_witness :
  unique_ids (handle 1 (AddSong (song D) "D") (room_state [A; B])).1.
Proof.
  apply unique_ids_kept.
  - intros r q Hr. unfold room_state in Hr. simpl in Hr.
    destruct (decide (r = "room1")) as [->|Hne].
    + rewrite lookup_singleton_eq in Hr. injection Hr as <-.
      apply (bool_decide_unpack _). by vm_compute.
    + by rewrite lookup_singleton_ne in Hr.
  - intros r q Hq. change (Some ("room1", [A; B]) = Some (r, q)) in Hq.
    injection Hq as <- <-. apply (bool_decide_unpack _). by vm_compute.
Defined.

(** X14.  a connection never leaves a room.  Once it has joined a room it is
    a member of it after every later message, also after it has joined
    another room: a second join adds a membership and rebinds the
    connection, and the broadcasts of the first room still reach it. *)
Theorem membership_is_never_dropped before after st sid roomId :
  (sid, roomId) ∈ joined (run (before ++ (sid, JoinRoom roomId) :: after) st).1.
Proof.
  rewrite run_app. destruct (run before st) as [st1 out1].
  cbn [run handle]. destruct (joinRoom_outcome sid roomId st1)
    as (st2 & ev & -> & _ & _ & Hjoined).
  assert ((sid, roomId) ∈ joined st2) as Hin
    by (rewrite Hjoined; apply elem_of_union; left; by apply elem_of_singleton).
  revert Hin.
  pose proof (run_invariant (λ st, (sid, roomId) ∈ joined st) after st2) as Hinv.
  destruct (run after st2) as [st3 out3]. simpl in *. apply Hinv. clear.
  intros sid' m st Hin.
  destruct (handle_join_or_effect sid' m st)
    as [[r ->]|(_ & _ & [|r q q' Hq|r v Hr|r Hg])]; [|done..].
  cbn [handle]. destruct (joinRoom_outcome sid' r st) as (st' & ev' & -> & _ & _ & Hj).
  cbn [fst]. rewrite Hj. apply elem_of_union. by right.
Qed.

(** Whoever sends a message, a room keeps its queue unless the sender is
    bound to it. *)
Lemma other_room_or_sender sid m st roomId queue :
  rooms st !! roomId = Some queue →
  rooms (handle sid m st).1 !! roomId = Some queue ∨
  ((∀ r, m ≠ JoinRoom r) ∧ current_queue sid st = Some (roomId, queue)).
Proof.
  intros Hr. destruct (handle_join_or_effect sid m st)
    as [[r ->]|(Hm & _ & [|r q q' Hq|r v Hd|r Hg])]; [|by left| |by left|by left].
  - left. cbn [handle].
    destruct (joinRoom_outcome sid r st)
      as (st' & ev & -> & [Hrooms|[Hr' Hrooms]] & _); cbn [fst]; rewrite Hrooms;
      [done|].
    rewrite lookup_insert_ne; [done|]. congruence.
  - destruct (decide (r = roomId)) as [->|Hne].
    + right. split; [done|]. rewrite Hq. f_equal. f_equal.
      apply current_queue_Some in Hq as (_ & _ & Hq). congruence.
    + left. simpl. by rewrite lookup_insert_ne.
Qed.

(** X15.  an empty queue is filled by [addSong] only: every other message,
    from any connection, leaves it empty. *)
Theorem empty_queue_waits_for_addSong sid m st roomId :
  rooms st !! roomId = Some [] → (∀ s fresh, m ≠ AddSong s fresh) →
  rooms (handle sid m st).1 !! roomId = Some [].
Proof.
  intros Hr Hadd.
  destruct (other_room_or_sender sid m st roomId [] Hr) as [Hsame|[Hm Hq]]; [done|].
  destruct (handle_queue sid m st roomId [] Hq Hm) as (queue' & -> & Hqueue').
  rewrite lookup_insert_eq. f_equal.
  destruct m as [r|s fresh|u|newQueue|volume|u| |].
  - done.
  - by destruct (Hadd s fresh).
  - by apply Permutation_nil_r in Hqueue'.
  - subst queue'. by destruct newQueue.
  - done.
  - done.
  - done.
  - done.
Qed.

Lemma empty_queue_waits_for_addSong_witness :
  rooms (handle 1 (ReorderQueue [A; B]) (room_state [])).1 !! "room1" = Some [].
Proof.
  apply empty_queue_waits_for_addSong; [reflexivity|discriminate].
Defined.

(** X16.  a queue that is playing is emptied by an advance or a removal only:
    joins, additions, pins, reorders and volume changes leave it with at
    least one entry. *)
Theorem playing_queue_emptied_only_by_removal sid m st roomId h rest :
  rooms st !! roomId = Some (h :: rest) →
  m ≠ SongEnded → m ≠ SkipSong → (∀ u, m ≠ RemoveSong u) →
  ∃ h' rest', rooms (handle sid m st).1 !! roomId = Some (h' :: rest').
Proof.
  intros Hr He Hs Hrm.
  destruct (other_room_or_sender sid m st roomId _ Hr) as [Hsame|[Hm Hq]]; [by eauto|].
  destruct (handle_queue sid m st roomId _ Hq Hm) as (queue' & -> & Hqueue').
  rewrite lookup_insert_eq.
  destruct m as [r|s fresh|u|newQueue|volume|u| |].
  - by destruct (Hm r).
  - subst queue'. destruct (isTop s); simpl; by eauto.
  - destruct queue' as [|h' rest']; [|by eauto].
    by apply Permutation_nil in Hqueue'.
  - subst queue'. destruct (reorder_guard (h :: rest) newQueue) eqn:Hg; [|by eauto].
    apply reorder_guard_true in Hg as (? & ? & h' & rest' & _ & -> & _). by eauto.
  - subst queue'. by eauto.
  - by destruct (Hrm u).
  - done.
  - done.
Qed.

Lemma playing_queue_emptied_only_by_removal_witness :
  ∃ h' rest', rooms (handle 1 (PinSong "A") (room_state [A])).1 !! "room1"
                = Some (h' :: rest').
Proof.
  apply (playing_queue_emptied_only_by_removal 1 (PinSong "A") (room_state [A]) "room1" A []);
    [reflexivity|discriminate..].
Defined.

End ServerInvariants.

(** * Facts about the drag handler of the Socket.io clients *)
Module SocketClientFacts.
Import Js JsFacts Server ServerFacts SocketClient SocketSamples Samples.

Lemma findIndex_member u (queue : list QueueItem) :
  u ∈ uuid <$> queue →
  (0 ≤ findIndex (has_uuid u) queue < Z.of_nat (length queue))%Z.
Proof.
  intros Hin. destruct (first_match_split (has_uuid u) queue)
    as [Hall|(pre & x & post & -> & Hpre & Hx)].
  - apply list_elem_of_fmap in Hin as (y & -> & Hy).
    apply (proj1 (Forall_forall _ _) Hall) in Hy. by apply has_uuid_false in Hy.
  - rewrite findIndex_first by done. rewrite length_app. simpl. lia.
Qed.

(** X17.  a drag on a client whose copy of the queue is the server's is never
    refused.  When the dragged entry and the entry it is dropped on are in
    the queue, the proposal the client emits is installed by the server,
    for every [arrayMove] that keeps the first element when it moves
    between two indices from 1 on. *)
Theorem in_sync_drag_is_accepted
    (arrayMove : list QueueItem → Z → Z → list QueueItem)
    sid st roomId queue active over newQueue :
  (∀ l i j, (1 ≤ i < Z.of_nat (length l))%Z → (1 ≤ j < Z.of_nat (length l))%Z →
            head (arrayMove l i j) = head l) →
  current_queue sid st = Some (roomId, queue) →
  active ∈ uuid <$> queue → over ∈ uuid <$> queue →
  handleDragEnd arrayMove queue active over = Some newQueue →
  rooms (reorderQueue sid newQueue st).1 = <[roomId := newQueue]> (rooms st) ∧
  (reorderQueue sid newQueue st).2 = [(to_room roomId, queueUpdated newQueue)].
Proof.
  intros Hmove Hq Hactive Hover Hdrag. unfold handleDragEnd in Hdrag.
  destruct (negb (active =? over)%string); [|done].
  pose proof (findIndex_member _ _ Hactive) as Hi.
  pose proof (findIndex_member _ _ Hover) as Hj.
  destruct (findIndex (has_uuid active) queue =? 0)%Z eqn:Hi0; [done|].
  destruct (findIndex (has_uuid over) queue =? 0)%Z eqn:Hj0; [done|].
  apply Z.eqb_neq in Hi0, Hj0. simpl in Hdrag. injection Hdrag as <-.
  rewrite (reorderQueue_accepted _ _ _ _ _ Hq); [done|].
  specialize (Hmove queue (findIndex (has_uuid active) queue)
               (findIndex (has_uuid over) queue) ltac:(lia) ltac:(lia)).
  apply reorder_guard_true. destruct queue as [|h rest]; [simpl in Hi; lia|].
  destruct (arrayMove _ _ _) as [|h' rest']; [done|].
  injection Hmove as ->. by exists h, rest, h, rest'.
Qed.

Lemma sample_arrayMove_keeps_head l i j :
  (1 ≤ i < Z.of_nat (length l))%Z → (1 ≤ j < Z.of_nat (length l))%Z →
  head (sample_arrayMove l i j) = head l.
Proof.
  intros Hi Hj. unfold sample_arrayMove, splice.
  destruct l as [|h t]; [simpl in Hi; lia|].
  destruct (Z.to_nat i) as [|i'] eqn:Ei; [lia|].
  destruct (Z.to_nat j) as [|j'] eqn:Ej; [lia|]. done.
Qed.

Lemma in_sync_drag_is_accepted_witness :
  rooms (reorderQueue 1 [A; C; B] (room_state [A; B; C])).1
    = <["room1" := [A; C; B]]> (rooms (room_state [A; B; C])) ∧
  (reorderQueue 1 [A; C; B] (room_state [A; B; C])).2
    = [(to_room "room1", queueUpdated [A; C; B])].
Proof.
  apply (in_sync_drag_is_accepted sample_arrayMove 1 (room_state [A; B; C]) "room1"
           [A; B; C] "C" "B").
  - apply sample_arrayMove_keeps_head.
  - reflexivity.
  - set_solver.
  - set_solver.
  - reflexivity.
Defined.

End SocketClientFacts.

(** * Further facts about the Firestore client *)
Module FirestoreUiFacts.
Import Js JsFacts Firestore FirestoreFacts FirestoreSamples FirestoreUi FirestoreUiSamples.

Implicit Types (col : collection) (d : snapshot_doc) (docs : list snapshot_doc).

(** A collection is what its query returns. *)
Lemma query_inj col1 col2 : query col1 = query col2 → col1 = col2.
Proof.
  intros Hq. apply map_eq. intros i. apply option_eq. intros doc.
  by rewrite <-!elem_of_query, Hq.
Qed.

Lemma renumber_batch_refs k docs : write_ref <$> renumber_batch k docs = docs.*1.
Proof.
  revert k. induction docs as [|d docs IH]; intros k; [done|].
  rewrite renumber_batch_cons. simpl. by rewrite IH.
Qed.

(** A batch that numbers all documents of the collection, in any order,
    makes that order the order of the query. *)
Lemma query_commit_renumber col docs :
  docs ≡ₚ query col → query (commit (renumber_batch 0 docs) col) = renumber docs.
Proof.
  intros Hperm.
  assert (NoDup docs.*1) as Hnd by (rewrite Hperm; apply query_NoDup_ids).
  apply query_unique; [apply renumber_from_Sorted|]. symmetry.
  apply NoDup_Permutation.
  - apply NoDup_map_to_list.
  - apply (NoDup_fmap_1 fst). unfold renumber. by rewrite renumber_from_ids.
  - intros [i doc']. rewrite elem_of_map_to_list. unfold renumber.
    rewrite list_elem_of_lookup. setoid_rewrite renumber_from_lookup.
    split.
    + intros Hdoc'. destruct (decide (i ∈ docs.*1)) as [Hin|Hnin].
      * apply list_elem_of_fmap in Hin as ([i' doc] & -> & Hin).
        apply list_elem_of_lookup in Hin as [j Hj]. exists j. rewrite Hj. simpl.
        rewrite (commit_lookup_nth 0 _ _ j i' doc) in Hdoc' by done.
        apply list_elem_of_lookup_2 in Hj. rewrite Hperm in Hj.
        apply elem_of_query in Hj.
        rewrite Hj in Hdoc'. simpl in Hdoc'. congruence.
      * rewrite commit_lookup_other in Hdoc' by done.
        exfalso. apply Hnin. apply list_elem_of_fmap. exists (i, doc').
        split; [done|]. rewrite Hperm. by apply elem_of_query.
    + intros [j Hj]. destruct (docs !! j) as [[i' doc]|] eqn:Hjq; [|done].
      simpl in Hj. injection Hj as <- <-.
      rewrite (commit_lookup_nth 0 _ _ j i' doc) by done.
      apply list_elem_of_lookup_2 in Hjq. rewrite Hperm in Hjq.
      apply elem_of_query in Hjq. by rewrite Hjq.
Qed.

Lemma commit_existing_all col batch :
  Forall (λ ref, is_Some (col !! ref)) (write_ref <$> batch) →
  commit_existing batch col = commit batch col.
Proof.
  intros Hall. unfold commit_existing. rewrite bool_decide_eq_true_2; [done|].
  exact (proj1 (Forall_fmap _ _ _) Hall).
Qed.

Lemma commit_existing_missing col batch ref :
  ref ∈ write_ref <$> batch → col !! ref = None → commit_existing batch col = col.
Proof.
  intros Hin Hnone. unfold commit_existing. rewrite bool_decide_eq_false_2; [done|].
  intros Hall. apply list_elem_of_fmap in Hin as (w & -> & Hw).
  apply (proj1 (Forall_forall _ _) Hall) in Hw. rewrite Hnone in Hw. by destruct Hw.
Qed.

(** X18.  a drag on a client that holds the current snapshot persists the
    order the drag produced: for every [arrayMove] that returns a
    rearrangement of the queue, the next query returns the documents in
    that order, numbered from 0. *)
Theorem drag_order_is_persisted
    (arrayMove : list snapshot_doc → Z → Z → list snapshot_doc) col active over :
  let oldIndex := findIndex (λ item, String.eqb item.1 active) (query col) in
  let newIndex := findIndex (λ item, String.eqb item.1 over) (query col) in
  active ≠ over → oldIndex ≠ 0%Z → newIndex ≠ 0%Z →
  arrayMove (query col) oldIndex newIndex ≡ₚ query col →
  query (handleDragEnd arrayMove (query col) active over col)
    = renumber (arrayMove (query col) oldIndex newIndex).
Proof.
  intros oldIndex newIndex Hne Hold Hnew Hperm. unfold handleDragEnd.
  fold oldIndex newIndex.
  rewrite (proj2 (String.eqb_neq _ _) Hne). simpl.
  rewrite (proj2 (Z.eqb_neq _ _) Hold), (proj2 (Z.eqb_neq _ _) Hnew). simpl.
  rewrite commit_existing_all; [by apply query_commit_renumber|].
  rewrite renumber_batch_refs, Hperm. apply Forall_forall.
  intros i ([i' doc] & -> & Hin%elem_of_query)%list_elem_of_fmap. by eexists.
Qed.

Lemma drag_order_is_persisted_witness :
  (query (handleDragEnd sample_arrayMove (query three_appended) "doc3" "doc2"
            three_appended)).*1 = ["doc1"; "doc3"; "doc2"].
Proof.
  rewrite (drag_order_is_persisted sample_arrayMove three_appended "doc3" "doc2").
  - by vm_compute.
  - discriminate.
  - by vm_compute.
  - by vm_compute.
  - assert (∃ a b c, query three_appended = [a; b; c]
      ∧ sample_arrayMove (query three_appended)
          (findIndex (λ item, String.eqb item.1 "doc3") (query three_appended))
          (findIndex (λ item, String.eqb item.1 "doc2") (query three_appended))
        = [a; c; b]) as (a & b & c & -> & ->).
    { eexists _, _, _. split; vm_compute; reflexivity. }
    apply perm_skip, perm_swap.
Defined.

Lemma spread_items_ids docs : (spread_items docs).*1 = (λ d, id (video d.2)) <$> docs.
Proof. unfold spread_items. by rewrite <-list_fmap_compose. Qed.

(** X19.  the "Top" button of the Firestore queue addresses its batch by the
    video ids of the queued documents.  As soon as one queued video's id is
    not the id of a document of the queue, the click writes nothing,
    whichever entry was clicked. *)
Theorem pinToTop_writes_nothing clicked col d :
  d ∈ query col → col !! id (video d.2) = None →
  pinToTop clicked col = col.
Proof.
  intros Hd Hnone. unfold pinToTop.
  destruct (length (spread_items (query col)) <? 2); [done|].
  destruct (spread_items (query col)) as [|playing rest] eqn:Hdocs; [done|].
  destruct (first_match_split (λ d, String.eqb d.1 clicked) rest)
    as [Habsent|(pre & x & post & -> & Hpre & Hx)].
  { by rewrite findIndex_absent. }
  rewrite findIndex_first by done.
  destruct (Z.of_nat (length pre) <? 0)%Z; [done|].
  rewrite Nat2Z.id. unfold splice.
  rewrite take_app_length, drop_app_length.
  replace (length pre + 1) with (length pre + 1 + 0) by lia.
  rewrite <-Nat.add_assoc, (drop_app_add' pre) by done. simpl.
  apply (commit_existing_missing _ _ (id (video d.2))); [|done].
  rewrite renumber_batch_refs.
  assert (playing :: x :: pre ++ post ≡ₚ spread_items (query col)) as Hperm.
  { rewrite Hdocs. apply perm_skip. by rewrite Permutation_middle. }
  rewrite Hperm, spread_items_ids.
  apply list_elem_of_fmap. by exists d.
Qed.

Lemma pinToTop_writes_nothing_witness :
  pinToTop "doc3" three_appended = three_appended.
Proof.
  apply (pinToTop_writes_nothing "doc3" three_appended
           ("doc1", {| video := a_video "A"; createdAt := 1; order := Some (num 0) |})).
  - apply elem_of_query. by vm_compute.
  - by vm_compute.
Defined.

Lemma renumber_from_idem k docs :
  renumber_from k (renumber_from k docs) = renumber_from k docs.
Proof.
  apply list_eq. intros j. rewrite !renumber_from_lookup.
  by destruct (docs !! j) as [[i doc]|].
Qed.

(** X20.  [normalizeQueue] is idempotent: a second run right after the first
    leaves every document as the first run left it. *)
Theorem normalizeQueue_idempotent col :
  normalizeQueue (normalizeQueue col) = normalizeQueue col.
Proof.
  apply query_inj. rewrite !query_normalizeQueue. apply renumber_from_idem.
Qed.

Lemma integer_keys_nil : integer_keys [].
Proof. split; constructor. Qed.

(** One operation of the client moves the bound on the keys by at most
    one. *)
Lemma keys_upto_apply_op b col op :
  match op with op_add _ _ newId _ => col !! newId = None | _ => True end →
  keys_upto b (query col) → (0 ≤ b < 2 ^ 52)%Z →
  keys_upto (b + 1) (query (apply_op col op)).
Proof.
  intros Hfresh Hkeys Hb. destruct op as [v isTop newId now|ref| |]; simpl.
  - by apply keys_upto_addToQueue.
  - apply (keys_upto_mono b); [lia|]. by apply keys_upto_deleteDoc.
  - apply (keys_upto_mono b); [lia|]. by apply keys_upto_advanceSong.
  - apply (keys_upto_mono b); [lia|]. by apply keys_upto_normalizeQueue.
Qed.

(** X21.  the queue keeps integer position keys.  Along every run of adds
    (ordinary or on top, each under a fresh document id), deletions,
    advances and renumberings, a queue whose keys are strictly increasing
    natural numbers up to [b] stays one, with the bound raised by one for
    each operation, as long as the bound stays within [2^52], where the
    sums of the client are exact; in particular every queue built from the
    empty collection by at most [2^52] operations is one, although a top
    insertion writes a key ending in one half in between. *)
Theorem integer_keys_run ops col b :
  ids_fresh ops col → keys_upto b (query col) →
  (0 ≤ b)%Z → (b + Z.of_nat (length ops) ≤ 2 ^ 52)%Z →
  keys_upto (b + Z.of_nat (length ops)) (query (run_ops ops col)) ∧
  integer_keys (query (run_ops ops col)).
Proof.
  intros Hfresh Hkeys Hb Hlen.
  cut (keys_upto (b + Z.of_nat (length ops)) (query (run_ops ops col))).
  { intros Hrun. split; [done|]. by destruct Hrun. }
  revert col b Hfresh Hkeys Hb Hlen.
  induction ops as [|op ops IH]; intros col b Hfresh Hkeys Hb Hlen.
  { simpl. by rewrite Z.add_0_r. }
  destruct Hfresh as [Hop Hrest]. unfold run_ops. cbn [foldl length].
  fold (run_ops ops (apply_op col op)). cbn [length] in Hlen.
  replace (b + Z.of_nat (S (length ops)))%Z
    with ((b + 1) + Z.of_nat (length ops))%Z by lia.
  apply IH; [done| |lia|lia]. apply keys_upto_apply_op; [done|done|lia].
Qed.

Lemma integer_keys_run_witness :
  integer_keys
    (query (run_ops [op_add (a_video "A") false "doc1" 1;
                     op_add (a_video "B") false "doc2" 2;
                     op_add (a_video "C") true "doc3" 3;
                     op_delete "doc2"] ∅)).
Proof.
  apply (integer_keys_run _ ∅ 0).
  - repeat split; by vm_compute.
  - rewrite query_empty. by apply keys_upto_nil.
  - done.
  - by vm_compute.
Defined.
End FirestoreUiFacts.

(** * The two realizations of the queue agree *)
Module CorrespondenceFacts.
Import Js JsFacts Server ServerFacts ServerShape ServerInvariants.
Import Firestore FirestoreFacts FirestoreSamples FirestoreUi FirestoreUiFacts.
Import Samples Correspondence.

Lemma run_cons_state sid m ms st :
  (run ((sid, m) :: ms) st).1 = (run ms (handle sid m st).1).1.
Proof.
  simpl. destruct (handle sid m st) as [st1 out1]. simpl.
  by destruct (run ms st1).
Qed.

Lemma as_messages_cons sid op ops :
  as_messages sid (op :: ops) =
    match as_message op with
    | Some m => (sid, m) :: as_messages sid ops
    | None => as_messages sid ops
    end.
Proof. unfold as_messages. simpl. by destruct (as_message op). Qed.

Lemma handle_keeps_binding sid m st :
  (∀ roomId, m ≠ JoinRoom roomId) →
  data_roomId (handle sid m st).1 = data_roomId st.
Proof. intros Hm. by destruct (handle_effect sid m st Hm). Qed.

Lemma firestore_entries_renumber k docs :
  firestore_entries (renumber_from k docs) = firestore_entries docs.
Proof.
  unfold firestore_entries. apply list_eq. intros j.
  rewrite !list_lookup_fmap, renumber_from_lookup.
  by destruct (docs !! j) as [[i doc]|].
Qed.

Lemma firestore_entries_ids docs : (firestore_entries docs).*1 = docs.*1.
Proof. unfold firestore_entries. by rewrite <-list_fmap_compose. Qed.

Lemma server_entries_filter u queue :
  server_entries (filter (λ s, negb (has_uuid u s)) queue) =
    List.filter (λ e, negb (String.eqb e.1 u)) (server_entries queue).
Proof.
  unfold filter. induction queue as [|q queue IH]; [done|].
  cbn [List.filter]. unfold server_entries at 2. rewrite fmap_cons.
  fold (server_entries queue). cbn [List.filter fst]. unfold has_uuid at 1.
  destruct (String.eqb (uuid q) u); cbn [negb]; [done|].
  unfold server_entries at 1. rewrite fmap_cons. fold (server_entries (List.filter (λ s, negb (has_uuid u s)) queue)).
  by rewrite IH.
Qed.

Lemma filter_other_ids u (l : list (string * string)) :
  u ∉ l.*1 → List.filter (λ e, negb (String.eqb e.1 u)) l = l.
Proof.
  induction l as [|e l IH]; [done|]. intros Hu. simpl.
  apply not_elem_of_cons in Hu as [Hne Hu].
  rewrite (proj2 (String.eqb_neq _ _)) by done. simpl. by rewrite IH.
Qed.

(** One step of the two clients keeps the queues aligned. *)
Lemma aligned_step sid st roomId queue col op b :
  current_queue sid st = Some (roomId, queue) →
  server_entries queue = firestore_entries (query col) →
  keys_upto b (query col) → (b < 2 ^ 52)%Z →
  match op with op_add _ _ newId _ => col !! newId = None | _ => True end →
  let st' := match as_message op with
             | Some m => (handle sid m st).1
             | None => st
             end in
  ∃ queue', current_queue sid st' = Some (roomId, queue') ∧
            server_entries queue' = firestore_entries (query (apply_op col op)).
Proof.
  intros Hq Hsame Hkeys Hb Hfresh.
  pose proof (proj1 (current_queue_Some _ _ _ _) Hq) as (Hbound & Hne & Hr).
  assert (∀ m queue', (∀ r, m ≠ JoinRoom r) →
            rooms (handle sid m st).1 = <[roomId := queue']> (rooms st) →
            current_queue sid (handle sid m st).1 = Some (roomId, queue')) as Hcur.
  { intros m queue' Hm Hrooms. apply current_queue_Some.
    rewrite handle_keeps_binding, Hrooms by done.
    by rewrite lookup_insert_eq. }
  destruct op as [v isTop newId now|ref| |]; cbn [as_message apply_op].
  - destruct (handle_queue sid (AddSong (as_song v isTop) newId) st roomId queue Hq)
      as (queue' & Hrooms & Hqueue'); [done|].
    exists queue'. split; [by apply Hcur|]. rewrite Hqueue'. cbn [Server.isTop as_song].
    assert (length queue = length (query col)) as Hlen.
    { apply (f_equal length) in Hsame.
      unfold server_entries, firestore_entries in Hsame.
      by rewrite !length_fmap in Hsame. }
    destruct isTop; cbn [andb].
    + destruct (query col) as [|h rest] eqn:Hcol.
      * destruct queue; [|done].
        apply query_nil in Hcol. subst col. by rewrite query_addToQueue_first.
      * destruct queue as [|q queue]; [done|].
        rewrite (query_addToQueue_top_upto b col v newId now h rest)
          by (done || by rewrite Hcol).
        unfold renumber. rewrite firestore_entries_renumber.
        unfold server_entries, firestore_entries in *. simpl in *.
        injection Hsame as Hu Hv Hrest. rewrite drop_0. by rewrite Hu, Hv, Hrest.
    + rewrite (query_addToQueue_append_upto b) by (done || lia).
      unfold server_entries, firestore_entries in *.
      by rewrite !fmap_app, Hsame.
  - destruct (handle_queue sid (RemoveSong ref) st roomId queue Hq)
      as (queue' & Hrooms & Hqueue'); [done|].
    exists queue'. split; [by apply Hcur|]. rewrite Hqueue'.
    rewrite server_entries_filter, Hsame.
    pose proof (query_NoDup_ids col) as Hnd.
    destruct (col !! ref) as [doc|] eqn:Hdoc.
    + destruct (query_deleteDoc_split _ _ _ Hdoc) as (pre & post & Hsplit & ->).
      rewrite Hsplit in Hnd |- *. rewrite fmap_app in Hnd. simpl in Hnd.
      apply NoDup_app in Hnd as (_ & Hpre & Hpost).
      apply NoDup_cons in Hpost as [Hpost _].
      unfold firestore_entries at 1. rewrite fmap_app. simpl.
      rewrite List.filter_app. simpl. rewrite String.eqb_refl. simpl.
      fold (firestore_entries pre). fold (firestore_entries post).
      rewrite !filter_other_ids.
      * unfold firestore_entries. by rewrite fmap_app.
      * by rewrite firestore_entries_ids.
      * rewrite firestore_entries_ids. intros Hin. apply (Hpre ref Hin). left.
    + unfold deleteDoc. rewrite delete_id by done.
      apply filter_other_ids. rewrite firestore_entries_ids.
      intros ([i doc] & -> & Hin%elem_of_query)%list_elem_of_fmap.
      simpl in Hdoc. congruence.
  - destruct (handle_queue sid SongEnded st roomId queue Hq)
      as (queue' & Hrooms & Hqueue'); [done|].
    exists queue'. split; [by apply Hcur|]. rewrite Hqueue'.
    rewrite query_advanceSong. unfold renumber. rewrite firestore_entries_renumber.
    destruct queue, (query col); done || by injection Hsame.
  - exists queue. split; [done|].
    rewrite query_normalizeQueue. unfold renumber.
    by rewrite firestore_entries_renumber.
Qed.

(** X22.  the Socket.io queue and the Firestore queue hold the same songs in
    the same order.  From a room queue and a collection with the same
    entries (the collection on increasing natural keys up to [b], as the
    client keeps them), every run of adds, ordinary or on top, deletions and
    advances, with the same fresh id given to a new entry on both sides,
    leaves the same entries in the same order on both sides, as long as [b]
    plus the length of the run stays within [2^52], where the sums of the
    client are exact. *)
Theorem firestore_queue_follows_server_queue sid roomId ops st col queue b :
  current_queue sid st = Some (roomId, queue) →
  server_entries queue = firestore_entries (query col) →
  keys_upto b (query col) → (0 ≤ b)%Z →
  (b + Z.of_nat (length ops) ≤ 2 ^ 52)%Z → ids_fresh ops col →
  ∃ queue', current_queue sid (run (as_messages sid ops) st).1 = Some (roomId, queue') ∧
            server_entries queue' = firestore_entries (query (run_ops ops col)).
Proof.
  revert st col queue b. induction ops as [|op ops IH];
    intros st col queue b Hq Hsame Hkeys Hb Hlen Hfresh.
  { by exists queue. }
  destruct Hfresh as [Hop Hrest]. cbn [length] in Hlen.
  destruct (aligned_step sid st roomId queue col op b Hq Hsame Hkeys ltac:(lia) Hop)
    as (queue1 & Hq1 & Hsame1).
  pose proof (keys_upto_apply_op b col op Hop Hkeys ltac:(lia)) as Hkeys1.
  unfold run_ops. cbn [foldl]. fold (run_ops ops (apply_op col op)).
  rewrite as_messages_cons. destruct (as_message op) as [m|].
  - rewrite run_cons_state. apply (IH _ _ queue1 (b + 1)%Z); (done || lia).
  - apply (IH _ _ queue1 (b + 1)%Z); (done || lia).
Qed.

Lemma firestore_queue_follows_server_queue_witness :
  ∃ queue',
    current_queue 1
      (run (as_messages 1 [op_add (a_video "A") false "doc1" 1;
                           op_add (a_video "B") false "doc2" 2;
                           op_add (a_video "C") true "doc3" 3;
                           op_advance; op_delete "doc2"])
         (room_state [])).1 = Some ("room1", queue') ∧
    server_entries queue' =
      firestore_entries
        (query (run_ops [op_add (a_video "A") false "doc1" 1;
                         op_add (a_video "B") false "doc2" 2;
                         op_add (a_video "C") true "doc3" 3;
                         op_advance; op_delete "doc2"] ∅)).
Proof.
  apply (firestore_queue_follows_server_queue 1 "room1" _ (room_state []) ∅ [] 0).
  - done.
  - by rewrite query_empty.
  - rewrite query_empty. by apply keys_upto_nil.
  - done.
  - by vm_compute.
  - repeat split; by vm_compute.
Defined.

End CorrespondenceFacts.

(** * Further facts about the title-extraction proxies *)
Module AiInvariants.
Import Ai AiFacts AiSamples AiShape.

Section proxy.
Variable JSON_parse : string → option json.
Variable upstream : nat → payload → response.

Local Abbreviation retry_loop := (retry_loop JSON_parse upstream).
Local Abbreviation getUnknownParamName := (getUnknownParamName JSON_parse).
Local Abbreviation callAiOnceWithOptionalRetry :=
  (callAiOnceWithOptionalRetry JSON_parse upstream).
Local Abbreviation netlify_call := (netlify_call JSON_parse upstream).

Local Ltac step :=
  unfold mbind, M_bind, mret, M_ret, Ai.callAi, remember;
  cbn [fst snd posted AI_UNSUPPORTED_PARAMS].

(** What one run of the loop has done, in terms of the requests it sent. *)
Lemma retry_loop_sent attempts p w :
  let r := retry_loop attempts p w in
  ∃ sent, (posted r.2 = posted w ++ sent ∧
           head sent = Some p ∧ last sent = Some r.1.2 ∧
           r.1.1 = upstream (length (posted w) + length sent - 1) r.1.2) ∧
          1 ≤ length sent ≤ S attempts.
Proof.
  revert p w. induction attempts as [|attempts IH]; intros p w.
  - exists [p]. cbn [Ai.retry_loop]. step. repeat split; simpl; try lia.
    by rewrite Nat.add_sub.
  - cbn [Ai.retry_loop]. step.
    destruct (is_2xx _).
    { exists [p]. step. repeat split; simpl; try lia. by rewrite Nat.add_sub. }
    destruct (_ && _).
    + cbn [fst snd posted AI_UNSUPPORTED_PARAMS].
      match goal with |- context [Ai.retry_loop _ _ _ ?q ?w'] =>
        destruct (IH q w') as (sent & (Hposted & Hhead & Hlast & Hout) & Hlen);
        set (r := Ai.retry_loop _ _ _ q w') in *
      end.
      cbn [posted] in Hposted, Hout. rewrite length_app in Hout. simpl in Hout.
      exists (p :: sent). split; [|simpl; lia].
      split; [by rewrite Hposted, <-app_assoc|].
      split; [done|]. split.
      * destruct sent; [simpl in Hlen; lia|done].
      * rewrite Hout. f_equal. simpl. lia.
    + exists [p]. step. repeat split; simpl; try lia. by rewrite Nat.add_sub.
Qed.

(** X23.  the payload reported as [payloadUsed] is the body of the last
    request posted, and the status and text reported are the provider's
    answer to that request.  The first request carries the initial payload,
    and one call posts one to three requests. *)
Theorem payloadUsed_is_last_request p w :
  let r := callAiOnceWithOptionalRetry p w in
  ∃ sent, posted r.2 = posted w ++ sent ∧
          head sent = Some p ∧ last sent = Some r.1.2 ∧
          r.1.1 = upstream (length (posted w) + length sent - 1) r.1.2 ∧
          1 ≤ length sent ≤ 3.
Proof.
  intros r. destruct (retry_loop_sent 2 p w) as (sent & (H1 & H2 & H3 & H4) & H5).
  by exists sent.
Qed.

Lemma stripParam_lookup p name k :
  stripParam p name !! k = p !! k ∨
  (stripParam p name !! k = None ∧ k = name ∧ name ≠ "").
Proof.
  unfold stripParam. destruct (Js.truthy name) eqn:Hname; [|by left].
  apply JsFacts.truthy_nonempty in Hname.
  destruct (decide (k = name)) as [->|Hne].
  - right. by rewrite lookup_delete_eq.
  - left. by rewrite lookup_delete_ne.
Qed.

Lemma retry_loop_cache attempts p w :
  let r := retry_loop attempts p w in
  AI_UNSUPPORTED_PARAMS w ⊆ AI_UNSUPPORTED_PARAMS r.2 ∧
  (∀ k, r.1.2 !! k = p !! k ∨
        (r.1.2 !! k = None ∧ k ∈ AI_UNSUPPORTED_PARAMS r.2)) ∧
  (∀ k, k ∈ AI_UNSUPPORTED_PARAMS r.2 →
        k ∈ AI_UNSUPPORTED_PARAMS w ∨ (k ≠ "" ∧ r.1.2 !! k = None)).
Proof.
  revert p w. induction attempts as [|attempts IH]; intros p w.
  - cbn [Ai.retry_loop]. step. split; [done|]. split; [by left|by left].
  - cbn [Ai.retry_loop]. step.
    destruct (is_2xx _).
    { step. split; [done|]. split; [by left|by left]. }
    destruct (_ && _) eqn:Hretry.
    + cbn [fst snd posted AI_UNSUPPORTED_PARAMS].
      apply andb_prop in Hretry as [_ Hname].
      apply JsFacts.truthy_nonempty in Hname.
      match goal with |- context [Ai.retry_loop _ _ _ ?q ?w'] =>
        destruct (IH q w') as (Hsub & Hused & Hnew);
        set (r := Ai.retry_loop _ _ _ q w') in *
      end.
      cbn [AI_UNSUPPORTED_PARAMS] in Hsub, Hnew.
      set (name := Ai.getUnknownParamName _ _) in *.
      split; [|split].
      * intros k Hk. apply Hsub, elem_of_union. by right.
      * intros k. destruct (Hused k) as [Heq|Hnone]; [|by right].
        destruct (stripParam_lookup p name k) as [Hsame|(Hgone & -> & _)].
        -- left. by rewrite Heq.
        -- right. split; [by rewrite Heq|].
           apply Hsub, elem_of_union. left. by apply elem_of_singleton.
      * intros k Hk. destruct (Hnew k Hk) as [Hold|Hfresh]; [|by right].
        apply elem_of_union in Hold as [->%elem_of_singleton|Hold]; [|by left].
        right. split; [done|].
        destruct (Hused name) as [Heq|[Hnone _]]; [|done].
        rewrite Heq. unfold stripParam.
        rewrite (proj2 (JsFacts.truthy_nonempty _) Hname).
        by rewrite lookup_delete_eq.
    + step. split; [done|]. split; [by left|by left].
Qed.

(** X24.  the capability cache only grows, and it accounts for every
    parameter dropped: the payload used holds each parameter of the initial
    payload unchanged or not at all, a parameter that is gone is in the
    cache afterwards, and a name that the call added to the cache is not
    empty and is not in the payload used. *)
Theorem stripped_names_are_remembered p w :
  let r := callAiOnceWithOptionalRetry p w in
  AI_UNSUPPORTED_PARAMS w ⊆ AI_UNSUPPORTED_PARAMS r.2 ∧
  (∀ k, r.1.2 !! k = p !! k ∨
        (r.1.2 !! k = None ∧ k ∈ AI_UNSUPPORTED_PARAMS r.2)) ∧
  (∀ k, k ∈ AI_UNSUPPORTED_PARAMS r.2 →
        k ∈ AI_UNSUPPORTED_PARAMS w ∨ (k ≠ "" ∧ r.1.2 !! k = None)).
Proof. apply retry_loop_cache. Qed.

(** X25.  the Express server and the Netlify function differ by the third
    request only.  Whenever the answer the Netlify function ends with is
    not a rejection that names a parameter, the Express server posts the
    same requests and reports the same answer and the same payload. *)
Theorem express_agrees_with_netlify p w :
  let n := netlify_call p w in
  ¬ (status n.1.1 = 400%Z ∧ getUnknownParamName (text n.1.1) ≠ "") →
  (callAiOnceWithOptionalRetry p w).1 = n.1 ∧
  posted (callAiOnceWithOptionalRetry p w).2 = posted n.2.
Proof.
  intros n Hfinal. subst n. revert Hfinal.
  unfold Ai.callAiOnceWithOptionalRetry, Ai.netlify_call.
  cbn [Ai.retry_loop]. step.
  set (out := upstream (length (posted w)) p).
  assert (∀ o : response,
    (status o =? 400)%Z && Js.truthy (getUnknownParamName (text o)) = true →
    is_2xx o = false) as H400.
  { intros o [Hs _]%andb_prop. apply Z.eqb_eq in Hs. unfold is_2xx.
    by rewrite Hs. }
  assert (∀ o : response,
    ¬ (status o = 400%Z ∧ getUnknownParamName (text o) ≠ "") →
    (status o =? 400)%Z && Js.truthy (getUnknownParamName (text o)) = false)
    as Hnot.
  { intros o Ho. apply not_true_is_false. intros [Hs Hn]%andb_prop.
    apply Ho. split; [by apply Z.eqb_eq|by apply JsFacts.truthy_nonempty]. }
  destruct ((status out =? 400)%Z && _) eqn:Hretry.
  - rewrite (H400 _ Hretry). step. rewrite length_app, Nat.add_1_r. simpl.
    set (p' := stripParam p _). set (out' := upstream _ p').
    intros Hfinal. rewrite (Hnot _ Hfinal).
    by destruct (is_2xx out').
  - intros _. step. by destruct (is_2xx out).
Qed.

(** X26.  [buildPayload] looks up four names in the capability cache:
    [reasoning], [max_tokens], [max_completion_tokens] and
    [response_format].  A cached name among them is left out of the body;
    every other parameter is sent as with an empty cache, cached or not, so
    that a learnt [temperature] or [top_p] is sent again with the next
    request. *)
Theorem buildPayload_heeds_four_names model messages maxTokens withResponseFormat
    (unsupp : gset string) k :
  buildPayload model messages maxTokens withResponseFormat unsupp !! k =
    if bool_decide (k ∈ unsupp ∧ k ∈ heeded) then None
    else buildPayload model messages maxTokens withResponseFormat ∅ !! k.
Proof.
  unfold buildPayload.
  rewrite !(bool_decide_eq_false_2 (_ ∈ (∅ : gset string))) by set_solver.
  cbn [negb]. rewrite andb_true_r.
  set (p0 := (<["model" := model]> _ : payload)).
  assert (p0 !! "max_tokens" = None ∧ p0 !! "max_completion_tokens" = None ∧
          p0 !! "response_format" = None) as (Hmt & Hmct & Hrf).
  { by vm_compute. }
  destruct (decide (k ∈ heeded)) as [Hin|Hout].
  - rewrite (bool_decide_ext (k ∈ unsupp ∧ k ∈ heeded) (k ∈ unsupp))
      by (split; [by intros [? _]|done]).
    unfold heeded in Hin.
    repeat (apply elem_of_cons in Hin as [->|Hin]); [..|by apply elem_of_nil in Hin].
    all: destruct maxTokens as [n|]; destruct withResponseFormat;
      repeat (destruct (bool_decide (_ ∈ unsupp))); cbn [andb negb];
      rewrite ?lookup_delete_eq; try done;
      repeat first [rewrite lookup_delete_ne by done
                   |rewrite lookup_insert_ne by done
                   |rewrite lookup_insert_eq]; by rewrite ?Hmt, ?Hmct, ?Hrf.
  - rewrite (bool_decide_eq_false_2 (_ ∧ _)) by (by intros [_ ?]).
    assert (∀ name, name ∈ heeded → name ≠ k) as Hne by (by intros name ? ->).
    pose proof (Hne "reasoning" ltac:(by repeat constructor)) as H1.
    pose proof (Hne "max_tokens" ltac:(by repeat constructor)) as H2.
    pose proof (Hne "max_completion_tokens" ltac:(by repeat constructor)) as H3.
    pose proof (Hne "response_format" ltac:(by repeat constructor)) as H4.
    destruct maxTokens as [n|]; destruct withResponseFormat;
      repeat (destruct (bool_decide (_ ∈ unsupp))); cbn [andb negb];
      repeat first [rewrite lookup_delete_ne by done
                   |rewrite lookup_insert_ne by done]; done.
Qed.
End proxy.

Lemma express_agrees_with_netlify_witness :
  let lenient (n : nat) (p : payload) :=
    if bool_decide (is_Some (p !! "reasoning"))
    then {| status := 400; text := "param:reasoning" |}
    else {| status := 200; text := "ok" |} in
  (callAiOnceWithOptionalRetry sample_parse lenient initial_payload idle_world).1
    = (netlify_call sample_parse lenient initial_payload idle_world).1.
Proof.
  intros lenient.
  apply (express_agrees_with_netlify sample_parse lenient initial_payload idle_world).
  intros [Hs _]. by vm_compute in Hs.
Defined.

End AiInvariants.

(** * Facts about the strings of the prompt and of the lyrics search *)
Module TextFacts.
Import Text.

Lemma trimStart_suffix s : trimStart s `suffix_of` s.
Proof.
  induction s as [|c s IH]; simpl; [done|].
  destruct (is_white_space c); [by apply suffix_cons_r|done].
Qed.

Lemma trimStart_head s : ∀ c, head (trimStart s) = Some c → is_white_space c = false.
Proof.
  induction s as [|c' s IH]; intros c; simpl; [done|].
  destruct (is_white_space c') eqn:Hc'; [by apply IH|].
  simpl. by intros [= <-].
Qed.

Lemma trimStart_nil s : trimStart s = [] ↔ Forall (λ c, is_white_space c = true) s.
Proof.
  induction s as [|c s IH]; simpl; [done|].
  destruct (is_white_space c) eqn:Hc.
  - rewrite IH. split; [by constructor|by intros [_ ?]%Forall_cons].
  - split; [done|]. intros [Hc' _]%Forall_cons. congruence.
Qed.

Lemma trimStart_id s :
  (∀ c, head s = Some c → is_white_space c = false) → trimStart s = s.
Proof.
  destruct s as [|c s]; [done|]. intros Hc. simpl. by rewrite (Hc c).
Qed.

Lemma trimEnd_prefix s : trimEnd s `prefix_of` s.
Proof.
  unfold trimEnd. destruct (trimStart_suffix (reverse s)) as [k Hk].
  exists (reverse k). apply (inj reverse).
  by rewrite reverse_app, !reverse_involutive.
Qed.

Lemma trimEnd_nil s : trimEnd s = [] ↔ Forall (λ c, is_white_space c = true) s.
Proof.
  unfold trimEnd. rewrite <-(reverse_involutive []), (inj_iff reverse).
  rewrite reverse_nil, trimStart_nil. by rewrite Forall_reverse.
Qed.

Lemma trim_nil s : trim s = [] ↔ Forall (λ c, is_white_space c = true) s.
Proof.
  unfold trim. rewrite trimEnd_nil. split.
  - intros Hall. destruct (trimStart s) as [|c rest] eqn:Hs.
    { by apply trimStart_nil. }
    pose proof (trimStart_head s c) as Hc. rewrite Hs in Hc.
    apply Forall_cons in Hall as [Hc' _]. rewrite Hc in Hc'; done.
  - intros Hall. destruct (trimStart_suffix s) as [k Hk].
    rewrite Hk in Hall. by apply Forall_app in Hall as [_ ?].
Qed.

Lemma trim_head s c : head (trim s) = Some c → is_white_space c = false.
Proof.
  unfold trim. intros Hc. apply (trimStart_head s).
  destruct (trimEnd_prefix (trimStart s)) as [k Hk].
  rewrite Hk. by destruct (trimEnd (trimStart s)).
Qed.

(** X27.  [clipText] returns at most [maxLen] code units, and what it returns
    does not start with white space.  It returns the empty string exactly
    when its argument is not a string, holds white space only, or [maxLen]
    is 0: then the route takes the field to be missing. *)
Theorem clipText_bounded_and_left_trimmed s maxLen :
  length (clipText s maxLen) ≤ maxLen ∧
  (∀ c, head (clipText s maxLen) = Some c → is_white_space c = false) ∧
  (clipText s maxLen = [] ↔
     maxLen = 0 ∨ Forall (λ c, is_white_space c = true) (default [] s)).
Proof.
  unfold clipText. destruct (default [] s) as [|c0 t0] eqn:Ht.
  { split; [simpl; lia|]. split; [done|]. split; [by right|done]. }
  set (t := c0 :: t0). set (trimmed := trim t).
  destruct (length trimmed <=? maxLen) eqn:Hlen.
  - apply Nat.leb_le in Hlen. split; [done|]. split; [apply trim_head|].
    rewrite <-trim_nil. fold trimmed. split; [by right|].
    intros [->|?]; [|done]. by apply nil_length_inv, Nat.le_0_r.
  - apply Nat.leb_gt in Hlen. split; [rewrite length_take; lia|]. split.
    + intros c Hc. apply (trim_head t). fold trimmed.
      destruct trimmed, maxLen; done.
    + rewrite <-trim_nil. fold trimmed. split.
      * intros Htake. destruct maxLen; [by left|]. destruct trimmed; [by right|done].
      * intros [->|Hnil]; [done|]. rewrite Hnil in Hlen. simpl in Hlen. lia.
Qed.

(** [Array.prototype.find] returns the first element that passes. *)
Lemma find_first {A} (f : A → bool) (l : list A) r :
  List.find f l = Some r →
  ∃ pre post, l = pre ++ r :: post ∧ f r = true ∧
              Forall (λ it, f it = false) pre.
Proof.
  induction l as [|x l IH]; [done|]. simpl.
  destruct (f x) eqn:Hx.
  - intros [= <-]. by exists [], l.
  - intros (pre & post & -> & Hr & Hpre)%IH.
    exists (x :: pre), post. split; [done|]. split; [done|]. by constructor.
Qed.

(** X28.  [pickBestLrclibRecord] prefers synced lyrics wherever they are in
    the list.  The record it returns is the first record of the list with
    usable synced lyrics, or, when no record of the list has usable synced
    lyrics, the first record with usable plain lyrics; and it returns
    nothing exactly when no record has usable lyrics of either kind. *)
Theorem pickBestLrclibRecord_prefers_synced list :
  match pickBestLrclibRecord list with
  | Some r =>
      ∃ pre post, list = pre ++ r :: post ∧
        ((usable (syncedLyrics r) = true ∧
          Forall (λ it, usable (syncedLyrics it) = false) pre) ∨
         (usable (plainLyrics r) = true ∧
          Forall (λ it, usable (syncedLyrics it) = false) list ∧
          Forall (λ it, usable (plainLyrics it) = false) pre))
  | None =>
      Forall (λ it, usable (syncedLyrics it) = false ∧
                    usable (plainLyrics it) = false) list
  end.
Proof.
  unfold pickBestLrclibRecord. destruct list as [|r0 rest]; [done|].
  set (l := r0 :: rest).
  destruct (List.find (λ it, usable (syncedLyrics it)) l) as [r|] eqn:Hs.
  { apply find_first in Hs as (pre & post & Hl & Hr & Hpre).
    exists pre, post. split; [done|]. by left. }
  assert (Forall (λ it, usable (syncedLyrics it) = false) l) as Hnone.
  { apply Forall_forall. intros it Hit%list_elem_of_In.
    apply (find_none _ _ Hs it Hit). }
  destruct (List.find (λ it, usable (plainLyrics it)) l) as [r|] eqn:Hp.
  { apply find_first in Hp as (pre & post & Hl & Hr & Hpre).
    exists pre, post. split; [done|]. by right. }
  apply Forall_forall. intros it Hit. split.
  - by apply (proj1 (Forall_forall _ _) Hnone).
  - apply list_elem_of_In in Hit. apply (find_none _ _ Hp it Hit).
Qed.

End TextFacts.
